(** * The versioned index store of Perun (perun/logic/index.py)

    A shallow embedding of the binary index of profiles: the entry codec of
    both generations, the header, the walker, lookup and the three mutators,
    followed by the properties of the index that were checked against it.

    Conventions of the embedding.
    - A file is the list of its bytes; an opened handle is the file together
      with a cursor ([handle]), and the code runs in a state-and-exception
      monad over it: the file survives an exception, as on disk.
    - A Python [str] is represented by the bytes of its UTF-8 encoding
      ([str]); comparing two [str] by code points is comparing these bytes
      lexicographically.
    - Python integers are [Z]; the 4-byte integers of [struct.pack("i", _)]
      are written out with their range check. *)

From Stdlib Require Import ZArith List Bool Lia Sorted Permutation.
From Stdlib.Strings Require Import Byte.
From Stdlib.Strings Require String.
Import String.StringSyntax.
Import ListNotations.
Local Open Scope Z_scope.

(* ================================================================== *)
(** ** Bytes and strings *)

Definition bytes := list byte.
Definition str := list byte.

(** A literal, as the bytes of its text. *)
Definition lit (s : String.string) : str := String.list_byte_of_string s.
Bind Scope string_scope with String.string.
Delimit Scope string_scope with string.
Arguments lit s%_string.

Definition byte_to_Z (b : byte) : Z := Z.of_N (Byte.to_N b).

Definition byte_of_Z (z : Z) : byte :=
  match Byte.of_N (Z.to_N (z mod 256)) with
  | Some b => b
  | None => x00
  end.

Definition bytes_eqb (a b : bytes) : bool :=
  if list_eq_dec Byte.byte_eq_dec a b then true else false.

Definition str_list_eqb (a b : list str) : bool :=
  if list_eq_dec (list_eq_dec Byte.byte_eq_dec) a b then true else false.

(** [a < b], [a <= b] on [str]: lexicographic on the bytes, a proper prefix
    is smaller. *)
Fixpoint str_compare (a b : str) : comparison :=
  match a, b with
  | [], [] => Eq
  | [], _ :: _ => Lt
  | _ :: _, [] => Gt
  | x :: a', y :: b' =>
      match (byte_to_Z x ?= byte_to_Z y) with
      | Eq => str_compare a' b'
      | c => c
      end
  end.

Definition str_gtb (a b : str) : bool :=
  match str_compare a b with Gt => true | _ => false end.
Definition str_geb (a b : str) : bool :=
  match str_compare a b with Lt => false | _ => true end.

(* ================================================================== *)
(** ** Exceptions, log events and the handle monad *)

(** The two messages with which [walk_index] raises
    [MalformedIndexFileException]. *)
Inductive malformed_reason :=
  | NotAnIndexFile
  | DifferentIndexVersion (read_version supported : Z).

Inductive exc :=
  | MalformedIndexFileException (why : malformed_reason)
  | EntryNotFoundException (looked_up : str)
  | StructError
  | ValueError
  | OSError
  | ZlibError
  | RecursionError.

(** The calls to [perun_log] that the index makes. *)
Inductive log_event :=
  | LogError_internal_read_from (version : Z)
  | LogError_malformed_count
  | LogWarn_already_registered (path time : str)
  | LogMinorSuccess_deregistered (path : str)
  | LogMinorFail_not_found (key : str)
  | LogMinorInfo_nothing_to_remove
  | LogMajorInfo (title : str)
  | LogMinorStatus_removal_succeeded (n : Z).

Inductive outcome (A : Type) :=
  | Ok (a : A)
  | Raise (e : exc).
Arguments Ok {A} a.
Arguments Raise {A} e.

(** An opened binary file: its content, the cursor, and the log written so
    far by the running operation. *)
Record handle := mkHandle {
  content : bytes;
  pos : nat;
  log : list log_event
}.

Definition M (A : Type) : Type := handle -> outcome A * handle.

Definition ret {A} (a : A) : M A := fun h => (Ok a, h).
Definition raise {A} (e : exc) : M A := fun h => (Raise e, h).
Definition bind {A B} (m : M A) (k : A -> M B) : M B :=
  fun h => match m h with
           | (Ok a, h') => k a h'
           | (Raise e, h') => (Raise e, h')
           end.

Notation "x <- m ;; k" := (bind m (fun x => k))
  (at level 61, m at next level, right associativity).
Notation "m ;;; k" := (bind m (fun _ => k))
  (at level 61, right associativity).

(** [try: m except EntryNotFoundException: k]. *)
Definition catch_not_found {A} (m : M A) (k : M A) : M A :=
  fun h => match m h with
           | (Raise (EntryNotFoundException _), h') => k h'
           | r => r
           end.

(** Modelled from the spec: [perun.utils.log] is not part of the module;
    a call, also the one that reports the mismatch of the walker, emits its
    message and returns. *)
Definition perun_log (ev : log_event) : M unit :=
  fun h => (Ok tt, mkHandle (content h) (pos h) (log h ++ [ev])).

(** *** The file object *)

Definition set_pos (h : handle) (p : nat) : handle :=
  mkHandle (content h) p (log h).
Definition set_content (h : handle) (c : bytes) : handle :=
  mkHandle c (pos h) (log h).

Definition tell : M Z := fun h => (Ok (Z.of_nat (pos h)), h).

(** [handle.seek(n)]: a negative position is refused, a position behind the
    end of the file is not. *)
Definition seek (n : Z) : M unit :=
  fun h => if n <? 0 then (Raise OSError, h) else (Ok tt, set_pos h (Z.to_nat n)).

(** [handle.seek(0, 2)]. *)
Definition seek_end : M unit :=
  fun h => (Ok tt, set_pos h (length (content h))).

(** [handle.read(n)] for [n >= 0]: at most [n] bytes, fewer at the end of
    the file. *)
Definition read (n : nat) : M bytes :=
  fun h => let got := firstn n (skipn (pos h) (content h)) in
           (Ok got, set_pos h (pos h + length got)).

(** [handle.read()]. *)
Definition read_all : M bytes :=
  fun h => let got := skipn (pos h) (content h) in
           (Ok got, set_pos h (pos h + length got)).

(** [handle.read(n)] for a Python integer: [-1] reads to the end, any
    other negative size is refused by the buffered reader. *)
Definition read_Z (n : Z) : M bytes :=
  if n =? -1 then read_all
  else if n <? 0 then raise ValueError
  else read (Z.to_nat n).

(** [handle.write(data)]: overwrites from the cursor on and extends the
    file where the data reaches behind its end; a gap left by a seek behind
    the end is filled with zero bytes.  Writing no bytes changes nothing. *)
Definition write (data : bytes) : M unit :=
  fun h =>
    match data with
    | [] => (Ok tt, h)
    | _ :: _ =>
        let c := content h in
        let p := pos h in
        let c' := firstn p c ++ repeat x00 (p - length c)
                  ++ data ++ skipn (p + length data) c in
        (Ok tt, mkHandle c' (p + length data) (log h))
    end.

(** [handle.truncate()]: the file ends at the cursor (and is extended with
    zero bytes when the cursor is behind the end). *)
Definition truncate : M unit :=
  fun h =>
    let c := content h in
    let p := pos h in
    (Ok tt, set_content h (firstn p c ++ repeat x00 (p - length c))).

(** [handle.truncate(0)]: the cursor stays where it is. *)
Definition truncate0 : M unit :=
  fun h => (Ok tt, set_content h []).

(* ================================================================== *)
(** ** [struct]: 4-byte integers *)

(** [struct.pack("i", z)]: little-endian two's complement on 4 bytes;
    [struct.error] outside of the range of a C [int]. *)
Definition le32 (z : Z) : bytes :=
  [byte_of_Z z; byte_of_Z (z / 256); byte_of_Z (z / 65536);
   byte_of_Z (z / 16777216)].

Definition pack_i (z : Z) : outcome bytes :=
  if (-2147483648 <=? z) && (z <? 2147483648)
  then Ok (le32 (z mod 4294967296))
  else Raise StructError.

(** [struct.unpack("i", data)[0]]: [struct.error] unless [data] has exactly
    4 bytes. *)
Definition unpack_i (data : bytes) : outcome Z :=
  match data with
  | [b0; b1; b2; b3] =>
      let u := byte_to_Z b0 + 256 * byte_to_Z b1 + 65536 * byte_to_Z b2
               + 16777216 * byte_to_Z b3 in
      Ok (if u <? 2147483648 then u else u - 4294967296)
  | _ => Raise StructError
  end.

Definition lift {A} (o : outcome A) : M A :=
  match o with Ok a => ret a | Raise e => raise e end.

(** [handle.write(struct.pack("i", z))]. *)
Definition write_int (z : Z) : M unit :=
  data <- lift (pack_i z) ;; write data.

(* ================================================================== *)
(** ** [binascii.hexlify] and [bytearray.fromhex] *)

Definition hex_digit (n : Z) : byte :=
  nth (Z.to_nat n) (lit "0123456789abcdef") x30.

(** [binascii.hexlify(data).decode("utf-8")]: two lower-case digits per
    byte. *)
Definition hexlify (data : bytes) : str :=
  flat_map (fun b => [hex_digit (byte_to_Z b / 16);
                      hex_digit (byte_to_Z b mod 16)]) data.

Definition hex_value (c : byte) : option Z :=
  let z := byte_to_Z c in
  if (48 <=? z) && (z <=? 57) then Some (z - 48)
  else if (97 <=? z) && (z <=? 102) then Some (z - 87)
  else if (65 <=? z) && (z <=? 70) then Some (z - 55)
  else None.

Definition is_space (c : byte) : bool :=
  let z := byte_to_Z c in
  (z =? 32) || ((9 <=? z) && (z <=? 13)).

(** [bytearray.fromhex(text)]: pairs of hexadecimal digits of either case,
    white space allowed between the pairs; [ValueError] otherwise. *)
Fixpoint fromhex (text : str) : outcome bytes :=
  match text with
  | [] => Ok []
  | c :: r =>
      if is_space c then fromhex r
      else match hex_value c, r with
           | Some hi, d :: r' =>
               match hex_value d with
               | Some lo =>
                   match fromhex r' with
                   | Ok data => Ok (byte_of_Z (16 * hi + lo) :: data)
                   | Raise e => Raise e
                   end
               | None => Raise ValueError
               end
           | _, _ => Raise ValueError
           end
  end.

(** A digit that [hexlify] writes is read back by [fromhex] with its
    value and is no white space. *)
Definition hex_digit_checked (n : Z) : bool :=
  match hex_value (hex_digit n) with
  | Some m => (m =? n) && negb (is_space (hex_digit n))
  | None => false
  end.

(* ================================================================== *)
(** ** Constants and versions *)

Definition INDEX_ENTRIES_START_OFFSET : Z := 12.
Definition INDEX_NUMBER_OF_ENTRIES_OFFSET : Z := 8.
Definition INDEX_MAGIC_PREFIX : bytes := lit "pidx".
Definition INDEX_VERSION : Z := 2.

Inductive IndexVersion := SlowLorris | FastSloth.

Definition version_value (v : IndexVersion) : Z :=
  match v with SlowLorris => 1 | FastSloth => 2 end.

(** [IndexVersion(value)]: [ValueError] for a value that is no member of
    the enumeration. *)
Definition IndexVersion_of (value : Z) : outcome IndexVersion :=
  if value =? 1 then Ok SlowLorris
  else if value =? 2 then Ok FastSloth
  else Raise ValueError.

Definition get_older_version (index_version : IndexVersion)
  : outcome IndexVersion :=
  IndexVersion_of (version_value index_version - 1).

(* ================================================================== *)
(** ** Index entries *)

(** The class of an entry decides which [write_to] runs; the attributes are
    the same for both classes, and [__eq__] compares the attributes only. *)
Inductive entry_class := BasicIndexEntry | ExtendedIndexEntry.

Record entry := mkEntry {
  class : entry_class;
  time : str;
  checksum : str;
  path : str;
  offset : Z;
  type : str;
  cmd : str;
  workload : str;
  collector : str;
  postprocessors : list str
}.

(** What the constructor of an extended entry reads out of a profile:
    [header.type], [header.cmd], [header.get("workload", "")],
    [collector_info.name] and the names of the postprocessors. *)
Record profile := mkProfile {
  header_type : str;
  header_cmd : str;
  header_workload : option str;
  collector_info_name : str;
  postprocessor_names : list str
}.

(** [BasicIndexEntry(time, checksum, path, offset)]. *)
Definition new_BasicIndexEntry (time checksum path : str) (offset : Z)
  : entry :=
  mkEntry BasicIndexEntry time checksum path offset
          (lit "??") (lit "??") (lit "??") (lit "??") [].

(** [ExtendedIndexEntry(time, checksum, path, offset, profile)]. *)
Definition new_ExtendedIndexEntry (time checksum path : str) (offset : Z)
  (p : profile) : entry :=
  mkEntry ExtendedIndexEntry time checksum path offset
          (header_type p) (header_cmd p)
          (match header_workload p with Some w => w | None => [] end)
          (collector_info_name p) (postprocessor_names p).

(** [a == b] on entries: equality of the attribute dictionaries. *)
Definition entry_eqb (a b : entry) : bool :=
  bytes_eqb (time a) (time b) && bytes_eqb (checksum a) (checksum b)
  && bytes_eqb (path a) (path b) && (offset a =? offset b)
  && bytes_eqb (type a) (type b) && bytes_eqb (cmd a) (cmd b)
  && bytes_eqb (workload a) (workload b)
  && bytes_eqb (collector a) (collector b)
  && str_list_eqb (postprocessors a) (postprocessors b).

Definition set_offset (e : entry) (o : Z) : entry :=
  mkEntry (class e) (time e) (checksum e) (path e) o
          (type e) (cmd e) (workload e) (collector e) (postprocessors e).

(* ================================================================== *)
(** ** The collaborators of the index *)

(** What the index takes from [perun.utils.timestamps], from the object
    store and from [store.is_sha1]: the conversion between a time stamp and
    its text depends on the time zone of the process, and the profiles live
    in the object store. *)
Record collaborators := mkCollaborators {
  timestamp_to_str : Z -> str;
  str_to_timestamp : str -> outcome Z;
  load_profile_of_checksum : str -> outcome profile;
  is_sha1 : str -> bool
}.

(** *** [perun.logic.store]: reading and writing through a handle *)

(** Modelled from the spec: [store.read_int_from_handle] is not part of the
    module; the integers of the file are 4 bytes, little-endian, and the
    module itself writes them with [struct.pack("i", _)]. *)
Definition read_int_from_handle : M Z :=
  data <- read 4 ;; lift (unpack_i data).

(** Modelled from the spec: [store.read_char_from_handle], one byte of the
    path; nothing left to read is a decoding error. *)
Definition read_char_from_handle : M byte :=
  data <- read 1 ;;
  match data with
  | [c] => ret c
  | _ => raise StructError
  end.

(** Modelled from the spec: [store.write_string_to_handle], a
    length-prefixed string. *)
Definition write_string_to_handle (s : str) : M unit :=
  write_int (Z.of_nat (length s)) ;;; write s.

(** Modelled from the spec: [store.read_string_from_handle]. *)
Definition read_string_from_handle : M str :=
  n <- read_int_from_handle ;; read_Z n.

(** Modelled from the spec: [store.write_list_to_handle], the number of
    strings on 4 bytes, then that many length-prefixed strings. *)
Fixpoint write_strings (l : list str) : M unit :=
  match l with
  | [] => ret tt
  | s :: l' => write_string_to_handle s ;;; write_strings l'
  end.

Definition write_list_to_handle (l : list str) : M unit :=
  write_int (Z.of_nat (length l)) ;;; write_strings l.

(** Modelled from the spec: [store.read_list_from_handle]. *)
Fixpoint read_strings (n : nat) : M (list str) :=
  match n with
  | O => ret []
  | S n' => s <- read_string_from_handle ;;
            l <- read_strings n' ;;
            ret (s :: l)
  end.

Definition read_list_from_handle : M (list str) :=
  n <- read_int_from_handle ;; read_strings (Z.to_nat n).

(** Modelled from the spec: [timestamps.write_timestamp] and
    [timestamps.read_timestamp_from_file], the time stamp on 4 bytes. *)
Definition write_timestamp (timestamp : Z) : M unit := write_int timestamp.
Definition read_timestamp_from_file : M Z := read_int_from_handle.

(** The number of bytes between the cursor and the end of the file. *)
Definition bytes_left : M nat :=
  fun h => (Ok (length (content h) - pos h)%nat, h).

Section Codec.

Variable ext : collaborators.

(** *** [BasicIndexEntry] *)

(** The loop [while byte != "\0": file_path += byte; byte = read_char()].
    [left] counts the bytes after the cursor: with none left the read of
    the next character has raised. *)
Fixpoint read_path_loop (left : nat) (file_path : str) (byte : Byte.byte)
  : M str :=
  if Byte.eqb byte x00 then ret file_path
  else
    next <- read_char_from_handle ;;
    match left with
    | O => raise StructError
    | S left' => read_path_loop left' (file_path ++ [byte]) next
    end.

Definition BasicIndexEntry_read_from (index_version : IndexVersion)
  : M entry :=
  (if version_value SlowLorris <? version_value index_version
   then perun_log (LogError_internal_read_from (version_value index_version))
   else ret tt) ;;;
  file_offset <- tell ;;
  timestamp <- read_timestamp_from_file ;;
  let file_time := timestamp_to_str ext timestamp in
  sha <- read 20 ;;
  let file_sha := hexlify sha in
  byte <- read_char_from_handle ;;
  left <- bytes_left ;;
  file_path <- read_path_loop left [] byte ;;
  ret (new_BasicIndexEntry file_time file_sha file_path file_offset).

Definition BasicIndexEntry_write_to (self : entry) : M unit :=
  timestamp <- lift (str_to_timestamp ext (time self)) ;;
  write_timestamp timestamp ;;;
  sha <- lift (fromhex (checksum self)) ;;
  write sha ;;;
  write (path self) ;;;
  write [x00].

(** *** [ExtendedIndexEntry] *)

Definition ExtendedIndexEntry_read_from_older_index
  (index_version : IndexVersion) : M entry :=
  basic_entry <- BasicIndexEntry_read_from index_version ;;
  p <- lift (load_profile_of_checksum ext (checksum basic_entry)) ;;
  ret (new_ExtendedIndexEntry (time basic_entry) (checksum basic_entry)
                              (path basic_entry) (offset basic_entry) p).

Definition ExtendedIndexEntry_read_from_same_index
  (index_version : IndexVersion) : M entry :=
  older <- lift (get_older_version index_version) ;;
  basic_entry <- BasicIndexEntry_read_from older ;;
  p_type <- read_string_from_handle ;;
  p_cmd <- read_string_from_handle ;;
  p_workload <- read_string_from_handle ;;
  p_collector <- read_string_from_handle ;;
  p_posts <- read_list_from_handle ;;
  ret (new_ExtendedIndexEntry
         (time basic_entry) (checksum basic_entry)
         (path basic_entry) (offset basic_entry)
         (mkProfile p_type p_cmd (Some p_workload) p_collector p_posts)).

Definition ExtendedIndexEntry_read_from (index_version : IndexVersion)
  : M entry :=
  if version_value FastSloth >? version_value index_version
  then ExtendedIndexEntry_read_from_older_index index_version
  else ExtendedIndexEntry_read_from_same_index index_version.

Definition ExtendedIndexEntry_write_to (self : entry) : M unit :=
  BasicIndexEntry_write_to self ;;;
  write_string_to_handle (type self) ;;;
  write_string_to_handle (cmd self) ;;;
  write_string_to_handle (workload self) ;;;
  write_string_to_handle (collector self) ;;;
  write_list_to_handle (postprocessors self).

(** [entry.write_to(handle)], by the class of the entry. *)
Definition write_to (self : entry) : M unit :=
  match class self with
  | BasicIndexEntry => BasicIndexEntry_write_to self
  | ExtendedIndexEntry => ExtendedIndexEntry_write_to self
  end.

(** [cls.read_from(handle, index_version)]. *)
Definition read_from (cls : entry_class) (index_version : IndexVersion)
  : M entry :=
  match cls with
  | BasicIndexEntry => BasicIndexEntry_read_from index_version
  | ExtendedIndexEntry => ExtendedIndexEntry_read_from index_version
  end.

(** [INDEX_ENTRY_CONSTRUCTORS[INDEX_VERSION - 1]]. *)
Definition entry_constructor : entry_class := ExtendedIndexEntry.

End Codec.

(* ================================================================== *)
(** ** The walker *)

(** What the generator [walk_index] does when it is run to its end: it
    yields entries one after the other and then either returns, having
    logged the error about the number of objects or not, or raises.  A
    consumer that stops early sees a prefix only. *)
Inductive walk :=
  | WalkYield (e : entry) (rest : walk)
  | WalkReturn (logged_error : bool)
  | WalkRaise (e : exc).

Section Index.

Variable ext : collaborators.

(** The loop of [walk_index].  [todo] is [number_of_objects -
    loaded_objects], so that [loaded_objects < number_of_objects] is
    [todo <> 0]; when the loop ends, the error is logged if and only if
    [loaded_objects != number_of_objects]. *)
Fixpoint walk_loop (last_position : Z) (index_version : Z) (todo : nat)
  (h : handle) : walk :=
  match todo with
  | O => WalkReturn false
  | S todo' =>
      if Z.of_nat (pos h) + 24 <? last_position then
        match (v <- lift (IndexVersion_of index_version) ;;
               read_from ext entry_constructor v) h with
        | (Ok e, h') =>
            WalkYield e (walk_loop last_position index_version todo' h')
        | (Raise x, _) => WalkRaise x
        end
      else WalkReturn true
  end.

Definition walk_index (file : bytes) : walk :=
  let h0 := mkHandle file 0 [] in
  let last_position := Z.of_nat (length file) in
  match read 4 h0 with
  | (Raise x, _) => WalkRaise x
  | (Ok magic_bytes, h1) =>
      if negb (bytes_eqb magic_bytes INDEX_MAGIC_PREFIX)
      then WalkRaise (MalformedIndexFileException NotAnIndexFile)
      else
        match read_int_from_handle h1 with
        | (Raise x, _) => WalkRaise x
        | (Ok index_version, h2) =>
            if index_version >? INDEX_VERSION
            then WalkRaise (MalformedIndexFileException
                              (DifferentIndexVersion index_version
                                                     INDEX_VERSION))
            else
              match read_int_from_handle h2 with
              | (Raise x, _) => WalkRaise x
              | (Ok number_of_objects, h3) =>
                  if number_of_objects <? 0 then WalkReturn true
                  else walk_loop last_position index_version
                                 (Z.to_nat number_of_objects) h3
              end
        end
  end.

(** The generator runs on the handle of its caller and moves its cursor.
    [walk_loop_cursors] and [walk_index_cursors] follow the same code as
    [walk_loop] and [walk_index] and give the cursor instead of the
    entries: the position of the handle after each entry that is yielded
    and, last, its position when the generator returns or raises. *)
Fixpoint walk_loop_cursors (last_position : Z) (index_version : Z)
  (todo : nat) (h : handle) : list nat :=
  match todo with
  | O => [pos h]
  | S todo' =>
      if Z.of_nat (pos h) + 24 <? last_position then
        match (v <- lift (IndexVersion_of index_version) ;;
               read_from ext entry_constructor v) h with
        | (Ok _, h') =>
            pos h' :: walk_loop_cursors last_position index_version todo' h'
        | (Raise _, h') => [pos h']
        end
      else [pos h]
  end.

Definition walk_index_cursors (file : bytes) : list nat :=
  let h0 := mkHandle file 0 [] in
  let last_position := Z.of_nat (length file) in
  match read 4 h0 with
  | (Raise _, h1) => [pos h1]
  | (Ok magic_bytes, h1) =>
      if negb (bytes_eqb magic_bytes INDEX_MAGIC_PREFIX)
      then [pos h1]
      else
        match read_int_from_handle h1 with
        | (Raise _, h2) => [pos h2]
        | (Ok index_version, h2) =>
            if index_version >? INDEX_VERSION
            then [pos h2]
            else
              match read_int_from_handle h2 with
              | (Raise _, h3) => [pos h3]
              | (Ok number_of_objects, h3) =>
                  if number_of_objects <? 0 then [pos h3]
                  else walk_loop_cursors last_position index_version
                                         (Z.to_nat number_of_objects) h3
              end
        end
  end.

(** Where a consumer leaves the cursor: it takes the entries one after the
    other and abandons the suspended generator at the first entry at which
    it stops; otherwise it runs the generator to its end. *)
Fixpoint left_at (stop : entry -> bool) (w : walk) (cursors : list nat)
  : nat :=
  match w, cursors with
  | WalkYield e rest, cursor :: cursors' =>
      if stop e then cursor else left_at stop rest cursors'
  | _, cursor :: _ => cursor
  | _, [] => 0
  end.

(** [m] run on the handle on which the generator of the file has moved the
    cursor to where the consumer [stop] leaves it. *)
Definition on_walked_handle {A} (stop : entry -> bool) (m : M A) : M A :=
  fun h =>
    let '(r, h') := m h in
    (r, set_pos h' (left_at stop (walk_index (content h))
                            (walk_index_cursors (content h)))).

(** The entries yielded before the generator returns or raises. *)
Fixpoint yielded (w : walk) : list entry :=
  match w with
  | WalkYield e rest => e :: yielded rest
  | _ => []
  end.

(** How the generator ends. *)
Fixpoint walk_end (w : walk) : outcome bool :=
  match w with
  | WalkYield _ rest => walk_end rest
  | WalkReturn logged => Ok logged
  | WalkRaise x => Raise x
  end.

(** [list(walk_index(handle))]: the entries, and the error that the
    generator logs before it returns. *)
Fixpoint list_of_walk (w : walk) : M (list entry) :=
  match w with
  | WalkYield e rest => l <- list_of_walk rest ;; ret (e :: l)
  | WalkReturn logged =>
      (if logged then perun_log LogError_malformed_count else ret tt) ;;;
      ret []
  | WalkRaise x => raise x
  end.

Definition walk_index_list : M (list entry) :=
  on_walked_handle (fun _ => false)
    (fun h => list_of_walk (walk_index (content h)) h).

(* ------------------------------------------------------------------ *)
(** ** Lookup *)

Fixpoint lookup_in_walk (predicate : entry -> bool)
  (looked_up_entry_name : str) (w : walk) : M entry :=
  match w with
  | WalkYield e rest =>
      if predicate e then ret e
      else lookup_in_walk predicate looked_up_entry_name rest
  | WalkReturn logged =>
      (if logged then perun_log LogError_malformed_count else ret tt) ;;;
      raise (EntryNotFoundException looked_up_entry_name)
  | WalkRaise x => raise x
  end.

Definition lookup_entry_within_index (predicate : entry -> bool)
  (looked_up_entry_name : str) : M entry :=
  on_walked_handle predicate
    (fun h => lookup_in_walk predicate looked_up_entry_name
                             (walk_index (content h)) h).

Definition lookup_all_entries_within_index (predicate : entry -> bool)
  : M (list entry) :=
  l <- walk_index_list ;; ret (filter predicate l).

(* ------------------------------------------------------------------ *)
(** ** The header *)

Definition initialize_index_in_handle : M unit :=
  write INDEX_MAGIC_PREFIX ;;;
  write_int INDEX_VERSION ;;;
  write_int 0.

Definition update_index_version : M unit :=
  previous_position <- tell ;;
  seek 4 ;;;
  write_int INDEX_VERSION ;;;
  seek previous_position.

Definition modify_number_of_entries_in_index (modify : Z -> Z) : M unit :=
  seek INDEX_NUMBER_OF_ENTRIES_OFFSET ;;;
  number_of_entries <- read_int_from_handle ;;
  seek INDEX_NUMBER_OF_ENTRIES_OFFSET ;;;
  write_int (modify number_of_entries).

(** [with open(index_file, mode) as handle: body]: what the body returns,
    the file it leaves and what it logged. *)
Definition with_open_rb_plus {A} (index_file : bytes) (body : M A)
  : outcome A * bytes * list log_event :=
  let '(r, h) := body (mkHandle index_file 0 []) in
  (r, content h, log h).

(** Mode ["wb"] and ["wb+"]: the file is emptied when it is opened. *)
Definition with_open_wb {A} (body : M A)
  : outcome A * bytes * list log_event :=
  let '(r, h) := body (mkHandle [] 0 []) in
  (r, content h, log h).

(** [touch_index]: a new index, or the existing file left alone. *)
Definition touch_index (index_file : option bytes) : bytes :=
  match index_file with
  | Some file => file
  | None => snd (fst (with_open_wb initialize_index_in_handle))
  end.

(* ------------------------------------------------------------------ *)
(** ** Insert *)

(** [entry.path > file_entry.path or (entry.path == file_entry.path and
    entry.time >= file_entry.time)]. *)
Definition insert_predicate (file_entry e : entry) : bool :=
  str_gtb (path e) (path file_entry)
  || (bytes_eqb (path e) (path file_entry)
      && str_geb (time e) (time file_entry)).

(** The first part of [write_entry_to_index]: the offset at which the entry
    goes, or [None] where the function returns because the entry is
    registered already. *)
Definition locate_offset_in_file (file_entry : entry) : M (option Z) :=
  if offset file_entry =? -1 then
    catch_not_found
      (looked_up_entry <- lookup_entry_within_index
                            (insert_predicate file_entry) (path file_entry) ;;
       if bytes_eqb (path looked_up_entry) (path file_entry)
          && bytes_eqb (time looked_up_entry) (time file_entry)
       then
         perun_log (LogWarn_already_registered (path file_entry)
                                               (time file_entry)) ;;;
         ret None
       else ret (Some (offset looked_up_entry)))
      (seek_end ;;;
       offset_in_file <- tell ;;
       ret (Some offset_in_file))
  else ret (Some (offset file_entry)).

(** The second part of [write_entry_to_index]: the number of entries is
    incremented, the entry goes to [offset_in_file], what was there follows
    it, and the version of the index is updated. *)
Definition write_entry_at (file_entry : entry) (offset_in_file : Z)
  : M unit :=
  modify_number_of_entries_in_index (fun x => x + 1) ;;;
  seek offset_in_file ;;;
  buffer <- read_all ;;
  seek offset_in_file ;;;
  write_to ext file_entry ;;;
  write buffer ;;;
  update_index_version.

Definition write_entry_to_index_handle (file_entry : entry) : M unit :=
  located <- locate_offset_in_file file_entry ;;
  match located with
  | None => ret tt
  | Some offset_in_file => write_entry_at file_entry offset_in_file
  end.

Definition write_entry_to_index (index_file : bytes) (file_entry : entry)
  : outcome unit * bytes * list log_event :=
  with_open_rb_plus index_file (write_entry_to_index_handle file_entry).

(** [register_in_index]: the entry of a new profile carries the offset
    [-1]. *)
Definition register_in_index (index_file : bytes)
  (modification_stamp registered_file_checksum entry_name : str)
  (p : profile) : outcome unit * bytes * list log_event :=
  write_entry_to_index index_file
    (new_ExtendedIndexEntry modification_stamp registered_file_checksum
                            entry_name (-1) p).

(* ------------------------------------------------------------------ *)
(** ** Full rewrite *)

Fixpoint write_entries (entry_list : list entry) : M unit :=
  match entry_list with
  | [] => ret tt
  | e :: rest => write_to ext e ;;; write_entries rest
  end.

Definition write_list_of_entries_handle (entry_list : list entry) : M unit :=
  truncate0 ;;;
  initialize_index_in_handle ;;;
  modify_number_of_entries_in_index
    (fun _ => Z.of_nat (length entry_list)) ;;;
  seek INDEX_ENTRIES_START_OFFSET ;;;
  write_entries entry_list.

Definition write_list_of_entries (entry_list : list entry)
  : outcome unit * bytes * list log_event :=
  with_open_wb (write_list_of_entries_handle entry_list).

(* ------------------------------------------------------------------ *)
(** ** Bulk remove *)

(** [all_entries.sort(key=offset)]: a stable sort by the offset. *)
Fixpoint insert_by_offset (e : entry) (sorted : list entry) : list entry :=
  match sorted with
  | [] => [e]
  | x :: rest =>
      if offset e <? offset x then e :: x :: rest
      else x :: insert_by_offset e rest
  end.

Definition sort_by_offset (l : list entry) : list entry :=
  fold_right insert_by_offset [] l.

(** The helper [lookup_function] of [remove_from_index]. *)
Definition lookup_function (removed_file : str) (looked_entry : entry)
  : bool :=
  if is_sha1 ext removed_file
  then bytes_eqb (checksum looked_entry) removed_file
  else bytes_eqb (path looked_entry) removed_file.

(** The loop over the removed files: the entries found so far and the
    number of profiles that are still counted as removed. *)
Fixpoint remove_lookup_loop (removed_files : list str)
  (removed_entries : list entry) (removed_profile_number : Z)
  : M (list entry * Z) :=
  match removed_files with
  | [] => ret (removed_entries, removed_profile_number)
  | removed_file :: files' =>
      r <- catch_not_found
             (found_entry <- lookup_entry_within_index
                               (lookup_function removed_file) removed_file ;;
              perun_log (LogMinorSuccess_deregistered (path found_entry)) ;;;
              ret (removed_entries ++ [found_entry], removed_profile_number))
             (perun_log (LogMinorFail_not_found removed_file) ;;;
              ret (removed_entries, removed_profile_number - 1)) ;;
      remove_lookup_loop files' (fst r) (snd r)
  end.

(** [entry in removed_entries]. *)
Definition entry_in (e : entry) (l : list entry) : bool :=
  existsb (entry_eqb e) l.

(** The loop that writes the entries which stay. *)
Fixpoint write_kept (all_entries removed_entries : list entry) : M unit :=
  match all_entries with
  | [] => ret tt
  | e :: rest =>
      (if entry_in e removed_entries then ret tt else write_to ext e) ;;;
      write_kept rest removed_entries
  end.

Definition remove_from_index_handle (removed_file_generator : list str)
  : M Z :=
  walked <- walk_index_list ;;
  let all_entries := sort_by_offset walked in
  r <- remove_lookup_loop removed_file_generator []
         (Z.of_nat (length removed_file_generator)) ;;
  let removed_entries := fst r in
  seek INDEX_NUMBER_OF_ENTRIES_OFFSET ;;;
  write_int (Z.of_nat (length all_entries)
             - Z.of_nat (length removed_entries)) ;;;
  write_kept all_entries removed_entries ;;;
  truncate ;;;
  ret (snd r).

(** [remove_from_index] on the index of an existing minor version. *)
Definition remove_from_index (index_file : bytes)
  (removed_file_generator : list str)
  : outcome unit * bytes * list log_event :=
  if Z.of_nat (length removed_file_generator) =? 0
  then (Ok tt, index_file, [LogMinorInfo_nothing_to_remove])
  else
    let '(r, file, logged) :=
      with_open_rb_plus index_file
        (perun_log (LogMajorInfo (lit "Removing from index")) ;;;
         remove_from_index_handle removed_file_generator) in
    match r with
    | Raise x => (Raise x, file, logged)
    | Ok removed_profile_number =>
        (Ok tt, file,
         logged ++ [LogMajorInfo (lit "Summary")]
                ++ [if removed_profile_number =? 0
                    then LogMinorInfo_nothing_to_remove
                    else LogMinorStatus_removal_succeeded
                           removed_profile_number])
    end.

End Index.

(* ================================================================== *)
(** ** The auxiliary compressed index *)

Section CustomIndex.

(** The documents of [json], and what the index takes from [json], [zlib]
    and [store]: [json.loads], [json.dumps(records, indent=2)],
    [store.read_and_deflate_chunk] (which decompresses what it read and
    decodes it) and [store.pack_content].  Each of them returns or raises. *)
Variable json : Type.
Variable empty_dict : json.
Variable json_loads : str -> outcome json.
Variable json_dumps : json -> str.
Variable read_and_deflate_chunk : bytes -> outcome str.
Variable pack_content : bytes -> bytes.

Definition save_custom_index (records : json) : bytes :=
  pack_content (json_dumps records).

(** [load_custom_index]: the file may be absent ([None]); the result is the
    value returned or the exception that escapes, and the file afterwards. *)
Definition load_custom_index (index_file : option bytes)
  : outcome json * bytes :=
  let file := match index_file with
              | Some c => c
              | None => save_custom_index empty_dict
              end in
  let attempt := match read_and_deflate_chunk file with
                 | Ok text => json_loads text
                 | Raise x => Raise x
                 end in
  match attempt with
  | Ok records => (Ok records, file)
  | Raise ValueError => (Ok empty_dict, file)
  | Raise ZlibError => (Ok empty_dict, file)
  | Raise x => (Raise x, file)
  end.

End CustomIndex.

(* ================================================================== *)
(** ** The layout of an index, and the entries that can be stored *)

(** What [struct.pack("i", z)] gives for [z] in its range. *)
Definition int_bytes (z : Z) : bytes := le32 (z mod 4294967296).

Definition int_rangeb (z : Z) : bool :=
  (-2147483648 <=? z) && (z <? 2147483648).

Definition string_bytes (s : str) : bytes :=
  int_bytes (Z.of_nat (length s)) ++ s.

Definition list_bytes (l : list str) : bytes :=
  int_bytes (Z.of_nat (length l)) ++ concat (map string_bytes l).

(** The fields read straight from the header, as
    [get_profile_list_for_minor] reads the version and
    [get_profile_number_for_minor] the number of entries. *)
Definition format_version_of (file : bytes) : outcome Z :=
  fst ((seek 4 ;;; read_int_from_handle) (mkHandle file 0 [])).

Definition entry_count_of (file : bytes) : outcome Z :=
  fst ((seek INDEX_NUMBER_OF_ENTRIES_OFFSET ;;; read_int_from_handle)
         (mkHandle file 0 [])).

Definition header (version count : Z) : bytes :=
  INDEX_MAGIC_PREFIX ++ int_bytes version ++ int_bytes count.

(** The order of the records: by path, then by time. *)
Definition key_compare (a b : entry) : comparison :=
  match str_compare (path a) (path b) with
  | Eq => str_compare (time a) (time b)
  | c => c
  end.

Definition key_lt (a b : entry) : Prop := key_compare a b = Lt.
Definition key_le (a b : entry) : Prop := key_compare a b <> Gt.

(** Where [write_entry_to_index] puts an entry that carries no offset:
    before the first record that is not smaller, unless that record has
    its path and time ([None]). *)
Fixpoint insert_entry (x : entry) (es : list entry) : option (list entry) :=
  match es with
  | [] => Some [x]
  | e :: es' =>
      if insert_predicate x e then
        if bytes_eqb (path e) (path x) && bytes_eqb (time e) (time x)
        then None
        else Some (x :: e :: es')
      else option_map (cons e) (insert_entry x es')
  end.

Definition short (s : str) : bool := Z.of_nat (length s) <? 2147483648.

Definition valid_checksum (c : str) : bool :=
  match fromhex c with
  | Ok sha => (length sha =? 20)%nat && bytes_eqb (hexlify sha) c
  | Raise _ => false
  end.

Definition valid_path (p : str) : bool := negb (existsb (Byte.eqb x00) p).

(** Two exceptions of the same class, whatever their messages. *)
Definition same_class (a b : exc) : bool :=
  match a, b with
  | MalformedIndexFileException _, MalformedIndexFileException _ => true
  | EntryNotFoundException _, EntryNotFoundException _ => true
  | StructError, StructError => true
  | ValueError, ValueError => true
  | OSError, OSError => true
  | ZlibError, ZlibError => true
  | _, _ => false
  end.

Section Layout.

Variable ext : collaborators.

(** A time that survives the way to the file and back. *)
Definition valid_time (t : str) : bool :=
  match str_to_timestamp ext t with
  | Ok timestamp =>
      int_rangeb timestamp && bytes_eqb (timestamp_to_str ext timestamp) t
  | Raise _ => false
  end.

(** The entries of the two generations that the file can hold: a time that
    the collaborators convert there and back, a checksum of 20 bytes in
    lower-case hexadecimal digits, a path without NUL; for a basic entry
    the attributes that are not stored have the values the constructor
    gives them, for an extended entry the strings and their number fit the
    4-byte lengths. *)
Definition valid_entry (e : entry) : bool :=
  valid_time (time e) && valid_checksum (checksum e) && valid_path (path e)
  && match class e with
     | BasicIndexEntry =>
         bytes_eqb (type e) (lit "??") && bytes_eqb (cmd e) (lit "??")
         && bytes_eqb (workload e) (lit "??")
         && bytes_eqb (collector e) (lit "??")
         && str_list_eqb (postprocessors e) []
     | ExtendedIndexEntry =>
         short (type e) && short (cmd e) && short (workload e)
         && short (collector e)
         && forallb short (postprocessors e)
         && (Z.of_nat (length (postprocessors e)) <? 2147483648)
     end.

(** The conditions on the fields that both generations store. *)
Definition valid_common (e : entry) : Prop :=
  valid_time (time e) = true /\ valid_checksum (checksum e) = true
  /\ valid_path (path e) = true.

Definition is_extended (e : entry) : bool :=
  match class e with ExtendedIndexEntry => true | BasicIndexEntry => false end.

(** An entry that a file of the current format can hold. *)
Definition storable (e : entry) : bool := valid_entry e && is_extended e.

(** An entry of the current generation that is not placed yet. *)
Definition insertable (e : entry) : bool :=
  valid_entry e && is_extended e && (offset e =? -1).

(** The bytes of a record. *)
Definition basic_bytes (e : entry) : bytes :=
  match str_to_timestamp ext (time e), fromhex (checksum e) with
  | Ok timestamp, Ok sha => int_bytes timestamp ++ sha ++ path e ++ [x00]
  | _, _ => []
  end.

Definition extended_bytes (e : entry) : bytes :=
  string_bytes (type e) ++ string_bytes (cmd e) ++ string_bytes (workload e)
  ++ string_bytes (collector e) ++ list_bytes (postprocessors e).

Definition entry_bytes (e : entry) : bytes :=
  match class e with
  | BasicIndexEntry => basic_bytes e
  | ExtendedIndexEntry => basic_bytes e ++ extended_bytes e
  end.

Definition body (es : list entry) : bytes := concat (map entry_bytes es).

(** An index of the given version that holds the records [es], with their
    number in the header. *)
Definition index_file (version : Z) (es : list entry) : bytes :=
  header version (Z.of_nat (length es)) ++ body es.

(** The records with the offsets at which they lie when the first one lies
    at [start]. *)
Fixpoint place (start : nat) (es : list entry) : list entry :=
  match es with
  | [] => []
  | e :: es' =>
      set_offset e (Z.of_nat start)
      :: place (start + length (entry_bytes e)) es'
  end.

(** The ends of the records [es], the first of which lies at [start], and
    the end of the last one once more: where the cursor of the generator
    stands after each of these records and when it returns. *)
Fixpoint record_ends (start : nat) (es : list entry) : list nat :=
  match es with
  | [] => [start]
  | e :: es' =>
      (start + length (entry_bytes e))%nat
      :: record_ends (start + length (entry_bytes e)) es'
  end.

(** The entries that the loop of [remove_from_index] collects for the keys:
    for each key the first walked entry it matches. *)
Fixpoint first_matches (keys : list str) (walked : list entry)
  : list entry :=
  match keys with
  | [] => []
  | k :: keys' =>
      match find (lookup_function ext k) walked with
      | Some e => e :: first_matches keys' walked
      | None => first_matches keys' walked
      end
  end.

(** The walked entries that [remove_from_index] writes back. *)
Definition kept (removed : list entry) (e : entry) : bool :=
  negb (entry_in e removed).

(** The keys that match a walked entry. *)
Definition matched_keys (keys : list str) (walked : list entry) : list str :=
  filter (fun k => existsb (lookup_function ext k) walked) keys.

(** Encoding an entry at the cursor of a handle and decoding what was
    written: [write_to], a seek back, and [read_from] of the class of the
    entry, with the version of that generation. *)
Definition generation (cls : entry_class) : IndexVersion :=
  match cls with
  | BasicIndexEntry => SlowLorris
  | ExtendedIndexEntry => FastSloth
  end.

Definition decode_encoded (e : entry) : M entry :=
  start <- tell ;;
  write_to ext e ;;;
  seek start ;;;
  read_from ext (class e) (generation (class e)).

(** A sequence of calls of [write_entry_to_index], each on the file the
    call before left; the first exception ends it. *)
Fixpoint write_entries_to_index (index_file : bytes)
  (entries : list entry) : outcome unit * bytes :=
  match entries with
  | [] => (Ok tt, index_file)
  | e :: rest =>
      match write_entry_to_index ext index_file e with
      | (Ok _, file', _) => write_entries_to_index file' rest
      | (Raise x, file', _) => (Raise x, file')
      end
  end.

End Layout.

(* ================================================================== *)
(** ** A concrete setting for the examples *)

Module Demo.

(** Two points in time and their text in UTC. *)
Definition known_times : list (Z * str) :=
  [(1488369600, lit "2017-03-01 12:00:00");
   (1488369601, lit "2017-03-01 12:00:01")].

Definition utc_timestamp_to_str (timestamp : Z) : str :=
  match find (fun p => fst p =? timestamp) known_times with
  | Some p => snd p
  | None => []
  end.

Definition utc_str_to_timestamp (text : str) : outcome Z :=
  match find (fun p => bytes_eqb (snd p) text) known_times with
  | Some p => Ok (fst p)
  | None => Raise ValueError
  end.

(** 40 hexadecimal digits. *)
Definition looks_like_sha1 (s : str) : bool :=
  (length s =? 40)%nat
  && forallb (fun c => match hex_value c with
                       | Some _ => true
                       | None => false
                       end) s.

Definition a_profile : profile :=
  mkProfile (lit "time") (lit "ls") (Some (lit "-al")) (lit "trace")
            [lit "regression"].

Definition ext : collaborators :=
  mkCollaborators utc_timestamp_to_str utc_str_to_timestamp
                  (fun _ => Ok a_profile) looks_like_sha1.

Definition noon : str := lit "2017-03-01 12:00:00".
Definition noon1 : str := lit "2017-03-01 12:00:01".
Definition sha_1 : str := lit "da39a3ee5e6b4b0d3255bfef95601890afd80709".
Definition sha_2 : str := lit "356a192b7913b04c54574d18c28d46e6395428ab".

(** A new index, as [touch_index] creates it. *)
Definition fresh_index : bytes := touch_index None.

(** Entries as [register_in_index] builds them, with the offset [-1]. *)
Definition a_prof : entry :=
  new_ExtendedIndexEntry noon sha_1 (lit "a.prof") (-1) a_profile.
Definition b_prof : entry :=
  new_ExtendedIndexEntry noon sha_2 (lit "b.prof") (-1) a_profile.
Definition a_prof_later : entry :=
  new_ExtendedIndexEntry noon1 sha_2 (lit "a.prof") (-1) a_profile.

(** The file after a call; the index of one profile and of two. *)
Definition file_after {A} (r : outcome A * bytes * list log_event) : bytes :=
  snd (fst r).

Definition index_a : bytes :=
  file_after (write_entry_to_index ext fresh_index a_prof).
Definition index_a_b : bytes :=
  file_after (write_entry_to_index ext index_a b_prof).
Definition index_a_a : bytes :=
  file_after (write_entry_to_index ext index_a a_prof_later).

(** An index in the old format with the basic records of [a.prof] and
    [b.prof]: the header with version 1 and two entries, then the records
    of the first generation. *)
Definition old_index_a_b : bytes :=
  header 1 2 ++ basic_bytes ext a_prof ++ basic_bytes ext b_prof.

(** An index whose header counts one record and whose body holds two. *)
Definition index_counting_one_of_two : bytes :=
  header 2 1 ++ body ext [a_prof; b_prof].

(** A file with the magic prefix and the version 3, and a file that does
    not start with the magic prefix. *)
Definition index_of_version_3 : bytes := header 3 0.
Definition not_an_index : bytes := lit "PIDX" ++ int_bytes 2 ++ int_bytes 0.





End Demo.

(* ================================================================== *)
(** ** Notions used to state what the readers and writers do *)

(** What lies between the cursor and the end of the file. *)
Definition rest_of (h : handle) : bytes := skipn (pos h) (content h).

(** [m] reads exactly the bytes [bs] that follow the cursor, returns [v]
    and changes nothing but the cursor. *)
Definition parses {A} (m : M A) (bs : bytes) (v : A) : Prop :=
  forall h rest,
    rest_of h = bs ++ rest ->
    m h = (Ok v, set_pos h (pos h + length bs)).

(** [m] does what writing the bytes [bs] does. *)
Definition writes (m : M unit) (bs : bytes) : Prop :=
  forall h, m h = write bs h.

(** The generator that yields the entries of [l] and then ends with [w]. *)
Definition walk_of (l : list entry) (w : walk) : walk :=
  fold_right WalkYield w l.

(* ================================================================== *)
(** ** The readers of a minor version's index and the registration *)

(** A dictionary with string keys, in the order of insertion. *)
Definition dict := list (str * Z).

Fixpoint dict_get (d : dict) (k : str) : option Z :=
  match d with
  | [] => None
  | (k', v) :: d' => if bytes_eqb k' k then Some v else dict_get d' k
  end.

(** [d[k] = v]. *)
Fixpoint dict_set (d : dict) (k : str) (v : Z) : dict :=
  match d with
  | [] => [(k, v)]
  | (k', v') :: d' =>
      if bytes_eqb k' k then (k', v) :: d' else (k', v') :: dict_set d' k v
  end.

(** [{key: 0 for key in keys}]. *)
Definition dict_zeros (keys : list str) : dict :=
  fold_left (fun d k => dict_set d k 0) keys [].

(** [k in keys]. *)
Definition str_in (k : str) (keys : list str) : bool :=
  existsb (bytes_eqb k) keys.

Section Queries.

Variable ext : collaborators.

(** [common_kit.SUPPORTED_PROFILE_TYPES], a constant of another module. *)
Variable SUPPORTED_PROFILE_TYPES : list str.

(** [get_profile_list_for_minor]: the index of the minor version may be
    absent ([None]).  The result is the list of entries or the exception
    that escapes, the file afterwards and what was logged. *)
Definition get_profile_list_for_minor (minor_index_file : option bytes)
  : outcome (list entry) * option bytes * list log_event :=
  match minor_index_file with
  | None => (Ok [], None, [])
  | Some file =>
      match with_open_rb_plus file
              (seek 4 ;;;
               index_version <- read_int_from_handle ;;
               result <- walk_index_list ext ;;
               ret (index_version, result)) with
      | (Raise x, file', logged) => (Raise x, Some file', logged)
      | (Ok (index_version, result), file', logged) =>
          if index_version <? INDEX_VERSION then
            match write_list_of_entries ext result with
            | (Ok _, file'', logged') =>
                (Ok result, Some file'', logged ++ logged')
            | (Raise x, file'', logged') =>
                (Raise x, Some file'', logged ++ logged')
            end
          else (Ok result, Some file', logged)
      end
  end.

(** The loop of [get_profile_number_for_minor] over the walked entries:
    [profile_numbers_per_type[entry.type] += 1] for the entries of a
    supported type.  The key is in the dictionary, which was built from the
    supported types.  The function returns from inside the [with] block,
    which closes the handle: where the generator has left the cursor is
    not part of the result. *)
Fixpoint count_profile_types (w : walk) (numbers : dict) : M dict :=
  match w with
  | WalkYield e rest =>
      count_profile_types rest
        (if str_in (type e) SUPPORTED_PROFILE_TYPES
         then match dict_get numbers (type e) with
              | Some n => dict_set numbers (type e) (n + 1)
              | None => numbers
              end
         else numbers)
  | WalkReturn logged =>
      (if logged then perun_log LogError_malformed_count else ret tt) ;;;
      ret numbers
  | WalkRaise x => raise x
  end.

Definition get_profile_number_for_minor (minor_index_file : option bytes)
  : outcome dict * list log_event :=
  match minor_index_file with
  | None => (Ok [(lit "all", 0)], [])
  | Some file =>
      let '(r, _, logged) :=
        with_open_rb_plus file
          (seek INDEX_NUMBER_OF_ENTRIES_OFFSET ;;;
           all <- read_int_from_handle ;;
           fun h =>
             count_profile_types
               (walk_index ext (content h))
               (dict_set (dict_zeros SUPPORTED_PROFILE_TYPES) (lit "all") all)
               h) in
      (r, logged)
  end.

(** [register_in_minor_index] and [register_in_pending_index]: the index is
    touched, then the entry is registered. *)
Definition register_in_minor_index (minor_index_file : option bytes)
  (modification_stamp registered_checksum entry_name : str) (p : profile)
  : outcome unit * bytes * list log_event :=
  register_in_index ext (touch_index minor_index_file)
                    modification_stamp registered_checksum entry_name p.

(** How many of the entries a key of the dictionary counts: those of its
    type, when the type is supported. *)
Definition counted (k : str) (l : list entry) : Z :=
  if str_in k SUPPORTED_PROFILE_TYPES
  then Z.of_nat (length (filter (fun e => bytes_eqb (type e) k) l))
  else 0.

(** *** Indexes of the first generation and what a reader makes of them *)

(** An index of version 1 with the basic records of [es]. *)
Definition old_index_file (es : list entry) : bytes :=
  header 1 (Z.of_nat (length es)) ++ concat (map (basic_bytes ext) es).

(** The extended entry that [_read_from_older_index] builds for a basic
    record read at [position]: the fields of the record and what the
    profile of its checksum says. *)
Definition upgraded_at (position : Z) (e : entry) : outcome entry :=
  match load_profile_of_checksum ext (checksum e) with
  | Ok p => Ok (new_ExtendedIndexEntry (time e) (checksum e) (path e)
                                       position p)
  | Raise x => Raise x
  end.

(** A basic record that can be stored and whose profile gives an entry
    that the current format can hold. *)
Definition upgradable (e : entry) : bool :=
  valid_time ext (time e) && valid_checksum (checksum e)
  && valid_path (path e)
  && match upgraded_at (-1) e with
     | Ok u => storable ext u
     | Raise _ => false
     end.

(** The entries that the walker yields from an index of version 1 whose
    first record lies at [start]. *)
Fixpoint upgraded_from (start : nat) (es : list entry) : list entry :=
  match es with
  | [] => []
  | e :: es' =>
      match upgraded_at (Z.of_nat start) e with
      | Ok u => u :: upgraded_from (start + length (basic_bytes ext e)) es'
      | Raise _ => []
      end
  end.

(** The records after a sequence of insertions of entries that carry no
    offset. *)
Definition insert_all (xs es : list entry) : list entry :=
  fold_left (fun records x =>
               match insert_entry x records with
               | Some records' => records'
               | None => records
               end) xs es.

(** The predicate that picks the records with the path and the time of an
    entry. *)
Definition has_key_of (x e : entry) : bool :=
  bytes_eqb (path e) (path x) && bytes_eqb (time e) (time x).

(** *** What [remove_from_index] reports *)

(** The messages of the loop over the removed files. *)
Fixpoint removal_log (keys : list str) (walked : list entry)
  : list log_event :=
  match keys with
  | [] => []
  | k :: keys' =>
      match find (lookup_function ext k) walked with
      | Some e => LogMinorSuccess_deregistered (path e)
      | None => LogMinorFail_not_found k
      end :: removal_log keys' walked
  end.

(** The entries of [l] whose type is [t]. *)
Definition of_type (t : str) (l : list entry) : list entry :=
  filter (fun e => bytes_eqb (type e) t) l.

End Queries.

(* ================================================================== *)
(** * Properties *)
(* ------------------------------------------------------------------ *)
(** ** Bytes, integers and the order of strings *)

Lemma byte_to_Z_range (b : byte) : 0 <= byte_to_Z b < 256.
Proof.
  unfold byte_to_Z. pose proof (Byte.to_N_bounded b). lia.
Qed.

Lemma byte_of_to_Z (b : byte) : byte_of_Z (byte_to_Z b) = b.
Proof.
  unfold byte_of_Z. pose proof (byte_to_Z_range b) as R.
  rewrite Z.mod_small by exact R.
  unfold byte_to_Z. rewrite N2Z.id, Byte.of_to_N. reflexivity.
Qed.

Lemma byte_to_of_Z (z : Z) : byte_to_Z (byte_of_Z z) = z mod 256.
Proof.
  unfold byte_of_Z, byte_to_Z.
  pose proof (Z.mod_pos_bound z 256 ltac:(lia)) as R.
  destruct (Byte.of_N (Z.to_N (z mod 256))) as [b|] eqn:E.
  - apply Byte.to_of_N in E. rewrite E. lia.
  - apply Byte.of_N_None_iff in E. lia.
Qed.

Lemma byte_to_Z_inj (a b : byte) : byte_to_Z a = byte_to_Z b -> a = b.
Proof.
  intros H. rewrite <- (byte_of_to_Z a), <- (byte_of_to_Z b), H. reflexivity.
Qed.

Lemma int_rangeb_true (z : Z) :
  int_rangeb z = true <-> -2147483648 <= z < 2147483648.
Proof. unfold int_rangeb. rewrite andb_true_iff. lia. Qed.

Lemma pack_i_range (z : Z) :
  int_rangeb z = true -> pack_i z = Ok (int_bytes z).
Proof. unfold pack_i, int_rangeb. intros ->. reflexivity. Qed.

Lemma pack_i_out_of_range (z : Z) :
  int_rangeb z = false -> pack_i z = Raise StructError.
Proof. unfold pack_i, int_rangeb. intros ->. reflexivity. Qed.

Lemma unpack_int_bytes (z : Z) :
  int_rangeb z = true -> unpack_i (int_bytes z) = Ok z.
Proof.
  intros R. apply int_rangeb_true in R. destruct R as [L U].
  unfold int_bytes, le32, unpack_i.
  rewrite !byte_to_of_Z. f_equal.
  set (u := z mod 4294967296).
  assert (Hu : 0 <= u < 4294967296) by (apply Z.mod_pos_bound; lia).
  assert (Hsum : u mod 256 + 256 * ((u / 256) mod 256)
                 + 65536 * ((u / 65536) mod 256)
                 + 16777216 * ((u / 16777216) mod 256) = u).
  { Z.div_mod_to_equations. lia. }
  rewrite Hsum.
  destruct (Z.ltb_spec u 2147483648) as [H|H]; subst u.
  - destruct (Z_lt_le_dec z 0).
    + rewrite <- (Z.mod_add z 1 4294967296) in H by lia.
      rewrite Z.mod_small in H by lia. lia.
    + rewrite Z.mod_small by lia. reflexivity.
  - destruct (Z_lt_le_dec z 0).
    + rewrite <- (Z.mod_add z 1 4294967296) by lia.
      rewrite Z.mod_small by lia. lia.
    + rewrite Z.mod_small in H by lia. lia.
Qed.

Lemma int_bytes_length (z : Z) : length (int_bytes z) = 4%nat.
Proof. reflexivity. Qed.

Lemma bytes_eqb_true (a b : bytes) : bytes_eqb a b = true <-> a = b.
Proof.
  unfold bytes_eqb. destruct (list_eq_dec Byte.byte_eq_dec a b); split;
    intros; congruence.
Qed.

Lemma bytes_eqb_refl (a : bytes) : bytes_eqb a a = true.
Proof. apply bytes_eqb_true. reflexivity. Qed.

Lemma bytes_eqb_false (a b : bytes) : bytes_eqb a b = false <-> a <> b.
Proof.
  unfold bytes_eqb. destruct (list_eq_dec Byte.byte_eq_dec a b); split;
    intros; congruence.
Qed.

Lemma str_list_eqb_true (a b : list str) : str_list_eqb a b = true <-> a = b.
Proof.
  unfold str_list_eqb.
  destruct (list_eq_dec (list_eq_dec Byte.byte_eq_dec) a b); split;
    intros; congruence.
Qed.

Lemma str_compare_eq (a b : str) : str_compare a b = Eq <-> a = b.
Proof.
  revert b. induction a as [|x a IH]; intros [|y b]; simpl;
    try (split; intros; congruence).
  destruct (Z.compare_spec (byte_to_Z x) (byte_to_Z y)) as [E|L|G].
  - apply byte_to_Z_inj in E. subst y. rewrite IH.
    split; intros; congruence.
  - split; [discriminate|]. intros H. injection H as -> _. lia.
  - split; [discriminate|]. intros H. injection H as -> _. lia.
Qed.

Lemma str_compare_refl (a : str) : str_compare a a = Eq.
Proof. apply str_compare_eq. reflexivity. Qed.

Lemma str_compare_antisym (a b : str) :
  str_compare b a = CompOpp (str_compare a b).
Proof.
  revert b. induction a as [|x a IH]; intros [|y b]; simpl; trivial.
  rewrite (Z.compare_antisym (byte_to_Z x) (byte_to_Z y)).
  destruct (byte_to_Z x ?= byte_to_Z y); simpl; auto.
Qed.

Lemma str_compare_lt_trans (a b c : str) :
  str_compare a b = Lt -> str_compare b c = Lt -> str_compare a c = Lt.
Proof.
  revert b c. induction a as [|x a IH]; intros [|y b] [|z c]; simpl;
    try congruence.
  destruct (Z.compare_spec (byte_to_Z x) (byte_to_Z y)) as [E|L|G];
    destruct (Z.compare_spec (byte_to_Z y) (byte_to_Z z)) as [E'|L'|G'];
    try congruence; intros H1 H2.
  - rewrite E, E', Z.compare_refl. eauto.
  - rewrite E. apply Z.compare_lt_iff in L'. rewrite L'. reflexivity.
  - rewrite <- E'. apply Z.compare_lt_iff in L. rewrite L. reflexivity.
  - assert (T : byte_to_Z x < byte_to_Z z) by lia.
    apply Z.compare_lt_iff in T. rewrite T. reflexivity.
Qed.

Lemma str_gtb_lt (a b : str) : str_gtb a b = true <-> str_compare b a = Lt.
Proof.
  unfold str_gtb. rewrite (str_compare_antisym a b).
  destruct (str_compare a b); simpl; split; congruence.
Qed.

Lemma str_geb_le (a b : str) : str_geb a b = true <-> str_compare b a <> Gt.
Proof.
  unfold str_geb. rewrite (str_compare_antisym a b).
  destruct (str_compare a b); simpl; split; congruence.
Qed.

(** The order of the records. *)

Lemma key_compare_antisym (a b : entry) :
  key_compare b a = CompOpp (key_compare a b).
Proof.
  unfold key_compare. rewrite (str_compare_antisym (path a) (path b)).
  destruct (str_compare (path a) (path b)); simpl; trivial.
  apply str_compare_antisym.
Qed.

Lemma key_lt_trans (a b c : entry) : key_lt a b -> key_lt b c -> key_lt a c.
Proof.
  unfold key_lt, key_compare.
  destruct (str_compare (path a) (path b)) eqn:Eab;
    destruct (str_compare (path b) (path c)) eqn:Ebc; try congruence;
    intros H1 H2.
  - apply str_compare_eq in Eab, Ebc.
    rewrite Eab, Ebc, str_compare_refl.
    eapply str_compare_lt_trans; eauto.
  - apply str_compare_eq in Eab. rewrite Eab, Ebc. reflexivity.
  - apply str_compare_eq in Ebc. rewrite <- Ebc, Eab. reflexivity.
  - rewrite (str_compare_lt_trans _ _ _ Eab Ebc). reflexivity.
Qed.

(** The predicate of the insertion is "not smaller than the new entry". *)
Lemma insert_predicate_spec (x e : entry) :
  insert_predicate x e = true <-> key_compare x e <> Gt.
Proof.
  unfold insert_predicate, key_compare.
  rewrite orb_true_iff, andb_true_iff, str_gtb_lt, bytes_eqb_true,
    str_geb_le.
  destruct (str_compare (path x) (path e)) eqn:E.
  - apply str_compare_eq in E. rewrite E. intuition congruence.
  - intuition congruence.
  - split; [|congruence]. intros [H|[H _]]; [congruence|].
    rewrite H, str_compare_refl in E. discriminate.
Qed.

Lemma same_key_spec (x e : entry) :
  bytes_eqb (path e) (path x) && bytes_eqb (time e) (time x) = true
  <-> key_compare x e = Eq.
Proof.
  unfold key_compare. rewrite andb_true_iff, !bytes_eqb_true.
  destruct (str_compare (path x) (path e)) eqn:E.
  - apply str_compare_eq in E. rewrite str_compare_eq.
    intuition congruence.
  - split; [|congruence]. intros [H _]. rewrite H, str_compare_refl in E.
    discriminate.
  - split; [|congruence]. intros [H _]. rewrite H, str_compare_refl in E.
    discriminate.
Qed.
(* ------------------------------------------------------------------ *)
(** ** Reading and writing through a handle *)

Lemma set_pos_same (h : handle) : set_pos h (pos h) = h.
Proof. destruct h; reflexivity. Qed.

Lemma rest_of_length (h : handle) :
  length (rest_of h) = (length (content h) - pos h)%nat.
Proof. unfold rest_of. apply length_skipn. Qed.

Lemma rest_of_advance (h : handle) (bs rest : bytes) :
  rest_of h = bs ++ rest ->
  rest_of (set_pos h (pos h + length bs)) = rest.
Proof.
  unfold rest_of. simpl. intros H.
  rewrite Nat.add_comm, <- skipn_skipn, H, skipn_app, skipn_all, Nat.sub_diag.
  reflexivity.
Qed.

Lemma rest_of_inside (h : handle) (bs rest : bytes) :
  rest_of h = bs ++ rest -> bs <> [] ->
  (pos h + length bs <= length (content h))%nat.
Proof.
  intros H Hne. pose proof (rest_of_length h) as L.
  rewrite H, length_app in L.
  destruct bs; [congruence|]. simpl in *. lia.
Qed.

Lemma parses_ret {A} (v : A) : parses (ret v) [] v.
Proof.
  intros h rest _. unfold ret. simpl. rewrite Nat.add_0_r, set_pos_same.
  reflexivity.
Qed.

Lemma parses_bind {A B} (m : M A) (k : A -> M B) bs1 bs2 v1 v2 :
  parses m bs1 v1 -> parses (k v1) bs2 v2 ->
  parses (bind m k) (bs1 ++ bs2) v2.
Proof.
  intros Hm Hk h rest Hr. unfold bind.
  rewrite <- app_assoc in Hr.
  rewrite (Hm h _ Hr).
  rewrite (Hk _ rest (rest_of_advance _ _ _ Hr)).
  simpl. rewrite length_app, Nat.add_assoc. reflexivity.
Qed.

Lemma parses_read (n : nat) (bs : bytes) :
  length bs = n -> parses (read n) bs bs.
Proof.
  intros L h rest Hr. unfold read. fold (rest_of h). rewrite Hr.
  rewrite firstn_app, <- L, firstn_all, Nat.sub_diag. simpl.
  rewrite app_nil_r. reflexivity.
Qed.

Lemma parses_lift {A} (v : A) : parses (lift (Ok v)) [] v.
Proof. apply parses_ret. Qed.

Lemma parses_read_int (z : Z) :
  int_rangeb z = true -> parses read_int_from_handle (int_bytes z) z.
Proof.
  intros R. unfold read_int_from_handle.
  rewrite <- (app_nil_r (int_bytes z)).
  eapply parses_bind.
  - apply parses_read. reflexivity.
  - rewrite (unpack_int_bytes z R). apply parses_lift.
Qed.

Lemma short_range (s : str) :
  short s = true -> int_rangeb (Z.of_nat (length s)) = true.
Proof. unfold short. intros H. apply int_rangeb_true. lia. Qed.

Lemma parses_read_Z (bs : bytes) :
  parses (read_Z (Z.of_nat (length bs))) bs bs.
Proof.
  unfold read_Z.
  destruct (Z.eqb_spec (Z.of_nat (length bs)) (-1)); [lia|].
  destruct (Z.ltb_spec (Z.of_nat (length bs)) 0); [lia|].
  apply parses_read. lia.
Qed.

Lemma parses_read_string (s : str) :
  short s = true -> parses read_string_from_handle (string_bytes s) s.
Proof.
  intros Hs. unfold read_string_from_handle, string_bytes.
  eapply parses_bind.
  - apply parses_read_int, short_range, Hs.
  - apply parses_read_Z.
Qed.

Lemma parses_read_strings (l : list str) :
  forallb short l = true ->
  parses (read_strings (length l)) (concat (map string_bytes l)) l.
Proof.
  induction l as [|s l IH]; intros H.
  - apply parses_ret.
  - cbn [length map concat read_strings forallb] in *.
    apply andb_true_iff in H. destruct H as [Hs Hl].
    eapply parses_bind; [apply parses_read_string, Hs|].
    rewrite <- (app_nil_r (concat _)).
    eapply parses_bind; [apply IH, Hl|]. apply parses_ret.
Qed.

Lemma parses_read_list (l : list str) :
  forallb short l = true ->
  (Z.of_nat (length l) <? 2147483648) = true ->
  parses read_list_from_handle (list_bytes l) l.
Proof.
  intros Hl Hn. unfold read_list_from_handle, list_bytes.
  eapply parses_bind.
  - apply parses_read_int, int_rangeb_true. lia.
  - rewrite Nat2Z.id. apply parses_read_strings, Hl.
Qed.

Lemma parses_read_char (c : byte) : parses read_char_from_handle [c] c.
Proof.
  unfold read_char_from_handle. rewrite <- (app_nil_r [c]).
  eapply parses_bind; [apply parses_read; reflexivity|]. apply parses_ret.
Qed.

(** *** Writing *)

Lemma firstn_pad_length (p : nat) (c : bytes) :
  length (firstn p c ++ repeat x00 (p - length c)) = p.
Proof. rewrite length_app, length_firstn, repeat_length. lia. Qed.

Lemma splice_twice (front a b tail : bytes) (p : nat) :
  length front = p ->
  firstn (p + length a) (front ++ a ++ tail)
  ++ repeat x00 (p + length a - length (front ++ a ++ tail))
  ++ b ++ skipn (p + length a + length b) (front ++ a ++ tail)
  = front ++ (a ++ b) ++ skipn (length b) tail.
Proof.
  intros L.
  replace (p + length a - length (front ++ a ++ tail))%nat with 0%nat
    by (rewrite !length_app; lia).
  rewrite (app_assoc front a tail).
  assert (La : length (front ++ a) = (p + length a)%nat)
    by (rewrite length_app; lia).
  rewrite <- La at 1. rewrite firstn_app, firstn_all, Nat.sub_diag.
  rewrite skipn_app, La.
  rewrite (skipn_all2 (front ++ a)) by lia.
  replace (p + length a + length b - (p + length a))%nat with (length b)
    by lia.
  simpl. rewrite <- !app_assoc. reflexivity.
Qed.

Lemma write_nonempty (bs : bytes) (h : handle) :
  bs <> [] ->
  write bs h
  = (Ok tt,
     mkHandle (firstn (pos h) (content h)
               ++ repeat x00 (pos h - length (content h))
               ++ bs ++ skipn (pos h + length bs) (content h))
              (pos h + length bs) (log h)).
Proof. destruct bs; [congruence|reflexivity]. Qed.

Lemma write_app (a b : bytes) (h : handle) :
  (write a ;;; write b) h = write (a ++ b) h.
Proof.
  destruct (list_eq_dec Byte.byte_eq_dec a []) as [->|Ha]; [reflexivity|].
  destruct (list_eq_dec Byte.byte_eq_dec b []) as [->|Hb].
  { rewrite app_nil_r. unfold bind. rewrite write_nonempty by exact Ha.
    reflexivity. }
  assert (Hab : a ++ b <> []) by (destruct a; [congruence|discriminate]).
  unfold bind.
  rewrite (write_nonempty a) by exact Ha.
  rewrite (write_nonempty b) by exact Hb.
  rewrite (write_nonempty (a ++ b)) by exact Hab.
  cbn [content pos log].
  pose proof (splice_twice
                (firstn (pos h) (content h)
                 ++ repeat x00 (pos h - length (content h)))
                a b (skipn (pos h + length a) (content h)) (pos h)
                (firstn_pad_length _ _)) as S.
  rewrite <- !app_assoc in S. rewrite S.
  rewrite skipn_skipn, length_app.
  replace (length b + (pos h + length a))%nat
    with (pos h + (length a + length b))%nat by lia.
  rewrite <- !app_assoc, Nat.add_assoc. reflexivity.
Qed.

Lemma writes_write (bs : bytes) : writes (write bs) bs.
Proof. intros h. reflexivity. Qed.

Lemma writes_ret : writes (ret tt) [].
Proof. intros h. reflexivity. Qed.

Lemma writes_bind (m1 m2 : M unit) (a b : bytes) :
  writes m1 a -> writes m2 b -> writes (m1 ;;; m2) (a ++ b).
Proof.
  intros H1 H2 h. rewrite <- write_app. unfold bind.
  rewrite H1. destruct (write a h) as [[[]|e] h']; [apply H2|reflexivity].
Qed.

Lemma writes_write_int (z : Z) :
  int_rangeb z = true -> writes (write_int z) (int_bytes z).
Proof.
  intros R h. unfold write_int, bind. rewrite (pack_i_range z R).
  reflexivity.
Qed.

Lemma writes_write_string (s : str) :
  short s = true -> writes (write_string_to_handle s) (string_bytes s).
Proof.
  intros Hs. unfold write_string_to_handle, string_bytes.
  apply writes_bind; [apply writes_write_int, short_range, Hs|].
  apply writes_write.
Qed.

(** The content after a write that starts inside the file. *)
Lemma write_inside (bs : bytes) (h : handle) :
  (pos h <= length (content h))%nat ->
  write bs h =
  (Ok tt, mkHandle (firstn (pos h) (content h) ++ bs
                    ++ skipn (pos h + length bs) (content h))
                   (pos h + length bs) (log h)).
Proof.
  intros H. unfold write. destruct bs as [|b bs].
  - cbn [length app]. rewrite Nat.add_0_r, firstn_skipn.
    destruct h; reflexivity.
  - replace (pos h - length (content h))%nat with 0%nat by lia. reflexivity.
Qed.
(* ------------------------------------------------------------------ *)
(** ** The codec of the entries *)

Lemma hex_digits_checked :
  forallb hex_digit_checked (map Z.of_nat (seq 0 16)) = true.
Proof. vm_compute. reflexivity. Qed.

Lemma hex_digit_value (n : Z) :
  0 <= n < 16 ->
  hex_value (hex_digit n) = Some n /\ is_space (hex_digit n) = false.
Proof.
  intros R. pose proof hex_digits_checked as H.
  rewrite forallb_forall in H. specialize (H n).
  assert (Hin : In n (map Z.of_nat (seq 0 16))).
  { rewrite <- (Z2Nat.id n) by lia. apply in_map, in_seq. lia. }
  specialize (H Hin). unfold hex_digit_checked in H.
  destruct (hex_value (hex_digit n)) as [m|]; [|discriminate].
  apply andb_true_iff in H. destruct H as [E S].
  apply Z.eqb_eq in E. subst m.
  split; [reflexivity|]. destruct (is_space (hex_digit n)); [discriminate|].
  reflexivity.
Qed.

Lemma hex_pair (b : byte) (r : str) :
  fromhex (hex_digit (byte_to_Z b / 16) :: hex_digit (byte_to_Z b mod 16) :: r)
  = match fromhex r with
    | Ok data => Ok (b :: data)
    | Raise e => Raise e
    end.
Proof.
  pose proof (byte_to_Z_range b) as R.
  assert (Rhi : 0 <= byte_to_Z b / 16 < 16)
    by (Z.div_mod_to_equations; lia).
  assert (Rlo : 0 <= byte_to_Z b mod 16 < 16) by (apply Z.mod_pos_bound; lia).
  destruct (hex_digit_value _ Rhi) as [Vhi Shi].
  destruct (hex_digit_value _ Rlo) as [Vlo _].
  cbn [fromhex]. rewrite Shi, Vhi, Vlo.
  rewrite <- Z.div_mod by lia. rewrite byte_of_to_Z. reflexivity.
Qed.

Lemma fromhex_hexlify (data : bytes) : fromhex (hexlify data) = Ok data.
Proof.
  induction data as [|b data IH]; [reflexivity|].
  cbn [hexlify flat_map app]. fold (hexlify data).
  rewrite hex_pair, IH. reflexivity.
Qed.

(** Every checksum that [hexlify] gives for 20 bytes can be stored. *)
Lemma valid_checksum_hexlify (sha : bytes) :
  length sha = 20%nat -> valid_checksum (hexlify sha) = true.
Proof.
  intros L. unfold valid_checksum. rewrite fromhex_hexlify, L.
  rewrite bytes_eqb_refl. reflexivity.
Qed.

Lemma valid_path_cons (c : byte) (p : str) :
  valid_path (c :: p) = true -> c <> x00 /\ valid_path p = true.
Proof.
  unfold valid_path. cbn [existsb]. rewrite negb_orb, andb_true_iff.
  intros [H1 H2]. split; [|exact H2].
  intros ->. discriminate.
Qed.

Lemma read_path_loop_spec (p : str) :
  forall (acc : str) (b : byte) (s' : bytes) (left : nat) (h : handle)
         (rest : bytes),
    p ++ [x00] = b :: s' ->
    valid_path p = true ->
    rest_of h = s' ++ rest ->
    (length s' <= left)%nat ->
    read_path_loop left acc b h
    = (Ok (acc ++ p), set_pos h (pos h + length s')).
Proof.
  induction p as [|c p IH]; intros acc b s' left h rest E V Hr Hl.
  - injection E as <- <-. destruct left; cbn [read_path_loop Byte.eqb];
      unfold ret; rewrite app_nil_r; simpl; rewrite Nat.add_0_r, set_pos_same;
      reflexivity.
  - injection E as <- <-. apply valid_path_cons in V. destruct V as [Hc V].
    assert (Hb : Byte.eqb c x00 = false).
    { destruct (Byte.eqb c x00) eqn:Eb; [|reflexivity].
      apply Byte.byte_dec_bl in Eb. contradiction. }
    destruct (p ++ [x00]) as [|b' s''] eqn:Es.
    { destruct p; discriminate. }
    destruct left as [|left]; [simpl in Hl; lia|].
    cbn [read_path_loop]. rewrite Hb. unfold bind at 1.
    change (b' :: s'') with ([b'] ++ s'') in Hr. rewrite <- app_assoc in Hr.
    rewrite (parses_read_char b' h _ Hr).
    rewrite (IH (acc ++ [c]) b' s'' left _ rest eq_refl V
                (rest_of_advance _ _ _ Hr)) by (simpl in Hl; simpl; lia).
    rewrite <- app_assoc. unfold set_pos. cbn [content pos log app length].
    replace (pos h + 1 + length s'')%nat with (pos h + S (length s''))%nat
      by lia.
    reflexivity.
Qed.

Lemma parses_path (p : str) (b : byte) (s' : bytes) :
  p ++ [x00] = b :: s' ->
  valid_path p = true ->
  parses (left <- bytes_left ;; read_path_loop left [] b) s' p.
Proof.
  intros E V h rest Hr. unfold bind, bytes_left.
  apply (read_path_loop_spec p [] b s' _ h rest E V Hr).
  rewrite <- rest_of_length, Hr, length_app. lia.
Qed.

Section CodecProperties.

Variable ext : collaborators.

Lemma valid_time_spec (t : str) :
  valid_time ext t = true ->
  exists timestamp,
    str_to_timestamp ext t = Ok timestamp
    /\ int_rangeb timestamp = true
    /\ timestamp_to_str ext timestamp = t.
Proof.
  unfold valid_time. destruct (str_to_timestamp ext t) as [ts|]; [|discriminate].
  rewrite andb_true_iff, bytes_eqb_true. intros [R E]. eauto.
Qed.

Lemma valid_checksum_spec (c : str) :
  valid_checksum c = true ->
  exists sha, fromhex c = Ok sha /\ length sha = 20%nat /\ hexlify sha = c.
Proof.
  unfold valid_checksum. destruct (fromhex c) as [sha|]; [|discriminate].
  rewrite andb_true_iff, bytes_eqb_true, Nat.eqb_eq. intros [L E]. eauto.
Qed.

Lemma valid_entry_common (e : entry) :
  valid_entry ext e = true -> valid_common ext e.
Proof.
  unfold valid_entry, valid_common. rewrite !andb_true_iff. tauto.
Qed.

(** What [BasicIndexEntry.read_from] does after it has taken the offset. *)
Lemma parses_basic_fields (e : entry) (file_offset : Z) :
  valid_common ext e ->
  parses (timestamp <- read_timestamp_from_file ;;
          sha <- read 20 ;;
          byte <- read_char_from_handle ;;
          left <- bytes_left ;;
          file_path <- read_path_loop left [] byte ;;
          ret (new_BasicIndexEntry (timestamp_to_str ext timestamp)
                                   (hexlify sha) file_path file_offset))
         (basic_bytes ext e)
         (new_BasicIndexEntry (time e) (checksum e) (path e) file_offset).
Proof.
  intros (Vt & Vc & Vp).
  destruct (valid_time_spec _ Vt) as (ts & Ets & Rts & Ett).
  destruct (valid_checksum_spec _ Vc) as (sha & Esha & Lsha & Ehex).
  unfold basic_bytes. rewrite Ets, Esha.
  destruct (path e ++ [x00]) as [|b s'] eqn:Ep.
  { destruct (path e); discriminate. }
  eapply parses_bind; [apply parses_read_int, Rts|].
  eapply parses_bind; [apply parses_read, Lsha|].
  change (b :: s') with ([b] ++ s').
  eapply parses_bind; [apply parses_read_char|].
  intros h rest Hr.
  unfold bind at 1. unfold bytes_left at 1. unfold bind at 1.
  rewrite (read_path_loop_spec (path e) [] b s' _ h rest Ep Vp Hr)
    by (rewrite <- rest_of_length, Hr, length_app; lia).
  unfold ret. rewrite Ett, Ehex. reflexivity.
Qed.

Lemma read_basic (e : entry) (h : handle) (rest : bytes) :
  valid_common ext e ->
  rest_of h = basic_bytes ext e ++ rest ->
  BasicIndexEntry_read_from ext SlowLorris h
  = (Ok (new_BasicIndexEntry (time e) (checksum e) (path e)
                             (Z.of_nat (pos h))),
     set_pos h (pos h + length (basic_bytes ext e))).
Proof.
  intros V Hr. unfold BasicIndexEntry_read_from.
  cbn [version_value]. rewrite Z.ltb_irrefl.
  unfold bind at 1. unfold ret at 1. unfold bind at 1. unfold tell at 1.
  apply (parses_basic_fields e (Z.of_nat (pos h)) V h rest Hr).
Qed.

Lemma writes_basic (e : entry) :
  valid_common ext e -> writes (BasicIndexEntry_write_to ext e) (basic_bytes ext e).
Proof.
  intros (Vt & Vc & Vp).
  destruct (valid_time_spec _ Vt) as (ts & Ets & Rts & Ett).
  destruct (valid_checksum_spec _ Vc) as (sha & Esha & Lsha & Ehex).
  unfold BasicIndexEntry_write_to, basic_bytes. rewrite Ets, Esha.
  intros h. unfold bind at 1. cbn [lift ret].
  revert h. change (writes (write_timestamp ts ;;;
                            sha0 <- lift (Ok sha) ;;
                            write sha0 ;;; write (path e) ;;; write [x00])
                           (int_bytes ts ++ sha ++ path e ++ [x00])).
  apply writes_bind; [apply writes_write_int, Rts|].
  intros h. unfold bind at 1. cbn [lift ret]. revert h.
  change (writes (write sha ;;; write (path e) ;;; write [x00])
                 (sha ++ path e ++ [x00])).
  repeat (apply writes_bind; [apply writes_write|]). apply writes_write.
Qed.

Lemma writes_strings (l : list str) :
  forallb short l = true ->
  writes (write_strings l) (concat (map string_bytes l)).
Proof.
  induction l as [|s l IH]; intros H.
  - apply writes_ret.
  - cbn [forallb map concat write_strings] in *.
    apply andb_true_iff in H. destruct H as [Hs Hl].
    apply writes_bind; [apply writes_write_string, Hs|apply IH, Hl].
Qed.

Lemma valid_entry_extended (e : entry) :
  valid_entry ext e = true -> class e = ExtendedIndexEntry ->
  short (type e) = true /\ short (cmd e) = true /\ short (workload e) = true
  /\ short (collector e) = true /\ forallb short (postprocessors e) = true
  /\ (Z.of_nat (length (postprocessors e)) <? 2147483648) = true.
Proof.
  unfold valid_entry. intros H C. rewrite C in H.
  rewrite !andb_true_iff in H. tauto.
Qed.

Lemma valid_entry_basic (e : entry) :
  valid_entry ext e = true -> class e = BasicIndexEntry ->
  e = new_BasicIndexEntry (time e) (checksum e) (path e) (offset e).
Proof.
  unfold valid_entry. intros H C. rewrite C in H.
  rewrite !andb_true_iff, !bytes_eqb_true, str_list_eqb_true in H.
  destruct e; cbn in *. unfold new_BasicIndexEntry.
  destruct H as (_ & (((-> & ->) & ->) & ->) & ->). subst. reflexivity.
Qed.

Lemma writes_extended_fields (e : entry) :
  valid_entry ext e = true -> class e = ExtendedIndexEntry ->
  writes (write_string_to_handle (type e) ;;;
          write_string_to_handle (cmd e) ;;;
          write_string_to_handle (workload e) ;;;
          write_string_to_handle (collector e) ;;;
          write_list_to_handle (postprocessors e))
         (extended_bytes e).
Proof.
  intros V C.
  destruct (valid_entry_extended e V C) as (H1 & H2 & H3 & H4 & H5 & H6).
  unfold extended_bytes.
  repeat (apply writes_bind; [apply writes_write_string; assumption|]).
  unfold write_list_to_handle, list_bytes.
  apply writes_bind; [apply writes_write_int, int_rangeb_true; lia|].
  apply writes_strings, H5.
Qed.

(** [write_to] writes the bytes of the record, whatever the cursor. *)
Lemma writes_entry (e : entry) :
  valid_entry ext e = true -> writes (write_to ext e) (entry_bytes ext e).
Proof.
  intros V. pose proof (valid_entry_common e V) as Vc.
  unfold write_to, entry_bytes. destruct (class e) eqn:C.
  - apply writes_basic, Vc.
  - unfold ExtendedIndexEntry_write_to.
    apply writes_bind; [apply writes_basic, Vc|].
    apply writes_extended_fields; assumption.
Qed.

Lemma parses_extended_fields (e : entry) (t c p : str) (o : Z) :
  valid_entry ext e = true -> class e = ExtendedIndexEntry ->
  parses (p_type <- read_string_from_handle ;;
          p_cmd <- read_string_from_handle ;;
          p_workload <- read_string_from_handle ;;
          p_collector <- read_string_from_handle ;;
          p_posts <- read_list_from_handle ;;
          ret (new_ExtendedIndexEntry t c p o
                 (mkProfile p_type p_cmd (Some p_workload) p_collector
                            p_posts)))
         (extended_bytes e)
         (new_ExtendedIndexEntry t c p o
            (mkProfile (type e) (cmd e) (Some (workload e)) (collector e)
                       (postprocessors e))).
Proof.
  intros V C.
  destruct (valid_entry_extended e V C) as (H1 & H2 & H3 & H4 & H5 & H6).
  unfold extended_bytes.
  repeat (eapply parses_bind; [apply parses_read_string; assumption|]).
  rewrite <- (app_nil_r (list_bytes _)).
  eapply parses_bind; [apply parses_read_list; assumption|].
  apply parses_ret.
Qed.

(** Reading a record of the current format gives the entry back, at the
    offset of the cursor. *)
Lemma read_extended (e : entry) (h : handle) (rest : bytes) :
  valid_entry ext e = true -> class e = ExtendedIndexEntry ->
  rest_of h = entry_bytes ext e ++ rest ->
  ExtendedIndexEntry_read_from ext FastSloth h
  = (Ok (set_offset e (Z.of_nat (pos h))),
     set_pos h (pos h + length (entry_bytes ext e))).
Proof.
  intros V C Hr. pose proof (valid_entry_common e V) as Vc.
  unfold entry_bytes in *. rewrite C in *.
  unfold ExtendedIndexEntry_read_from, ExtendedIndexEntry_read_from_same_index.
  cbn [version_value get_older_version IndexVersion_of Z.gtb Z.compare
       Pos.compare Pos.compare_cont Z.sub Z.add Z.opp Z.pos_sub Pos.pred_double
       Z.eqb Pos.eqb lift].
  unfold bind at 1. cbn [ret]. unfold bind at 1.
  rewrite <- app_assoc in Hr.
  rewrite (read_basic e h _ Vc Hr).
  rewrite (parses_extended_fields e _ _ _ _ V C _ rest
             (rest_of_advance _ _ _ Hr)).
  cbn [new_BasicIndexEntry time checksum path offset].
  f_equal.
  - f_equal. destruct e; cbn in *. subst. reflexivity.
  - unfold set_pos. cbn [content pos log]. rewrite length_app, Nat.add_assoc.
    reflexivity.
Qed.

Lemma basic_bytes_length (e : entry) :
  valid_common ext e ->
  length (basic_bytes ext e) = (25 + length (path e))%nat.
Proof.
  intros (Vt & Vc & Vp).
  destruct (valid_time_spec _ Vt) as (ts & Ets & _).
  destruct (valid_checksum_spec _ Vc) as (sha & Esha & Lsha & _).
  unfold basic_bytes. rewrite Ets, Esha.
  rewrite !length_app, int_bytes_length, Lsha. simpl. lia.
Qed.

(** No record is shorter than 25 bytes. *)
Lemma entry_bytes_length (e : entry) :
  valid_entry ext e = true -> (25 <= length (entry_bytes ext e))%nat.
Proof.
  intros V. pose proof (basic_bytes_length e (valid_entry_common e V)).
  unfold entry_bytes. destruct (class e); rewrite ?length_app; lia.
Qed.

End CodecProperties.
(* ------------------------------------------------------------------ *)
(** ** Walking an index of the current format *)

Section WalkProperties.

Variable ext : collaborators.

Lemma storable_spec (e : entry) :
  storable ext e = true ->
  valid_entry ext e = true /\ class e = ExtendedIndexEntry.
Proof.
  unfold storable, is_extended. rewrite andb_true_iff.
  destruct (class e); intuition congruence.
Qed.

Lemma place_length (start : nat) (es : list entry) :
  length (place ext start es) = length es.
Proof.
  revert start. induction es as [|e es IH]; intros start; simpl; auto.
Qed.

Lemma yielded_walk_of (l : list entry) (flag : bool) :
  yielded (walk_of l (WalkReturn flag)) = l.
Proof. induction l; simpl; congruence. Qed.

Lemma walk_end_walk_of (l : list entry) (w : walk) :
  walk_end (walk_of l w) = walk_end w.
Proof. induction l; simpl; auto. Qed.

Lemma walk_loop_spec (es : list entry) :
  forall (todo : nat) (h : handle) (tail : bytes),
    forallb (storable ext) es = true ->
    rest_of h = body ext es ++ tail ->
    (length tail < 25)%nat ->
    walk_loop ext (Z.of_nat (length (content h))) 2 todo h
    = walk_of (place ext (pos h) (firstn todo es))
              (WalkReturn (length es <? todo)%nat).
Proof.
  induction es as [|e es IH]; intros todo h tail Hs Hr Ht.
  - destruct todo as [|todo]; [reflexivity|].
    cbn [walk_loop firstn place walk_of fold_right length].
    pose proof (rest_of_length h) as L. rewrite Hr in L. simpl in L.
    destruct (Z.ltb_spec (Z.of_nat (pos h) + 24)
                         (Z.of_nat (length (content h)))); [lia|].
    reflexivity.
  - destruct todo as [|todo]; [reflexivity|].
    cbn [forallb] in Hs. apply andb_true_iff in Hs. destruct Hs as [He Hs].
    destruct (storable_spec e He) as [V C].
    unfold body in Hr. cbn [map concat] in Hr. fold (body ext es) in Hr.
    rewrite <- app_assoc in Hr.
    pose proof (entry_bytes_length ext e V) as Le.
    pose proof (rest_of_length h) as L. rewrite Hr, length_app in L.
    cbn [walk_loop].
    destruct (Z.ltb_spec (Z.of_nat (pos h) + 24)
                         (Z.of_nat (length (content h)))); [|lia].
    unfold bind at 1. cbn [IndexVersion_of Z.eqb Pos.eqb lift ret].
    cbn [read_from entry_constructor].
    rewrite (read_extended ext e h _ V C Hr).
    cbn [firstn place walk_of fold_right length].
    f_equal.
    change (length (content h))
      with (length (content (set_pos h (pos h + length (entry_bytes ext e))))).
    rewrite (IH todo _ tail Hs (rest_of_advance _ _ _ Hr) Ht).
    reflexivity.
Qed.

Lemma header_length (v c : Z) : length (header v c) = 12%nat.
Proof. reflexivity. Qed.

(** The walker on a file that starts with a header. *)
Lemma walk_index_header (v c : Z) (b : bytes) :
  int_rangeb v = true -> int_rangeb c = true ->
  walk_index ext (header v c ++ b)
  = if v >? INDEX_VERSION
    then WalkRaise (MalformedIndexFileException
                      (DifferentIndexVersion v INDEX_VERSION))
    else if c <? 0 then WalkReturn true
    else walk_loop ext (Z.of_nat (length (header v c ++ b))) v (Z.to_nat c)
                   (mkHandle (header v c ++ b) 12 []).
Proof.
  intros Rv Rc. unfold walk_index. cbv zeta.
  set (file := header v c ++ b).
  assert (H0 : rest_of (mkHandle file 0 [])
               = INDEX_MAGIC_PREFIX ++ int_bytes v ++ int_bytes c ++ b).
  { unfold rest_of, file, header. cbn [pos content skipn].
    rewrite <- !app_assoc. reflexivity. }
  rewrite (parses_read 4 INDEX_MAGIC_PREFIX eq_refl _ _ H0).
  rewrite bytes_eqb_refl. cbn [negb].
  pose proof (rest_of_advance _ _ _ H0) as H1.
  rewrite (parses_read_int v Rv _ _ H1).
  destruct (v >? INDEX_VERSION); [reflexivity|].
  pose proof (rest_of_advance _ _ _ H1) as H2.
  rewrite <- (app_nil_l b) in H2 at 1.
  rewrite (parses_read_int c Rc _ (b) ) by (rewrite H2; reflexivity).
  destruct (c <? 0); reflexivity.
Qed.

(** The walker on a file of the current version: it yields the records
    that the header counts, as far as there are records, with their
    offsets, and logs the error when the header counts more. *)
Lemma walk_index_records (c : Z) (es : list entry) (tail : bytes) :
  int_rangeb c = true ->
  forallb (storable ext) es = true ->
  (length tail < 25)%nat ->
  walk_index ext (header 2 c ++ body ext es ++ tail)
  = walk_of (place ext 12 (firstn (Z.to_nat c) es))
            (WalkReturn ((c <? 0) || (length es <? Z.to_nat c)%nat)).
Proof.
  intros Rc Hs Ht. rewrite walk_index_header by (reflexivity || exact Rc).
  cbn [INDEX_VERSION Z.gtb Z.compare Pos.compare Pos.compare_cont].
  destruct (Z.ltb_spec c 0) as [Hneg|Hpos].
  - replace (Z.to_nat c) with 0%nat by lia. reflexivity.
  - cbn [orb].
    apply (walk_loop_spec es (Z.to_nat c)
             (mkHandle (header 2 c ++ body ext es ++ tail) 12 []) tail Hs).
    + unfold rest_of. cbn [pos content].
      rewrite skipn_app, header_length.
      rewrite skipn_all2 by (rewrite header_length; lia). reflexivity.
    + exact Ht.
Qed.

Lemma firstn_length_all {A} (l : list A) :
  firstn (Z.to_nat (Z.of_nat (length l))) l = l.
Proof. rewrite Nat2Z.id. apply firstn_all. Qed.

(** The walker on a well-formed index. *)
Lemma walk_index_file (es : list entry) :
  int_rangeb (Z.of_nat (length es)) = true ->
  forallb (storable ext) es = true ->
  walk_index ext (index_file ext 2 es)
  = walk_of (place ext 12 es) (WalkReturn false).
Proof.
  intros R Hs. unfold index_file.
  rewrite <- (app_nil_r (body ext es)).
  rewrite walk_index_records by (assumption || (simpl; lia)).
  rewrite firstn_length_all, Nat2Z.id, Nat.ltb_irrefl.
  destruct (Z.ltb_spec (Z.of_nat (length es)) 0); [lia|]. reflexivity.
Qed.

(** *** The cursor of the walker *)

Lemma walk_loop_cursors_spec (es : list entry) :
  forall (todo : nat) (h : handle) (tail : bytes),
    forallb (storable ext) es = true ->
    rest_of h = body ext es ++ tail ->
    (length tail < 25)%nat ->
    walk_loop_cursors ext (Z.of_nat (length (content h))) 2 todo h
    = record_ends ext (pos h) (firstn todo es).
Proof.
  induction es as [|e es IH]; intros todo h tail Hs Hr Ht.
  - destruct todo as [|todo]; [reflexivity|].
    cbn [walk_loop_cursors firstn record_ends].
    pose proof (rest_of_length h) as L. rewrite Hr in L. simpl in L.
    destruct (Z.ltb_spec (Z.of_nat (pos h) + 24)
                         (Z.of_nat (length (content h)))); [lia|].
    reflexivity.
  - destruct todo as [|todo]; [reflexivity|].
    cbn [forallb] in Hs. apply andb_true_iff in Hs. destruct Hs as [He Hs].
    destruct (storable_spec e He) as [V C].
    unfold body in Hr. cbn [map concat] in Hr. fold (body ext es) in Hr.
    rewrite <- app_assoc in Hr.
    pose proof (entry_bytes_length ext e V) as Le.
    pose proof (rest_of_length h) as L. rewrite Hr, length_app in L.
    cbn [walk_loop_cursors].
    destruct (Z.ltb_spec (Z.of_nat (pos h) + 24)
                         (Z.of_nat (length (content h)))); [|lia].
    unfold bind at 1. cbn [IndexVersion_of Z.eqb Pos.eqb lift ret].
    cbn [read_from entry_constructor].
    rewrite (read_extended ext e h _ V C Hr).
    cbn [firstn record_ends set_pos pos].
    f_equal.
    change (length (content h))
      with (length (content (set_pos h (pos h + length (entry_bytes ext e))))).
    rewrite (IH todo _ tail Hs (rest_of_advance _ _ _ Hr) Ht).
    reflexivity.
Qed.

(** On a well-formed index the cursor stands behind each record in turn. *)
Lemma walk_index_cursors_file (es : list entry) :
  int_rangeb (Z.of_nat (length es)) = true ->
  forallb (storable ext) es = true ->
  walk_index_cursors ext (index_file ext 2 es) = record_ends ext 12 es.
Proof.
  intros R Hs. unfold index_file, walk_index_cursors. cbv zeta.
  set (c := Z.of_nat (length es)).
  set (file := header 2 c ++ body ext es).
  assert (H0 : rest_of (mkHandle file 0 [])
               = INDEX_MAGIC_PREFIX ++ int_bytes 2 ++ int_bytes c
                 ++ body ext es).
  { unfold rest_of, file, header. cbn [pos content skipn].
    rewrite <- !app_assoc. reflexivity. }
  rewrite (parses_read 4 INDEX_MAGIC_PREFIX eq_refl _ _ H0).
  rewrite bytes_eqb_refl. cbn [negb].
  pose proof (rest_of_advance _ _ _ H0) as H1.
  rewrite (parses_read_int 2 eq_refl _ _ H1).
  cbn [INDEX_VERSION Z.gtb Z.compare Pos.compare Pos.compare_cont].
  pose proof (rest_of_advance _ _ _ H1) as H2.
  rewrite (parses_read_int c R _ (body ext es)) by exact H2.
  destruct (Z.ltb_spec c 0) as [Hneg|_]; [unfold c in Hneg; lia|].
  pose proof (rest_of_advance _ _ _ H2) as H3.
  rewrite <- (app_nil_r (body ext es)) in H3.
  match goal with
  | |- walk_loop_cursors _ _ _ _ ?h = _ =>
      change (length file) with (length (content h));
      rewrite (walk_loop_cursors_spec es (Z.to_nat c) h [] Hs H3)
        by (simpl; lia)
  end.
  unfold c. rewrite Nat2Z.id, firstn_all. reflexivity.
Qed.

End WalkProperties.
(* ------------------------------------------------------------------ *)
(** ** The header and the insertion at an offset *)

Lemma firstn_exact {A} (a b : list A) (n : nat) :
  length a = n -> firstn n (a ++ b) = a.
Proof.
  intros <-. rewrite firstn_app, firstn_all, Nat.sub_diag. simpl.
  apply app_nil_r.
Qed.

Lemma skipn_exact {A} (a b : list A) (n : nat) :
  length a = n -> skipn n (a ++ b) = b.
Proof.
  intros <-. rewrite skipn_app, skipn_all, Nat.sub_diag. reflexivity.
Qed.

Lemma seek_nat (n : nat) (h : handle) :
  seek (Z.of_nat n) h = (Ok tt, set_pos h n).
Proof.
  unfold seek. destruct (Z.ltb_spec (Z.of_nat n) 0); [lia|].
  rewrite Nat2Z.id. reflexivity.
Qed.

(** [modify_number_of_entries_in_index] rewrites the third field and
    leaves the cursor behind it. *)
Lemma modify_number_spec (modify : Z -> Z) (front count_bytes back : bytes)
  (count : Z) (p : nat) (lg : list log_event) :
  length front = 8%nat -> length count_bytes = 4%nat ->
  unpack_i count_bytes = Ok count ->
  int_rangeb (modify count) = true ->
  modify_number_of_entries_in_index modify
    (mkHandle (front ++ count_bytes ++ back) p lg)
  = (Ok tt, mkHandle (front ++ int_bytes (modify count) ++ back) 12 lg).
Proof.
  intros Lf Lc U R. unfold modify_number_of_entries_in_index.
  unfold bind at 1. change INDEX_NUMBER_OF_ENTRIES_OFFSET with (Z.of_nat 8).
  rewrite seek_nat. unfold bind at 1. unfold read_int_from_handle.
  unfold bind at 1.
  assert (Hr : rest_of (set_pos (mkHandle (front ++ count_bytes ++ back) p lg) 8)
               = count_bytes ++ back).
  { unfold rest_of. cbn [set_pos pos content]. apply skipn_exact, Lf. }
  rewrite (parses_read 4 count_bytes Lc _ _ Hr). rewrite U.
  cbn [lift ret]. unfold bind at 1. rewrite seek_nat.
  rewrite (writes_write_int _ R).
  rewrite write_inside
    by (cbn [set_pos pos content]; rewrite !length_app; lia).
  cbn [set_pos pos content log]. f_equal. f_equal.
  rewrite firstn_exact by exact Lf. f_equal. f_equal.
  rewrite int_bytes_length. rewrite app_assoc.
  apply skipn_exact. rewrite length_app. lia.
Qed.

(** [update_index_version] rewrites the second field and puts the cursor
    back. *)
Lemma update_index_version_spec (magic version_bytes back : bytes)
  (p : nat) (lg : list log_event) :
  length magic = 4%nat -> length version_bytes = 4%nat ->
  update_index_version (mkHandle (magic ++ version_bytes ++ back) p lg)
  = (Ok tt, mkHandle (magic ++ int_bytes INDEX_VERSION ++ back) p lg).
Proof.
  intros Lm Lv. unfold update_index_version.
  unfold bind at 1. unfold tell at 1. unfold bind at 1.
  change 4 with (Z.of_nat 4). rewrite seek_nat.
  unfold bind at 1.
  rewrite (writes_write_int INDEX_VERSION eq_refl).
  rewrite write_inside
    by (cbn [set_pos pos content]; rewrite !length_app; lia).
  cbn [set_pos pos content log]. rewrite seek_nat.
  cbn [set_pos pos content log].
  rewrite firstn_exact by exact Lm. rewrite int_bytes_length.
  assert (Es : skipn (4 + 4) (magic ++ version_bytes ++ back) = back).
  { rewrite app_assoc. apply skipn_exact. rewrite length_app. lia. }
  rewrite Es. reflexivity.
Qed.

Section InsertAt.

Variable ext : collaborators.

(** The second part of [write_entry_to_index] on any file with a header:
    the counter is incremented, the version becomes the current one, and
    the record is put where the offset points, between what was before and
    what was behind. *)
Lemma write_entry_at_spec (x : entry) (magic version_bytes count_bytes
  mid back : bytes) (count : Z) (p : nat) (lg : list log_event) :
  length magic = 4%nat -> length version_bytes = 4%nat ->
  length count_bytes = 4%nat ->
  unpack_i count_bytes = Ok count ->
  int_rangeb (count + 1) = true ->
  valid_entry ext x = true ->
  write_entry_at ext x (Z.of_nat (12 + length mid))
    (mkHandle (magic ++ version_bytes ++ count_bytes ++ mid ++ back) p lg)
  = (Ok tt,
     mkHandle (magic ++ int_bytes INDEX_VERSION ++ int_bytes (count + 1)
               ++ mid ++ entry_bytes ext x ++ back)
              (12 + length mid + length (entry_bytes ext x) + length back)
              lg).
Proof.
  intros Lm Lv Lc U R V. unfold write_entry_at.
  set (o := (12 + length mid)%nat).
  set (xb := entry_bytes ext x).
  unfold bind at 1.
  pose proof (modify_number_spec (fun x => x + 1) (magic ++ version_bytes)
                count_bytes (mid ++ back) count p lg) as Hm.
  rewrite <- !app_assoc in Hm.
  rewrite Hm by (rewrite ?length_app; (lia || assumption)). clear Hm.
  unfold bind at 1. rewrite seek_nat. unfold bind at 1.
  set (front := magic ++ version_bytes ++ int_bytes (count + 1) ++ mid).
  assert (Lfront : length front = o).
  { unfold front, o. rewrite !length_app, int_bytes_length. lia. }
  assert (Ec1 : magic ++ version_bytes ++ int_bytes (count + 1) ++ mid ++ back
                = front ++ back).
  { unfold front. rewrite <- !app_assoc. reflexivity. }
  rewrite Ec1.
  unfold read_all at 1. cbn [set_pos pos content log].
  rewrite (skipn_exact front back o Lfront).
  unfold bind at 1. rewrite seek_nat. cbn [set_pos pos content log].
  unfold bind at 1. rewrite (writes_entry ext x V). fold xb.
  rewrite write_inside by (cbn [set_pos pos content log]; rewrite length_app; lia).
  cbn [set_pos pos content log].
  rewrite (firstn_exact front back o Lfront).
  unfold bind at 1.
  rewrite write_inside
    by (cbn [set_pos pos content log]; rewrite !length_app, length_skipn, length_app; lia).
  cbn [set_pos pos content log].
  assert (E1 : firstn (o + length xb)
                 (front ++ xb ++ skipn (o + length xb) (front ++ back))
               = front ++ xb).
  { rewrite app_assoc. apply firstn_exact. rewrite length_app. lia. }
  assert (E2 : skipn (o + length xb + length back)
                 (front ++ xb ++ skipn (o + length xb) (front ++ back))
               = []).
  { apply skipn_all2.
    rewrite !length_app, length_skipn, length_app. lia. }
  rewrite E1, E2, app_nil_r.
  unfold front. rewrite <- !app_assoc.
  rewrite update_index_version_spec by assumption.
  reflexivity.
Qed.



End InsertAt.
(* ------------------------------------------------------------------ *)
(** ** Insertion into an index of the current format *)

Section InsertProperties.

Variable ext : collaborators.

Lemma lookup_walk_of (predicate : entry -> bool) (name : str)
  (l : list entry) (h : handle) :
  lookup_in_walk predicate name (walk_of l (WalkReturn false)) h
  = match find predicate l with
    | Some e => (Ok e, h)
    | None => (Raise (EntryNotFoundException name), h)
    end.
Proof.
  induction l as [|e l IH]; [reflexivity|].
  cbn [walk_of fold_right lookup_in_walk find].
  destruct (predicate e); [reflexivity|]. apply IH.
Qed.

Lemma body_app (a b : list entry) :
  body ext (a ++ b) = body ext a ++ body ext b.
Proof. unfold body. rewrite map_app, concat_app. reflexivity. Qed.

Lemma body_cons (e : entry) (es : list entry) :
  body ext (e :: es) = entry_bytes ext e ++ body ext es.
Proof. reflexivity. Qed.

Lemma entry_bytes_set_offset (e : entry) (o : Z) :
  entry_bytes ext (set_offset e o) = entry_bytes ext e.
Proof. reflexivity. Qed.

(** Where a consumer leaves the cursor on records that lie one behind the
    other: behind the record at which it stops, or behind the last one. *)
Lemma left_at_place (stop : entry -> bool) (flag : bool) (es : list entry) :
  forall start : nat,
    left_at stop (walk_of (place ext start es) (WalkReturn flag))
            (record_ends ext start es)
    = match find stop (place ext start es) with
      | Some e => (Z.to_nat (offset e) + length (entry_bytes ext e))%nat
      | None => (start + length (body ext es))%nat
      end.
Proof.
  induction es as [|e es IH]; intros start.
  - cbn. lia.
  - cbn [place walk_of fold_right record_ends left_at find].
    fold (walk_of (place ext (start + length (entry_bytes ext e)) es)
                  (WalkReturn flag)).
    destruct (stop (set_offset e (Z.of_nat start))).
    + rewrite entry_bytes_set_offset. cbn [offset set_offset].
      rewrite Nat2Z.id. reflexivity.
    + rewrite IH. unfold body. cbn [map concat]. rewrite length_app.
      destruct (find stop _); lia.
Qed.

(** [lookup_entry_within_index] on a well-formed index: the first record
    that satisfies the predicate; the cursor is left behind this record,
    or at the end of the file when there is none. *)
Lemma lookup_entry_within_index_file (predicate : entry -> bool)
  (name : str) (es : list entry) (h : handle) :
  int_rangeb (Z.of_nat (length es)) = true ->
  forallb (storable ext) es = true ->
  content h = index_file ext 2 es ->
  lookup_entry_within_index ext predicate name h
  = match find predicate (place ext 12 es) with
    | Some e =>
        (Ok e,
         set_pos h (Z.to_nat (offset e) + length (entry_bytes ext e)))
    | None =>
        (Raise (EntryNotFoundException name),
         set_pos h (length (index_file ext 2 es)))
    end.
Proof.
  intros R Hs Hc. unfold lookup_entry_within_index, on_walked_handle.
  rewrite Hc.
  rewrite (walk_index_file ext es R Hs), (walk_index_cursors_file ext es R Hs).
  rewrite lookup_walk_of, left_at_place.
  unfold index_file. rewrite length_app, header_length.
  destruct (find predicate (place ext 12 es)); reflexivity.
Qed.

Lemma valid_entry_set_offset (e : entry) (o : Z) :
  valid_entry ext (set_offset e o) = valid_entry ext e.
Proof. reflexivity. Qed.

(** Where the search of [write_entry_to_index] ends on the walked
    records, and what [insert_entry] does with the same records. *)
Lemma find_place (x : entry) (es : list entry) :
  forall start : nat,
    match find (insert_predicate x) (place ext start es) with
    | None => insert_entry x es = Some (es ++ [x])
    | Some found =>
        exists pre e post,
          es = pre ++ e :: post
          /\ found = set_offset e (Z.of_nat (start + length (body ext pre)))
          /\ insert_entry x es
             = if bytes_eqb (path e) (path x) && bytes_eqb (time e) (time x)
               then None
               else Some (pre ++ x :: e :: post)
    end.
Proof.
  induction es as [|e es IH]; intros start; [reflexivity|].
  cbn [place find insert_entry].
  change (insert_predicate x (set_offset e (Z.of_nat start)))
    with (insert_predicate x e).
  destruct (insert_predicate x e).
  - exists [], e, es. cbn [app body map concat length].
    rewrite Nat.add_0_r. auto.
  - specialize (IH (start + length (entry_bytes ext e))%nat).
    destruct (find (insert_predicate x) _) as [found|].
    + destruct IH as (pre & e' & post & -> & -> & E).
      exists (e :: pre), e', post. rewrite E, body_cons, length_app.
      split; [reflexivity|]. split; [f_equal; lia|].
      destruct (bytes_eqb (path e') (path x) && bytes_eqb (time e') (time x));
        reflexivity.
    + rewrite IH. reflexivity.
Qed.

Lemma index_file_shape (es : list entry) :
  index_file ext 2 es
  = INDEX_MAGIC_PREFIX ++ int_bytes 2
    ++ int_bytes (Z.of_nat (length es)) ++ body ext es.
Proof. unfold index_file, header. rewrite <- !app_assoc. reflexivity. Qed.

Lemma index_file_length (es : list entry) :
  length (index_file ext 2 es) = (12 + length (body ext es))%nat.
Proof. unfold index_file. rewrite length_app. reflexivity. Qed.

Lemma insertable_spec (x : entry) :
  insertable ext x = true ->
  valid_entry ext x = true /\ class x = ExtendedIndexEntry /\ offset x = -1.
Proof.
  unfold insertable, is_extended. rewrite !andb_true_iff, Z.eqb_eq.
  destruct (class x); intuition congruence.
Qed.

(** [write_entry_to_index] on a well-formed index, for an entry that
    carries the offset [-1]: the file afterwards is the well-formed index
    of the records with the entry inserted, or the same file and a warning
    when a record has the path and the time of the entry. *)
Lemma write_entry_to_index_file (x : entry) (es : list entry) :
  insertable ext x = true ->
  forallb (storable ext) es = true ->
  int_rangeb (Z.of_nat (length es) + 1) = true ->
  write_entry_to_index ext (index_file ext 2 es) x
  = match insert_entry x es with
    | Some es' => (Ok tt, index_file ext 2 es', [])
    | None =>
        (Ok tt, index_file ext 2 es,
         [LogWarn_already_registered (path x) (time x)])
    end.
Proof.
  intros Hx Hs R.
  destruct (insertable_spec x Hx) as (V & C & O).
  assert (Rn : int_rangeb (Z.of_nat (length es)) = true).
  { apply int_rangeb_true in R. apply int_rangeb_true. lia. }
  unfold write_entry_to_index, with_open_rb_plus, write_entry_to_index_handle.
  unfold bind at 1. unfold locate_offset_in_file. rewrite O. cbn [Z.eqb Pos.eqb].
  unfold catch_not_found. unfold bind at 1.
  rewrite (lookup_entry_within_index_file _ _ es
             (mkHandle (index_file ext 2 es) 0 []) Rn Hs eq_refl).
  pose proof (find_place x es 12) as F.
  destruct (find (insert_predicate x) (place ext 12 es)) as [found|].
  - destruct F as (pre & e & post & Ees & Efound & Eins).
    rewrite Eins. subst found.
    cbn [path time offset set_offset].
    destruct (bytes_eqb (path e) (path x) && bytes_eqb (time e) (time x)).
    + reflexivity.
    + cbn [ret]. unfold set_pos. cbn [content pos log].
      match goal with
      | |- context [mkHandle _ ?p []] =>
          pose proof (write_entry_at_spec ext x INDEX_MAGIC_PREFIX
                        (int_bytes 2) (int_bytes (Z.of_nat (length es)))
                        (body ext pre) (body ext (e :: post))
                        (Z.of_nat (length es)) p []
                        eq_refl eq_refl eq_refl (unpack_int_bytes _ Rn) R V)
            as W
      end.
      rewrite <- body_app, <- Ees, <- index_file_shape in W.
      rewrite W. cbn [content log]. f_equal. f_equal.
      rewrite index_file_shape.
      rewrite length_app. cbn [length].
      rewrite Ees, length_app. cbn [length].
      rewrite !body_app, !body_cons.
      replace (Z.of_nat (length pre + S (length post)) + 1)
        with (Z.of_nat (length pre + S (S (length post)))) by lia.
      reflexivity.
  - rewrite F. unfold bind at 1. unfold seek_end at 1.
    unfold bind at 1. unfold tell at 1. cbn [ret set_pos pos content log].
    rewrite index_file_length.
    pose proof (write_entry_at_spec ext x INDEX_MAGIC_PREFIX (int_bytes 2)
                  (int_bytes (Z.of_nat (length es))) (body ext es) []
                  (Z.of_nat (length es)) (12 + length (body ext es)) []
                  eq_refl eq_refl eq_refl (unpack_int_bytes _ Rn) R V) as W.
    rewrite app_nil_r, <- index_file_shape in W.
    unfold set_pos. cbn [content pos log].
    rewrite W. cbn [content log]. f_equal. f_equal.
    rewrite index_file_shape, length_app. cbn [length].
    rewrite body_app. cbn [body map concat]. rewrite !app_nil_r.
    replace (Z.of_nat (length es) + 1) with (Z.of_nat (length es + 1)) by lia.
    reflexivity.
Qed.

End InsertProperties.
(* ------------------------------------------------------------------ *)
(** ** The order of the records under insertion *)

Lemma key_compare_eq (a b : entry) :
  key_compare a b = Eq <-> path a = path b /\ time a = time b.
Proof.
  unfold key_compare. destruct (str_compare (path a) (path b)) eqn:E.
  - apply str_compare_eq in E. rewrite str_compare_eq. tauto.
  - split; [discriminate|]. intros [H _]. rewrite H, str_compare_refl in E.
    discriminate.
  - split; [discriminate|]. intros [H _]. rewrite H, str_compare_refl in E.
    discriminate.
Qed.

Lemma key_compare_same_right (a b c : entry) :
  path b = path c -> time b = time c -> key_compare a b = key_compare a c.
Proof. unfold key_compare. intros -> ->. reflexivity. Qed.

Lemma key_lt_irrefl (a : entry) : ~ key_lt a a.
Proof.
  unfold key_lt. assert (E : key_compare a a = Eq) by (apply key_compare_eq; auto).
  congruence.
Qed.

Lemma key_lt_gt (a b : entry) : key_lt a b <-> key_compare b a = Gt.
Proof.
  unfold key_lt. rewrite (key_compare_antisym a b).
  destruct (key_compare a b); simpl; split; congruence.
Qed.

Lemma insert_predicate_false (x e : entry) :
  insert_predicate x e = false -> key_lt e x.
Proof.
  intros H. apply key_lt_gt.
  destruct (key_compare x e) eqn:E; [| |reflexivity];
    assert (T : insert_predicate x e = true)
      by (apply insert_predicate_spec; congruence);
    congruence.
Qed.

Lemma insert_predicate_strict (x e : entry) :
  insert_predicate x e = true ->
  bytes_eqb (path e) (path x) && bytes_eqb (time e) (time x) = false ->
  key_lt x e.
Proof.
  intros H N. apply insert_predicate_spec in H. unfold key_lt.
  destruct (key_compare x e) eqn:E; [|reflexivity|congruence].
  apply same_key_spec in E. congruence.
Qed.

Lemma insert_entry_in (x : entry) (es es' : list entry) :
  insert_entry x es = Some es' ->
  forall y, In y es' <-> y = x \/ In y es.
Proof.
  revert es'. induction es as [|e es IH]; intros es' H y.
  - injection H as <-. simpl. intuition congruence.
  - cbn [insert_entry] in H. destruct (insert_predicate x e).
    + destruct (bytes_eqb (path e) (path x) && bytes_eqb (time e) (time x));
        [discriminate|].
      injection H as <-. simpl. intuition congruence.
    + destruct (insert_entry x es) as [es''|]; [|discriminate].
      injection H as <-. simpl. rewrite (IH es'' eq_refl y). tauto.
Qed.

Lemma insert_entry_length (x : entry) (es es' : list entry) :
  insert_entry x es = Some es' -> length es' = S (length es).
Proof.
  revert es'. induction es as [|e es IH]; intros es' H.
  - injection H as <-. reflexivity.
  - cbn [insert_entry] in H. destruct (insert_predicate x e).
    + destruct (bytes_eqb (path e) (path x) && bytes_eqb (time e) (time x));
        [discriminate|].
      injection H as <-. reflexivity.
    + destruct (insert_entry x es) as [es''|]; [|discriminate].
      injection H as <-. simpl. rewrite (IH es'' eq_refl). reflexivity.
Qed.

(** Insertion keeps the records strictly ascending. *)
Lemma insert_entry_sorted (x : entry) (es es' : list entry) :
  StronglySorted key_lt es ->
  insert_entry x es = Some es' ->
  StronglySorted key_lt es'.
Proof.
  revert es'. induction es as [|e es IH]; intros es' S H.
  - injection H as <-. repeat constructor.
  - apply StronglySorted_inv in S. destruct S as [S F].
    cbn [insert_entry] in H. destruct (insert_predicate x e) eqn:P.
    + destruct (bytes_eqb (path e) (path x) && bytes_eqb (time e) (time x))
        eqn:Q; [discriminate|].
      injection H as <-.
      pose proof (insert_predicate_strict x e P Q) as L.
      constructor; [constructor; assumption|].
      constructor; [exact L|].
      rewrite Forall_forall in F |- *. intros y Hy.
      eapply key_lt_trans; eauto.
    + destruct (insert_entry x es) as [es''|] eqn:I; [|discriminate].
      injection H as <-.
      constructor; [apply IH; auto|].
      rewrite Forall_forall in F |- *. intros y Hy.
      apply (insert_entry_in x es es'' I) in Hy. destruct Hy as [->|Hy].
      * apply insert_predicate_false, P.
      * apply F, Hy.
Qed.

(** In ascending records, an entry whose path and time a record has is
    not inserted. *)
Lemma insert_entry_duplicate (x e : entry) (es : list entry) :
  StronglySorted key_lt es ->
  In e es -> path e = path x -> time e = time x ->
  insert_entry x es = None.
Proof.
  intros S Hin Hp Ht.
  assert (Exe : key_compare x e = Eq) by (apply key_compare_eq; auto).
  induction es as [|e0 es IH]; [contradiction|].
  apply StronglySorted_inv in S. destruct S as [S F].
  cbn [insert_entry]. destruct (insert_predicate x e0) eqn:P.
  - destruct (bytes_eqb (path e0) (path x) && bytes_eqb (time e0) (time x))
      eqn:Q; [reflexivity|].
    exfalso. pose proof (insert_predicate_strict x e0 P Q) as L.
    destruct Hin as [->|Hin].
    + unfold key_lt in L. congruence.
    + rewrite Forall_forall in F. specialize (F e Hin).
      unfold key_lt in L, F.
      rewrite (key_compare_same_right e0 e x Hp Ht) in F.
      apply key_lt_gt in F. congruence.
  - destruct Hin as [->|Hin].
    + apply insert_predicate_false in P. apply key_lt_gt in P. congruence.
    + rewrite (IH S Hin). reflexivity.
Qed.

Section OrderProperties.

Variable ext : collaborators.

Lemma insert_entry_storable (x : entry) (es es' : list entry) :
  storable ext x = true ->
  forallb (storable ext) es = true ->
  insert_entry x es = Some es' ->
  forallb (storable ext) es' = true.
Proof.
  intros Hx Hs I. rewrite forallb_forall in Hs |- *. intros y Hy.
  apply (insert_entry_in x es es' I) in Hy. destruct Hy as [->|Hy]; auto.
Qed.

Lemma insertable_storable (x : entry) :
  insertable ext x = true -> storable ext x = true.
Proof.
  unfold insertable, storable. rewrite !andb_true_iff. tauto.
Qed.

Lemma place_in (es : list entry) :
  forall (start : nat) (y : entry),
    In y (place ext start es) ->
    exists e, In e es /\ path y = path e /\ time y = time e
              /\ checksum y = checksum e.
Proof.
  induction es as [|e es IH]; intros start y H; [contradiction|].
  cbn [place] in H. destruct H as [<-|H].
  - exists e. simpl. auto.
  - destruct (IH _ _ H) as (e' & Hin & Hk). exists e'. simpl. auto.
Qed.



End OrderProperties.
(* ------------------------------------------------------------------ *)
(** ** Removal from an index of the current format *)

Lemma format_version_of_header (v c : Z) (b : bytes) :
  int_rangeb v = true -> format_version_of (header v c ++ b) = Ok v.
Proof.
  intros R. unfold format_version_of. unfold bind at 1.
  change 4 with (Z.of_nat 4). rewrite seek_nat.
  rewrite (parses_read_int v R _ (int_bytes c ++ b)); [reflexivity|].
  unfold rest_of, header. cbn [set_pos pos content].
  rewrite <- !app_assoc. apply skipn_exact. reflexivity.
Qed.

Lemma entry_count_of_header (v c : Z) (b : bytes) :
  int_rangeb c = true -> entry_count_of (header v c ++ b) = Ok c.
Proof.
  intros R. unfold entry_count_of. unfold bind at 1.
  change INDEX_NUMBER_OF_ENTRIES_OFFSET with (Z.of_nat 8). rewrite seek_nat.
  rewrite (parses_read_int c R _ b); [reflexivity|].
  unfold rest_of, header. cbn [set_pos pos content].
  rewrite <- !app_assoc. rewrite app_assoc. apply skipn_exact. reflexivity.
Qed.

Section RemoveProperties.

Variable ext : collaborators.

Lemma list_of_walk_walk_of (l : list entry) (h : handle) :
  list_of_walk (walk_of l (WalkReturn false)) h = (Ok l, h).
Proof.
  induction l as [|e l IH]; [reflexivity|].
  cbn [walk_of fold_right list_of_walk]. unfold bind at 1.
  fold (walk_of l (WalkReturn false)). rewrite IH. reflexivity.
Qed.

(** [list(walk_index(handle))] on a well-formed index: the records with
    their offsets; the cursor is left at the end of the file. *)
Lemma walk_index_list_file (es : list entry) (h : handle) :
  int_rangeb (Z.of_nat (length es)) = true ->
  forallb (storable ext) es = true ->
  content h = index_file ext 2 es ->
  walk_index_list ext h
  = (Ok (place ext 12 es), set_pos h (length (index_file ext 2 es))).
Proof.
  intros R Hs Hc. unfold walk_index_list, on_walked_handle. rewrite Hc.
  rewrite (walk_index_file ext es R Hs), (walk_index_cursors_file ext es R Hs).
  rewrite list_of_walk_walk_of, (left_at_place ext).
  assert (F : find (fun _ : entry => false) (place ext 12 es) = None).
  { generalize (place ext 12 es). intros l. induction l; auto. }
  rewrite F. unfold index_file. rewrite length_app, header_length.
  reflexivity.
Qed.

(** The walked entries lie at ascending offsets: sorting them by the
    offset changes nothing. *)
Lemma sort_by_offset_place (es : list entry) :
  forall start : nat,
    forallb (storable ext) es = true ->
    sort_by_offset (place ext start es) = place ext start es.
Proof.
  induction es as [|e es IH]; intros start Hs; [reflexivity|].
  cbn [forallb] in Hs. apply andb_true_iff in Hs. destruct Hs as [He Hs].
  destruct (storable_spec ext e He) as [V _].
  pose proof (entry_bytes_length ext e V) as L.
  cbn [place]. unfold sort_by_offset. cbn [fold_right].
  fold (sort_by_offset (place ext (start + length (entry_bytes ext e)) es)).
  rewrite (IH _ Hs).
  destruct es as [|e' es]; [reflexivity|].
  cbn [place insert_by_offset offset set_offset].
  destruct (Z.ltb_spec (Z.of_nat start)
              (Z.of_nat (start + length (entry_bytes ext e)))); [|lia].
  reflexivity.
Qed.

Lemma first_matches_length (keys : list str) (walked : list entry) :
  (length (first_matches ext keys walked) <= length keys)%nat.
Proof.
  induction keys as [|k keys IH]; simpl; [lia|].
  destruct (find (lookup_function ext k) walked); simpl; lia.
Qed.

Lemma first_matches_in (keys : list str) (walked : list entry) (e : entry) :
  In e (first_matches ext keys walked) <->
  exists k, In k keys /\ find (lookup_function ext k) walked = Some e.
Proof.
  induction keys as [|k keys IH]; simpl.
  - split; [contradiction|]. intros (k & [] & _).
  - destruct (find (lookup_function ext k) walked) as [f|] eqn:F.
    + simpl. rewrite IH. split.
      * intros [<-|(k' & Hin & Hf)]; eauto.
      * intros (k' & [<-|Hin] & Hf); [left; congruence|right; eauto].
    + rewrite IH. split.
      * intros (k' & Hin & Hf). eauto.
      * intros (k' & [<-|Hin] & Hf); [congruence|eauto].
Qed.

(** The loop over the removed files on a well-formed index: it collects
    the first match of every key and leaves the file as it is. *)
Lemma remove_lookup_loop_file (es : list entry) (keys : list str) :
  int_rangeb (Z.of_nat (length es)) = true ->
  forallb (storable ext) es = true ->
  forall (acc : list entry) (n : Z) (p : nat) (lg : list log_event),
  exists n' lg' p',
    remove_lookup_loop ext keys acc n (mkHandle (index_file ext 2 es) p lg)
    = (Ok (acc ++ first_matches ext keys (place ext 12 es), n'),
       mkHandle (index_file ext 2 es) p' lg').
Proof.
  intros R Hs. induction keys as [|k keys IH]; intros acc n p lg.
  - exists n, lg, p. cbn [remove_lookup_loop first_matches].
    rewrite app_nil_r. reflexivity.
  - cbn [remove_lookup_loop first_matches]. unfold bind at 1.
    unfold catch_not_found. unfold bind at 1.
    rewrite (lookup_entry_within_index_file ext _ _ es
               (mkHandle (index_file ext 2 es) p lg) R Hs eq_refl).
    destruct (find (lookup_function ext k) (place ext 12 es)) as [f|].
    + unfold bind at 1. unfold perun_log at 1.
      unfold set_pos. cbn [ret fst snd pos content log].
      match goal with
      | |- context [mkHandle _ ?q (lg ++ _)] =>
          destruct (IH (acc ++ [f]) n q
                      (lg ++ [LogMinorSuccess_deregistered (path f)]))
            as (n' & lg' & p' & E)
      end.
      exists n', lg', p'. rewrite E, <- app_assoc. reflexivity.
    + unfold bind at 1. unfold perun_log at 1.
      unfold set_pos. cbn [ret fst snd pos content log].
      match goal with
      | |- context [mkHandle _ ?q (lg ++ _)] =>
          destruct (IH acc (n - 1) q (lg ++ [LogMinorFail_not_found k]))
            as (n' & lg' & p' & E)
      end.
      exists n', lg', p'. rewrite E. reflexivity.
Qed.

Lemma writes_kept (l removed : list entry) :
  forallb (valid_entry ext) l = true ->
  writes (write_kept ext l removed) (body ext (filter (kept removed) l)).
Proof.
  induction l as [|e l IH]; intros H.
  - apply writes_ret.
  - cbn [forallb] in H. apply andb_true_iff in H. destruct H as [He Hl].
    cbn [write_kept filter]. unfold kept at 1.
    destruct (entry_in e removed); cbn [negb].
    + change (body ext (filter (kept removed) l))
        with ([] ++ body ext (filter (kept removed) l)).
      apply writes_bind; [apply writes_ret|apply IH, Hl].
    + rewrite body_cons.
      apply writes_bind; [apply writes_entry, He|apply IH, Hl].
Qed.

Lemma place_valid (es : list entry) :
  forall start : nat,
    forallb (storable ext) es = true ->
    forallb (valid_entry ext) (place ext start es) = true.
Proof.
  induction es as [|e es IH]; intros start Hs; [reflexivity|].
  cbn [forallb] in Hs. apply andb_true_iff in Hs. destruct Hs as [He Hs].
  cbn [place forallb]. rewrite valid_entry_set_offset.
  destruct (storable_spec ext e He) as [-> _]. apply IH, Hs.
Qed.

(** [remove_from_index] on a well-formed index: the call returns; the
    header counts the records that were there less the keys that matched,
    and the body holds the records that are not the first match of a
    key. *)
Lemma remove_from_index_file (es : list entry) (keys : list str) :
  keys <> [] ->
  forallb (storable ext) es = true ->
  int_rangeb (Z.of_nat (length es)) = true ->
  int_rangeb (Z.of_nat (length keys)) = true ->
  exists lg,
    remove_from_index ext (index_file ext 2 es) keys
    = (Ok tt,
       header 2 (Z.of_nat (length es)
                 - Z.of_nat (length (first_matches ext keys
                                       (place ext 12 es))))
       ++ body ext (filter (kept (first_matches ext keys (place ext 12 es)))
                           (place ext 12 es)),
       lg).
Proof.
  intros Hk Hs Re Rk.
  set (walked := place ext 12 es).
  set (removed := first_matches ext keys walked).
  unfold remove_from_index.
  destruct (Z.eqb_spec (Z.of_nat (length keys)) 0) as [E|_].
  { destruct keys; [congruence|discriminate]. }
  unfold with_open_rb_plus. unfold bind at 1. unfold perun_log at 1.
  cbn [content pos log app].
  unfold remove_from_index_handle. unfold bind at 1.
  rewrite (walk_index_list_file es
             (mkHandle (index_file ext 2 es) 0
                       [LogMajorInfo (lit "Removing from index")])
             Re Hs eq_refl).
  rewrite (sort_by_offset_place es 12 Hs). fold walked.
  unfold bind at 1. unfold set_pos. cbn [content pos log].
  destruct (remove_lookup_loop_file es keys Re Hs [] (Z.of_nat (length keys))
              (length (index_file ext 2 es))
              [LogMajorInfo (lit "Removing from index")])
    as (n' & lg' & p' & El).
  rewrite El. fold walked. fold removed. cbn [fst snd app].
  unfold bind at 1. change INDEX_NUMBER_OF_ENTRIES_OFFSET with (Z.of_nat 8).
  rewrite seek_nat. unfold bind at 1.
  assert (Rc : int_rangeb (Z.of_nat (length walked)
                           - Z.of_nat (length removed)) = true).
  { pose proof (first_matches_length keys walked) as Lr. fold removed in Lr.
    unfold walked. rewrite place_length.
    apply int_rangeb_true in Re, Rk. apply int_rangeb_true. lia. }
  rewrite (writes_write_int _ Rc).
  rewrite write_inside
    by (cbn [set_pos pos content]; rewrite index_file_length; lia).
  cbn [set_pos pos content log]. unfold bind at 1.
  rewrite (writes_kept walked removed (place_valid es 12 Hs)).
  set (bk := body ext (filter (kept removed) walked)).
  rewrite index_file_shape.
  assert (E8 : firstn 8 (INDEX_MAGIC_PREFIX ++ int_bytes 2
                         ++ int_bytes (Z.of_nat (length es)) ++ body ext es)
               = INDEX_MAGIC_PREFIX ++ int_bytes 2).
  { rewrite app_assoc. apply firstn_exact. reflexivity. }
  assert (E12 : skipn (8 + length (int_bytes (Z.of_nat (length walked)
                                              - Z.of_nat (length removed))))
                  (INDEX_MAGIC_PREFIX ++ int_bytes 2
                   ++ int_bytes (Z.of_nat (length es)) ++ body ext es)
                = body ext es).
  { rewrite int_bytes_length.
    rewrite (app_assoc INDEX_MAGIC_PREFIX), (app_assoc (_ ++ _)).
    apply skipn_exact. reflexivity. }
  rewrite E8, E12. rewrite int_bytes_length.
  set (hd := (INDEX_MAGIC_PREFIX ++ int_bytes 2)
             ++ int_bytes (Z.of_nat (length walked)
                           - Z.of_nat (length removed))).
  assert (Lhd : length hd = 12%nat) by reflexivity.
  rewrite (app_assoc (INDEX_MAGIC_PREFIX ++ int_bytes 2)). fold hd.
  rewrite write_inside by (cbn [pos content]; rewrite length_app; lia).
  cbn [pos content log].
  rewrite (firstn_exact hd (body ext es) (8 + 4) Lhd).
  unfold bind at 1. unfold truncate at 1. cbn [set_content pos content log].
  unfold ret.
  assert (Et : firstn (8 + 4 + length bk)
                 (hd ++ bk ++ skipn (8 + 4 + length bk) (hd ++ body ext es))
               = hd ++ bk).
  { rewrite app_assoc. apply firstn_exact. rewrite length_app. lia. }
  rewrite Et.
  replace (8 + 4 + length bk
           - length (hd ++ bk ++ skipn (8 + 4 + length bk)
                                       (hd ++ body ext es)))%nat
    with 0%nat by (rewrite !length_app; lia).
  cbn [repeat]. rewrite app_nil_r.
  eexists. f_equal. f_equal.
  unfold hd, header, walked. rewrite place_length, <- !app_assoc.
  reflexivity.
Qed.

End RemoveProperties.
(* ================================================================== *)
(** * The properties of the index *)

Section Claims.

Variable ext : collaborators.

Lemma set_offset_same (e : entry) : set_offset e (offset e) = e.
Proof. destruct e; reflexivity. Qed.

Lemma rest_of_written (bs : bytes) (h : handle) :
  bs <> [] ->
  rest_of (set_pos (snd (write bs h)) (pos h))
  = bs ++ skipn (pos h + length bs) (content h).
Proof.
  intros Hne. rewrite write_nonempty by exact Hne.
  unfold rest_of. cbn [snd set_pos pos content].
  rewrite app_assoc. apply skipn_exact, firstn_pad_length.
Qed.

(** C3, as amended.  For every valid entry of either generation, decoding
    the bytes that encoding wrote gives an entry that has every stored
    field of the entry and, as its offset, the position at which it was
    decoded; it is the entry itself when the entry carries that position as
    its offset. *)
Theorem codec_roundtrip (e : entry) (h : handle) :
  valid_entry ext e = true ->
  fst (decode_encoded ext e h) = Ok (set_offset e (Z.of_nat (pos h)))
  /\ (offset e = Z.of_nat (pos h) -> fst (decode_encoded ext e h) = Ok e).
Proof.
  intros V.
  assert (E : fst (decode_encoded ext e h)
              = Ok (set_offset e (Z.of_nat (pos h)))).
  { unfold decode_encoded. unfold bind at 1. unfold tell at 1.
    unfold bind at 1. rewrite (writes_entry ext e V).
    pose proof (entry_bytes_length ext e V) as L.
    assert (Hne : entry_bytes ext e <> []).
    { intros N. rewrite N in L. simpl in L. lia. }
    pose proof (rest_of_written _ h Hne) as Hr.
    rewrite (write_nonempty _ h Hne) in Hr |- *. cbn [snd] in Hr.
    unfold bind at 1. rewrite seek_nat.
    pose proof (valid_entry_common ext e V) as Vc.
    destruct (class e) eqn:C; cbn [read_from generation].
    - unfold entry_bytes in Hr |- *. rewrite C in Hr |- *.
      rewrite (read_basic ext e _ _ Vc Hr). cbn [fst set_pos pos].
      rewrite (valid_entry_basic ext e V C) at 4. reflexivity.
    - rewrite (read_extended ext e _ _ V C Hr). reflexivity. }
  split; [exact E|].
  intros O. rewrite E, <- O, set_offset_same. reflexivity.
Qed.

(** C7, as amended.  A file with the magic prefix whose version is above
    the current one makes [walk_index] raise before it yields an entry; the
    exception is a [MalformedIndexFileException], of the class of the
    exception for a wrong magic prefix, with a message of its own. *)
Theorem walk_index_newer_version (v : Z) (back : bytes) :
  int_rangeb v = true -> v > INDEX_VERSION ->
  walk_index ext (INDEX_MAGIC_PREFIX ++ int_bytes v ++ back)
  = WalkRaise (MalformedIndexFileException
                 (DifferentIndexVersion v INDEX_VERSION))
  /\ yielded (walk_index ext (INDEX_MAGIC_PREFIX ++ int_bytes v ++ back)) = []
  /\ same_class
       (MalformedIndexFileException (DifferentIndexVersion v INDEX_VERSION))
       (MalformedIndexFileException NotAnIndexFile) = true
  /\ DifferentIndexVersion v INDEX_VERSION <> NotAnIndexFile.
Proof.
  intros R G.
  assert (E : walk_index ext (INDEX_MAGIC_PREFIX ++ int_bytes v ++ back)
              = WalkRaise (MalformedIndexFileException
                             (DifferentIndexVersion v INDEX_VERSION))).
  { unfold walk_index. cbv zeta.
    set (file := INDEX_MAGIC_PREFIX ++ int_bytes v ++ back).
    assert (H0 : rest_of (mkHandle file 0 [])
                 = INDEX_MAGIC_PREFIX ++ int_bytes v ++ back) by reflexivity.
    rewrite (parses_read 4 INDEX_MAGIC_PREFIX eq_refl _ _ H0).
    rewrite bytes_eqb_refl. cbn [negb].
    rewrite (parses_read_int v R _ _ (rest_of_advance _ _ _ H0)).
    destruct (Z.gtb_spec v INDEX_VERSION); [reflexivity|lia]. }
  rewrite E. repeat split. discriminate.
Qed.

(** C8, as amended.  On a file of the current version with [n] records,
    followed by fewer bytes than the walker asks for before it reads a
    record, [walk_index] never raises: it yields the first [min(c, n)]
    records, where [c] is the number in the header, and it logs the
    mismatch exactly when the header counts more records than there are
    (or a negative number); when the header counts fewer, nothing is
    logged. *)
Theorem walk_index_count_mismatch (c : Z) (es : list entry) (tail : bytes) :
  int_rangeb c = true ->
  forallb (storable ext) es = true ->
  (length tail < 25)%nat ->
  yielded (walk_index ext (header 2 c ++ body ext es ++ tail))
  = place ext 12 (firstn (Z.to_nat c) es)
  /\ walk_end (walk_index ext (header 2 c ++ body ext es ++ tail))
     = Ok ((c <? 0) || (Z.of_nat (length es) <? c)).
Proof.
  intros R Hs Ht. rewrite (walk_index_records ext c es tail R Hs Ht).
  rewrite yielded_walk_of, walk_end_walk_of. split; [reflexivity|].
  cbn [walk_end]. f_equal.
  destruct (Z.ltb_spec c 0); [reflexivity|]. cbn [orb].
  destruct (Nat.ltb_spec (length es) (Z.to_nat c));
    destruct (Z.ltb_spec (Z.of_nat (length es)) c); (reflexivity || lia).
Qed.


End Claims.


Section MutatorClaims.

Variable ext : collaborators.

Lemma fresh_index_file : touch_index None = index_file ext 2 [].
Proof. reflexivity. Qed.


(** C5, as amended.  On a well-formed index of the current version whose
    records are ascending and one of which has the path and the time of
    the entry, [write_entry_to_index] with a valid entry that carries the
    offset [-1] returns, leaves every byte of the file as it was and logs
    the warning that the entry is registered already. *)
Theorem duplicate_insert_is_noop (x e : entry) (es : list entry) :
  insertable ext x = true ->
  forallb (storable ext) es = true ->
  int_rangeb (Z.of_nat (length es) + 1) = true ->
  StronglySorted key_lt es ->
  In e es -> path e = path x -> time e = time x ->
  write_entry_to_index ext (index_file ext 2 es) x
  = (Ok tt, index_file ext 2 es,
     [LogWarn_already_registered (path x) (time x)]).
Proof.
  intros Hx Hs R S Hin Hp Ht.
  rewrite (write_entry_to_index_file ext x es Hx Hs R).
  rewrite (insert_entry_duplicate x e es S Hin Hp Ht). reflexivity.
Qed.

(** *** Removal *)

Lemma find_existsb (predicate : entry -> bool) (l : list entry) :
  existsb predicate l = match find predicate l with
                        | Some _ => true
                        | None => false
                        end.
Proof.
  induction l as [|e l IH]; [reflexivity|]. simpl.
  destruct (predicate e); [reflexivity|exact IH].
Qed.

Lemma first_matches_matched (keys : list str) (walked : list entry) :
  length (first_matches ext keys walked)
  = length (matched_keys ext keys walked).
Proof.
  unfold matched_keys. induction keys as [|k keys IH]; [reflexivity|].
  cbn [first_matches filter]. rewrite find_existsb.
  destruct (find (lookup_function ext k) walked); simpl; congruence.
Qed.

Lemma entry_eqb_eq (a b : entry) :
  class a = class b -> (entry_eqb a b = true <-> a = b).
Proof.
  intros C. unfold entry_eqb.
  rewrite !andb_true_iff, !bytes_eqb_true, str_list_eqb_true, Z.eqb_eq.
  destruct a, b; cbn in *. split.
  - intros ((((((((-> & ->) & ->) & ->) & ->) & ->) & ->) & ->) & ->).
    subst. reflexivity.
  - intros H. injection H as -> -> -> -> -> -> -> -> -> ->. tauto.
Qed.

Lemma place_class (es : list entry) :
  forall (start : nat) (y : entry),
    forallb (storable ext) es = true ->
    In y (place ext start es) -> class y = ExtendedIndexEntry.
Proof.
  induction es as [|e es IH]; intros start y Hs H; [contradiction|].
  cbn [forallb] in Hs. apply andb_true_iff in Hs. destruct Hs as [He Hs].
  cbn [place] in H. destruct H as [<-|H].
  - apply (storable_spec ext e He).
  - apply (IH _ _ Hs H).
Qed.

Lemma first_matches_walked (keys : list str) (walked : list entry)
  (r : entry) :
  In r (first_matches ext keys walked) -> In r walked.
Proof.
  intros H. apply first_matches_in in H. destruct H as (k & _ & F).
  apply find_some in F. tauto.
Qed.

Lemma entry_in_walked (es : list entry) (keys : list str) (s : entry) :
  forallb (storable ext) es = true ->
  In s (place ext 12 es) ->
  (entry_in s (first_matches ext keys (place ext 12 es)) = true
   <-> In s (first_matches ext keys (place ext 12 es))).
Proof.
  intros Hs Hin. unfold entry_in. rewrite existsb_exists. split.
  - intros (r & Hr & E).
    apply entry_eqb_eq in E; [subst; exact Hr|].
    rewrite (place_class es 12 s Hs Hin).
    symmetry. apply (place_class es 12 r Hs).
    eapply first_matches_walked; eauto.
  - intros H. exists s. split; [exact H|]. apply entry_eqb_eq; reflexivity.
Qed.

(** C2, as amended.  After [remove_from_index] on a well-formed index of
    the current version with a non-empty collection of keys, the number of
    entries in the header has decreased by exactly the number of keys that
    matched a record, and the records that survive are those that are not
    the first record matching a key (by the checksum when the key looks
    like a checksum, by the path otherwise).  Hence no surviving record
    matches a key when no key matches two records; where several records
    match a key, only the first of them is removed. *)
Theorem remove_removes_first_matches (es : list entry) (keys : list str) :
  keys <> [] ->
  forallb (storable ext) es = true ->
  int_rangeb (Z.of_nat (length es)) = true ->
  int_rangeb (Z.of_nat (length keys)) = true ->
  exists survivors file' lg,
    remove_from_index ext (index_file ext 2 es) keys = (Ok tt, file', lg)
    /\ file' = header 2 (Z.of_nat (length es)
                         - Z.of_nat (length (matched_keys ext keys
                                               (place ext 12 es))))
               ++ body ext survivors
    /\ entry_count_of (index_file ext 2 es) = Ok (Z.of_nat (length es))
    /\ entry_count_of file'
       = Ok (Z.of_nat (length es)
             - Z.of_nat (length (matched_keys ext keys (place ext 12 es))))
    /\ (forall s,
          In s survivors <->
          In s (place ext 12 es)
          /\ forall k, In k keys ->
                       find (lookup_function ext k) (place ext 12 es)
                       <> Some s)
    /\ ((forall k a b,
           In k keys -> In a (place ext 12 es) -> In b (place ext 12 es) ->
           lookup_function ext k a = true ->
           lookup_function ext k b = true -> a = b) ->
        forall s k, In s survivors -> In k keys ->
                    lookup_function ext k s = false).
Proof.
  intros Hk Hs Re Rk.
  set (walked := place ext 12 es).
  set (removed := first_matches ext keys walked).
  destruct (remove_from_index_file ext es keys Hk Hs Re Rk) as (lg & E).
  fold walked in E. fold removed in E.
  assert (Lr : length removed = length (matched_keys ext keys walked))
    by apply first_matches_matched.
  assert (Rc : int_rangeb (Z.of_nat (length es)
                           - Z.of_nat (length (matched_keys ext keys walked)))
               = true).
  { rewrite <- Lr. pose proof (first_matches_length ext keys walked) as L.
    fold removed in L.
    apply int_rangeb_true in Re, Rk. apply int_rangeb_true. lia. }
  assert (Surv : forall s,
             In s (filter (kept removed) walked) <->
             In s walked
             /\ forall k, In k keys ->
                          find (lookup_function ext k) walked <> Some s).
  { intros s. rewrite filter_In. unfold kept. split.
    - intros [Hin N]. split; [exact Hin|]. intros k Hkin F.
      assert (T : entry_in s removed = true).
      { apply (entry_in_walked es keys s Hs Hin).
        apply first_matches_in. eauto. }
      rewrite T in N. discriminate.
    - intros [Hin N]. split; [exact Hin|].
      destruct (entry_in s removed) eqn:T; [|reflexivity].
      apply (entry_in_walked es keys s Hs Hin) in T.
      apply first_matches_in in T. destruct T as (k & Hkin & F).
      exfalso. exact (N k Hkin F). }
  eexists (filter (kept removed) walked), _, lg.
  split; [exact E|]. rewrite Lr.
  split; [reflexivity|].
  split; [apply entry_count_of_header, Re|].
  split; [apply entry_count_of_header, Rc|].
  split; [exact Surv|].
  intros U s k Hsin Hkin.
  apply Surv in Hsin. destruct Hsin as [Hin N].
  destruct (lookup_function ext k s) eqn:Ms; [|reflexivity].
  exfalso. destruct (find (lookup_function ext k) walked) as [f|] eqn:F.
  - pose proof (find_some _ _ F) as [Hf Mf].
    assert (f = s) by (apply (U k f s); assumption). subst f.
    exact (N k Hkin F).
  - pose proof (find_none _ _ F s Hin). congruence.
Qed.

(** *** The number of entries in the header after an insertion and after a
    full rewrite *)

(** What [write_list_of_entries] leaves: the well-formed index of the
    entries. *)
Lemma write_list_of_entries_file (es : list entry) :
  forallb (storable ext) es = true ->
  int_rangeb (Z.of_nat (length es)) = true ->
  write_list_of_entries ext es = (Ok tt, index_file ext 2 es, []).
Proof.
  intros Hs R.
  assert (W : writes (write_entries ext es) (body ext es)).
  { clear R. induction es as [|e es IH]; [apply writes_ret|].
    cbn [forallb] in Hs. apply andb_true_iff in Hs. destruct Hs as [He Hs].
    cbn [write_entries]. rewrite body_cons.
    apply writes_bind; [apply writes_entry, (storable_spec ext e He)|].
    apply IH, Hs. }
  unfold write_list_of_entries, with_open_wb, write_list_of_entries_handle.
  unfold bind at 1. unfold truncate0 at 1. unfold bind at 1.
  change (set_content (mkHandle [] 0 []) []) with (mkHandle [] 0 []).
  assert (I : initialize_index_in_handle (mkHandle [] 0 [])
              = (Ok tt, mkHandle (header 2 0) 12 [])) by reflexivity.
  rewrite I. unfold bind at 1.
  pose proof (modify_number_spec (fun _ => Z.of_nat (length es))
                (INDEX_MAGIC_PREFIX ++ int_bytes 2) (int_bytes 0) [] 0 12 []
                eq_refl eq_refl eq_refl R) as Hm.
  change (INDEX_MAGIC_PREFIX ++ int_bytes 2 ++ int_bytes 0)
    with (header 2 0) in Hm.
  change ((INDEX_MAGIC_PREFIX ++ int_bytes 2) ++ int_bytes 0 ++ [])
    with (header 2 0) in Hm.
  rewrite Hm. unfold bind at 1.
  change INDEX_ENTRIES_START_OFFSET with (Z.of_nat 12). rewrite seek_nat.
  rewrite W. rewrite write_inside by (cbn [set_pos pos content]; simpl; lia).
  cbn [set_pos pos content log].
  replace ((INDEX_MAGIC_PREFIX ++ int_bytes 2)
           ++ int_bytes (Z.of_nat (length es)) ++ [])
    with (header 2 (Z.of_nat (length es)))
    by (unfold header; rewrite app_nil_r, <- app_assoc; reflexivity).
  rewrite firstn_all2 by (rewrite header_length; lia).
  rewrite skipn_all2 by (rewrite header_length; lia).
  rewrite app_nil_r. reflexivity.
Qed.

(** On a well-formed index, the number in the header is the number of
    records that the walker yields. *)
Lemma index_file_count (es : list entry) :
  forallb (storable ext) es = true ->
  int_rangeb (Z.of_nat (length es)) = true ->
  entry_count_of (index_file ext 2 es)
  = Ok (Z.of_nat (length (yielded (walk_index ext (index_file ext 2 es))))).
Proof.
  intros Hs R. rewrite (walk_index_file ext es R Hs), yielded_walk_of.
  rewrite place_length. apply entry_count_of_header, R.
Qed.

(** An insertion of an entry with the offset [-1] and a full rewrite keep
    the number in the header equal to the number of records. *)
Lemma insert_keeps_entry_count (x : entry) (es : list entry) :
  insertable ext x = true ->
  forallb (storable ext) es = true ->
  int_rangeb (Z.of_nat (length es) + 1) = true ->
  exists file' lg,
    write_entry_to_index ext (index_file ext 2 es) x = (Ok tt, file', lg)
    /\ entry_count_of file'
       = Ok (Z.of_nat (length (yielded (walk_index ext file')))).
Proof.
  intros Hx Hs R.
  rewrite (write_entry_to_index_file ext x es Hx Hs R).
  apply int_rangeb_true in R.
  destruct (insert_entry x es) as [es'|] eqn:I.
  - exists (index_file ext 2 es'), []. split; [reflexivity|].
    pose proof (insert_entry_length x es es' I) as L.
    apply index_file_count.
    + apply (insert_entry_storable ext x es es'
               (insertable_storable ext x Hx) Hs I).
    + apply int_rangeb_true. lia.
  - eexists _, _. split; [reflexivity|].
    apply index_file_count; [exact Hs|apply int_rangeb_true; lia].
Qed.

Lemma rewrite_keeps_entry_count (es : list entry) :
  forallb (storable ext) es = true ->
  int_rangeb (Z.of_nat (length es)) = true ->
  exists file',
    write_list_of_entries ext es = (Ok tt, file', [])
    /\ entry_count_of file'
       = Ok (Z.of_nat (length (yielded (walk_index ext file')))).
Proof.
  intros Hs R. exists (index_file ext 2 es).
  split; [apply write_list_of_entries_file; assumption|].
  apply index_file_count; assumption.
Qed.

End MutatorClaims.
(* ================================================================== *)
(** * The properties on concrete indexes *)

Import Demo.

Lemma index_a_file : index_a = index_file ext 2 [a_prof].
Proof. vm_compute. reflexivity. Qed.

Lemma index_a_b_file : index_a_b = index_file ext 2 [a_prof; b_prof].
Proof. vm_compute. reflexivity. Qed.

Lemma index_a_a_file : index_a_a = index_file ext 2 [a_prof; a_prof_later].
Proof. vm_compute. reflexivity. Qed.

(** C1.  The index holds the one record of [a.prof], and the key [a.prof]
    is passed twice to [remove_from_index]: the call returns, the header
    then counts [-1] entries, and the walker yields no record and logs the
    mismatch.  The entry is looked up once per key and is collected twice,
    so that the number written is the number of records less two. *)
Theorem remove_repeated_key_entry_count :
  fst (fst (remove_from_index ext index_a [lit "a.prof"; lit "a.prof"]))
  = Ok tt
  /\ entry_count_of
       (file_after (remove_from_index ext index_a
                      [lit "a.prof"; lit "a.prof"]))
     = Ok (-1)
  /\ yielded (walk_index ext
                (file_after (remove_from_index ext index_a
                               [lit "a.prof"; lit "a.prof"])))
     = []
  /\ walk_end (walk_index ext
                 (file_after (remove_from_index ext index_a
                                [lit "a.prof"; lit "a.prof"])))
     = Ok true.
Proof. vm_compute. repeat split. Qed.

(** With two records and two keys for the first of them, its path and its
    checksum, the header counts no entry afterwards although the record of
    [b.prof] is still in the file: the walker yields nothing. *)
Lemma remove_two_keys_of_one_entry :
  file_after (remove_from_index ext index_a_b [lit "a.prof"; sha_1])
  = header 2 0 ++ entry_bytes ext b_prof
  /\ yielded (walk_index ext
                (file_after (remove_from_index ext index_a_b
                               [lit "a.prof"; sha_1])))
     = [].
Proof. vm_compute. repeat split. Qed.

(** C2, the claim as stated fails: two records have the path [a.prof];
    after the removal of the key [a.prof] the second of them is still in
    the index and matches the key. *)
Lemma remove_leaves_later_match :
  exists survivor,
    In survivor
       (yielded (walk_index ext
                   (file_after (remove_from_index ext index_a_a
                                  [lit "a.prof"]))))
    /\ lookup_function ext (lit "a.prof") survivor = true.
Proof.
  exists (set_offset a_prof_later 12). vm_compute. split; [left|]; reflexivity.
Qed.

Lemma remove_removes_first_matches_witness :
  ([lit "a.prof"] <> []
   /\ forallb (storable ext) [a_prof; a_prof_later] = true)
  /\ exists survivors file' lg,
       remove_from_index ext (index_file ext 2 [a_prof; a_prof_later])
                         [lit "a.prof"]
       = (Ok tt, file', lg)
       /\ file' = header 2 (2 - 1) ++ body ext survivors
       /\ entry_count_of file' = Ok 1.
Proof.
  split; [split; [discriminate|reflexivity]|].
  destruct (remove_removes_first_matches ext [a_prof; a_prof_later]
              [lit "a.prof"] ltac:(discriminate) eq_refl eq_refl eq_refl)
    as (survivors & file' & lg & E & F & _ & C & _).
  exists survivors, file', lg. auto.
Defined.

(** C3, the claim as stated fails: an entry that carries the offset [-1],
    as every entry that [register_in_index] builds, is decoded with the
    offset at which it was written. *)
Lemma roundtrip_changes_sentinel_offset :
  valid_entry ext a_prof = true
  /\ fst (decode_encoded ext a_prof (mkHandle [] 0 []))
     = Ok (set_offset a_prof 0)
  /\ entry_eqb (set_offset a_prof 0) a_prof = false.
Proof. vm_compute. repeat split. Qed.

Lemma codec_roundtrip_witness :
  valid_entry ext (set_offset a_prof 12) = true
  /\ fst (decode_encoded ext (set_offset a_prof 12)
            (mkHandle fresh_index 12 []))
     = Ok (set_offset a_prof 12).
Proof.
  split; [reflexivity|].
  apply (proj2 (codec_roundtrip ext (set_offset a_prof 12)
                  (mkHandle fresh_index 12 []) eq_refl)).
  reflexivity.
Defined.



(** C5, the claim as stated fails: the index holds the record of [a.prof]
    and the entry has its path and time, but carries the offset 12; the
    call returns without a warning and the file then holds the record
    twice. *)
Lemma offset_insert_duplicates_record :
  write_entry_to_index ext index_a (set_offset a_prof 12)
  = (Ok tt, index_file ext 2 [a_prof; a_prof], [])
  /\ index_file ext 2 [a_prof; a_prof] <> index_a.
Proof.
  split; [vm_compute; reflexivity|].
  intros H. apply (f_equal (@length byte)) in H. vm_compute in H.
  discriminate H.
Qed.

Lemma duplicate_insert_is_noop_witness :
  (insertable ext a_prof = true /\ In a_prof [a_prof; b_prof])
  /\ write_entry_to_index ext (index_file ext 2 [a_prof; b_prof]) a_prof
     = (Ok tt, index_file ext 2 [a_prof; b_prof],
        [LogWarn_already_registered (path a_prof) (time a_prof)]).
Proof.
  split; [split; [reflexivity|left; reflexivity]|].
  apply (duplicate_insert_is_noop ext a_prof a_prof [a_prof; b_prof]);
    try reflexivity.
  - repeat constructor.
  - left. reflexivity.
Defined.

(** C6.  The index is in the old format, version 1, with the basic records
    of [a.prof] and [b.prof]; [remove_from_index] with the key [a.prof]
    returns and has rewritten the file, which holds the record of [b.prof]
    in the current format, but the version in the header is still 1.  The
    insertion into the same file sets the version to the current one. *)
Theorem remove_keeps_old_format_version :
  format_version_of old_index_a_b = Ok 1
  /\ fst (fst (remove_from_index ext old_index_a_b [lit "a.prof"])) = Ok tt
  /\ file_after (remove_from_index ext old_index_a_b [lit "a.prof"])
     = header 1 1 ++ entry_bytes ext b_prof
  /\ format_version_of
       (file_after (remove_from_index ext old_index_a_b [lit "a.prof"]))
     = Ok 1
  /\ format_version_of
       (file_after (write_entry_to_index ext old_index_a_b a_prof_later))
     = Ok INDEX_VERSION.
Proof. vm_compute. repeat split. Qed.

(** C7, the claim as stated fails: the exception for the version 3 is of
    the class of the exception for a wrong magic prefix. *)
Lemma version_error_has_class_of_magic_error :
  walk_index ext index_of_version_3
  = WalkRaise (MalformedIndexFileException (DifferentIndexVersion 3 2))
  /\ walk_index ext not_an_index
     = WalkRaise (MalformedIndexFileException NotAnIndexFile)
  /\ same_class (MalformedIndexFileException (DifferentIndexVersion 3 2))
                (MalformedIndexFileException NotAnIndexFile) = true.
Proof. vm_compute. repeat split. Qed.

Lemma walk_index_newer_version_witness :
  (int_rangeb 3 = true /\ 3 > INDEX_VERSION)
  /\ walk_index ext (INDEX_MAGIC_PREFIX ++ int_bytes 3 ++ int_bytes 0)
     = WalkRaise (MalformedIndexFileException
                    (DifferentIndexVersion 3 INDEX_VERSION)).
Proof.
  split; [split; reflexivity|].
  apply (proj1 (walk_index_newer_version ext 3 (int_bytes 0)
                  eq_refl eq_refl)).
Defined.

(** C8, the claim as stated fails: the header counts one record and two
    can be decoded; the walker yields one record and logs nothing. *)
Lemma fewer_counted_records_no_warning :
  entry_count_of index_counting_one_of_two = Ok 1
  /\ index_counting_one_of_two = header 2 1 ++ body ext [a_prof; b_prof]
  /\ yielded (walk_index ext index_counting_one_of_two)
     = [set_offset a_prof 12]
  /\ walk_end (walk_index ext index_counting_one_of_two) = Ok false.
Proof. vm_compute. repeat split. Qed.

(** The header counts three records and two can be decoded: two entries
    and the logged mismatch. *)
Lemma walk_index_count_mismatch_witness :
  (int_rangeb 3 = true /\ forallb (storable ext) [a_prof; b_prof] = true)
  /\ yielded (walk_index ext (header 2 3 ++ body ext [a_prof; b_prof] ++ []))
     = place ext 12 [a_prof; b_prof]
  /\ walk_end (walk_index ext
                 (header 2 3 ++ body ext [a_prof; b_prof] ++ []))
     = Ok true.
Proof.
  split; [split; reflexivity|].
  apply (walk_index_count_mismatch ext 3 [a_prof; b_prof] []);
    [reflexivity|reflexivity|simpl; lia].
Defined.




(** With the offset 0 the call returns, but the record lies in the place
    of the header and the walker refuses the file. *)
Lemma offset_zero_hides_header :
  fst (fst (write_entry_to_index ext index_a (set_offset b_prof 0))) = Ok tt
  /\ walk_index ext
       (file_after (write_entry_to_index ext index_a (set_offset b_prof 0)))
     = WalkRaise (MalformedIndexFileException NotAnIndexFile).
Proof. vm_compute. split; reflexivity. Qed.

(* ================================================================== *)
(** * Further properties: the walker and the lookups on any file *)

Section WalkerOnAnyFile.

Variable ext : collaborators.

(** X1.  A file whose first four bytes are not the magic prefix, a file of
    fewer than four bytes included, makes [walk_index] raise
    [MalformedIndexFileException] ("read blob is not an index file") before
    it yields an entry. *)
Theorem walk_index_wrong_magic (file : bytes) :
  firstn 4 file <> INDEX_MAGIC_PREFIX ->
  walk_index ext file
  = WalkRaise (MalformedIndexFileException NotAnIndexFile).
Proof.
  intros H. unfold walk_index. cbv zeta. unfold read at 1.
  cbn [pos content skipn].
  apply bytes_eqb_false in H. rewrite H. reflexivity.
Qed.

Lemma read_int_inv (h h' : handle) (v : Z) :
  read_int_from_handle h = (Ok v, h') -> h' = set_pos h (pos h + 4).
Proof.
  unfold read_int_from_handle, bind, read.
  set (got := firstn 4 (skipn (pos h) (content h))).
  destruct got as [|b0 [|b1 [|b2 [|b3 [|b4 got]]]]]; cbn [unpack_i lift];
    try (unfold raise; discriminate).
  unfold ret. intros E. injection E as _ <-. reflexivity.
Qed.

Lemma walk_loop_bound (todo : nat) :
  forall (last version : Z) (h : handle),
    (length (yielded (walk_loop ext last version todo h)) <= todo)%nat.
Proof.
  induction todo as [|todo IH]; intros last version h; [simpl; lia|].
  cbn [walk_loop].
  destruct (Z.of_nat (pos h) + 24 <? last); [|simpl; lia].
  destruct ((v <- lift (IndexVersion_of version);;
             read_from ext entry_constructor v) h) as [[e|x] h'];
    [|simpl; lia].
  cbn [yielded length]. specialize (IH last version h'). lia.
Qed.

(** X2.  Whatever the file holds, [walk_index] never yields more entries
    than the number of entries in the header says. *)
Theorem walk_index_yields_at_most_count (file : bytes) (count : Z) :
  entry_count_of file = Ok count ->
  (length (yielded (walk_index ext file)) <= Z.to_nat count)%nat.
Proof.
  intros C. unfold walk_index. cbv zeta.
  destruct (read 4 (mkHandle file 0 [])) as [[magic|x] h1] eqn:R1;
    [|apply Nat.le_0_l].
  destruct (negb (bytes_eqb magic INDEX_MAGIC_PREFIX)) eqn:Em; [apply Nat.le_0_l|].
  apply negb_false_iff, bytes_eqb_true in Em. subst magic.
  unfold read in R1. cbn [pos content skipn] in R1.
  injection R1 as Eg <-. rewrite Eg.
  change (length INDEX_MAGIC_PREFIX) with 4%nat.
  destruct (read_int_from_handle (set_pos (mkHandle file 0 []) 4))
    as [[version|x] h2] eqn:R2; [|apply Nat.le_0_l].
  apply read_int_inv in R2. subst h2.
  destruct (version >? INDEX_VERSION); [apply Nat.le_0_l|].
  change (set_pos (set_pos (mkHandle file 0 []) 4) _)
    with (mkHandle file 8 []).
  unfold entry_count_of, bind in C.
  change INDEX_NUMBER_OF_ENTRIES_OFFSET with (Z.of_nat 8) in C.
  rewrite seek_nat in C.
  change (set_pos (mkHandle file 0 []) 8) with (mkHandle file 8 []) in C.
  destruct (read_int_from_handle (mkHandle file 8 [])) as [[number|x] h3];
    cbn [fst] in C; [|discriminate].
  injection C as ->.
  destruct (count <? 0); [apply Nat.le_0_l|].
  apply walk_loop_bound.
Qed.

(** The cursors of the generator go with its entries: one for each entry
    that is yielded and one for its end. *)
Lemma walk_loop_cursors_length (todo : nat) :
  forall (last version : Z) (h : handle),
    length (walk_loop_cursors ext last version todo h)
    = S (length (yielded (walk_loop ext last version todo h))).
Proof.
  induction todo as [|todo IH]; intros last version h; [reflexivity|].
  cbn [walk_loop walk_loop_cursors].
  destruct (Z.of_nat (pos h) + 24 <? last); [|reflexivity].
  destruct ((v <- lift (IndexVersion_of version);;
             read_from ext entry_constructor v) h) as [[e|x] h'];
    [|reflexivity].
  cbn [yielded length]. rewrite IH. reflexivity.
Qed.

Lemma walk_index_cursors_length (file : bytes) :
  length (walk_index_cursors ext file)
  = S (length (yielded (walk_index ext file))).
Proof.
  unfold walk_index, walk_index_cursors. cbv zeta.
  destruct (read 4 (mkHandle file 0 [])) as [[magic|x] h1]; [|reflexivity].
  destruct (negb (bytes_eqb magic INDEX_MAGIC_PREFIX)); [reflexivity|].
  destruct (read_int_from_handle h1) as [[version|x] h2]; [|reflexivity].
  destruct (version >? INDEX_VERSION); [reflexivity|].
  destruct (read_int_from_handle h2) as [[number|x] h3]; [|reflexivity].
  destruct (number <? 0); [reflexivity|].
  apply walk_loop_cursors_length.
Qed.

(** What [list] makes of the generator. *)
Lemma list_of_walk_spec (w : walk) (h : handle) :
  list_of_walk w h
  = match walk_end w with
    | Ok logged =>
        (Ok (yielded w),
         if logged
         then mkHandle (content h) (pos h)
                       (log h ++ [LogError_malformed_count])
         else h)
    | Raise x => (Raise x, h)
    end.
Proof.
  induction w as [e rest IH|logged|x]; cbn [list_of_walk walk_end yielded].
  - unfold bind at 1. rewrite IH.
    destruct (walk_end rest) as [logged|x]; reflexivity.
  - destruct logged; reflexivity.
  - reflexivity.
Qed.

Lemma lookup_in_walk_spec (predicate : entry -> bool) (name : str)
  (w : walk) (h : handle) :
  lookup_in_walk predicate name w h
  = match find predicate (yielded w) with
    | Some e => (Ok e, h)
    | None =>
        match walk_end w with
        | Ok logged =>
            (Raise (EntryNotFoundException name),
             if logged
             then mkHandle (content h) (pos h)
                           (log h ++ [LogError_malformed_count])
             else h)
        | Raise x => (Raise x, h)
        end
    end.
Proof.
  induction w as [e rest IH|logged|x];
    cbn [lookup_in_walk walk_end yielded find].
  - destruct (predicate e); [reflexivity|exact IH].
  - destruct logged; reflexivity.
  - reflexivity.
Qed.

(** X3.  On any file, [lookup_entry_within_index] returns the first entry
    that the walker yields and that satisfies the predicate, also when the
    walker would raise or report a mismatch behind that entry.  When no
    yielded entry satisfies the predicate, an exception of the walker
    escapes; otherwise [EntryNotFoundException] is raised with the name
    that was passed, after the mismatch of the counts was logged if there
    is one.  The walker moves the cursor of the handle; the bytes of the
    file are not changed and nothing else is logged. *)
Theorem lookup_entry_within_index_spec (predicate : entry -> bool)
  (name : str) (h : handle) :
  fst (lookup_entry_within_index ext predicate name h)
  = match find predicate (yielded (walk_index ext (content h))) with
    | Some e => Ok e
    | None =>
        match walk_end (walk_index ext (content h)) with
        | Ok _ => Raise (EntryNotFoundException name)
        | Raise x => Raise x
        end
    end
  /\ content (snd (lookup_entry_within_index ext predicate name h))
     = content h
  /\ log (snd (lookup_entry_within_index ext predicate name h))
     = log h
       ++ match find predicate (yielded (walk_index ext (content h))),
                walk_end (walk_index ext (content h)) with
          | None, Ok true => [LogError_malformed_count]
          | _, _ => []
          end.
Proof.
  unfold lookup_entry_within_index, on_walked_handle.
  rewrite lookup_in_walk_spec.
  destruct (find predicate (yielded (walk_index ext (content h)))) as [e|].
  - cbn [fst snd set_pos content log]. rewrite app_nil_r. auto.
  - destruct (walk_end (walk_index ext (content h))) as [[|]|x];
      cbn [fst snd set_pos content log]; rewrite ?app_nil_r; auto.
Qed.

(** X4.  On a well-formed index, [lookup_all_entries_within_index] returns
    the records that satisfy the predicate, in the order of the file and
    with the offsets at which they lie; it logs nothing, changes no byte
    and leaves the cursor at the end of the file.  On any file on which
    the walker raises, the exception escapes and no entry is returned. *)
Theorem lookup_all_entries_within_index_file (predicate : entry -> bool)
  (es : list entry) (p : nat) (lg : list log_event) :
  forallb (storable ext) es = true ->
  int_rangeb (Z.of_nat (length es)) = true ->
  lookup_all_entries_within_index ext predicate
    (mkHandle (index_file ext 2 es) p lg)
  = (Ok (filter predicate (place ext 12 es)),
     mkHandle (index_file ext 2 es) (length (index_file ext 2 es)) lg)
  /\ forall (h : handle) (x : exc),
       walk_end (walk_index ext (content h)) = Raise x ->
       fst (lookup_all_entries_within_index ext predicate h) = Raise x.
Proof.
  intros Hs R. split.
  - unfold lookup_all_entries_within_index, bind.
    rewrite (walk_index_list_file ext es (mkHandle (index_file ext 2 es) p lg)
               R Hs eq_refl).
    reflexivity.
  - intros h x W.
    unfold lookup_all_entries_within_index, bind, walk_index_list,
      on_walked_handle.
    rewrite list_of_walk_spec, W. reflexivity.
Qed.

(** X5.  A full rewrite and a walk: for entries that the current format
    can hold, [write_list_of_entries] returns and leaves an index of the
    current version from which [walk_index] yields these entries, in their
    order and with the offsets at which they lie, without a mismatch. *)
Theorem write_list_of_entries_then_walk (es : list entry) :
  forallb (storable ext) es = true ->
  int_rangeb (Z.of_nat (length es)) = true ->
  exists file,
    write_list_of_entries ext es = (Ok tt, file, [])
    /\ format_version_of file = Ok INDEX_VERSION
    /\ entry_count_of file = Ok (Z.of_nat (length es))
    /\ yielded (walk_index ext file) = place ext 12 es
    /\ walk_end (walk_index ext file) = Ok false.
Proof.
  intros Hs R. exists (index_file ext 2 es).
  split; [apply write_list_of_entries_file; assumption|].
  split; [apply format_version_of_header; reflexivity|].
  split; [apply entry_count_of_header, R|].
  rewrite (walk_index_file ext es R Hs).
  rewrite yielded_walk_of, walk_end_walk_of. split; reflexivity.
Qed.

End WalkerOnAnyFile.
(* ================================================================== *)
(** * Further properties: insertion *)

Lemma insert_entry_split (x : entry) (es es' : list entry) :
  insert_entry x es = Some es' ->
  exists pre post,
    es = pre ++ post /\ es' = pre ++ x :: post
    /\ (forall e, In e pre -> key_lt e x)
    /\ match post with
       | [] => True
       | e :: _ => key_lt x e
       end.
Proof.
  revert es'. induction es as [|e es IH]; intros es' H.
  - injection H as <-. exists [], []. simpl. intuition.
  - cbn [insert_entry] in H. destruct (insert_predicate x e) eqn:P.
    + destruct (bytes_eqb (path e) (path x) && bytes_eqb (time e) (time x))
        eqn:Q; [discriminate|].
      injection H as <-. exists [], (e :: es). simpl.
      repeat split; [intros ? []|].
      apply insert_predicate_strict; assumption.
    + destruct (insert_entry x es) as [es''|] eqn:I; [|discriminate].
      injection H as <-.
      destruct (IH es'' eq_refl) as (pre & post & -> & -> & Hpre & Hpost).
      exists (e :: pre), post. simpl. repeat split; auto.
      intros y [<-|Hy]; [apply insert_predicate_false, P|auto].
Qed.

Lemma insert_entry_none (x : entry) (es : list entry) :
  insert_entry x es = None ->
  exists e, In e es /\ key_compare x e = Eq.
Proof.
  induction es as [|e es IH]; intros H; [discriminate|].
  cbn [insert_entry] in H. destruct (insert_predicate x e).
  - destruct (bytes_eqb (path e) (path x) && bytes_eqb (time e) (time x))
      eqn:Q; [|discriminate].
    exists e. split; [left; reflexivity|]. apply same_key_spec, Q.
  - destruct (insert_entry x es) as [es''|]; [discriminate|].
    destruct (IH eq_refl) as (e' & Hin & E). exists e'. simpl. auto.
Qed.

Lemma insert_entry_some (x : entry) (es : list entry) :
  (forall e, In e es -> key_compare x e <> Eq) ->
  exists es', insert_entry x es = Some es'.
Proof.
  intros H. destruct (insert_entry x es) as [es'|] eqn:I; [eauto|].
  destruct (insert_entry_none x es I) as (e & Hin & E).
  exfalso. exact (H e Hin E).
Qed.

Lemma has_key_of_spec (x e : entry) :
  has_key_of x e = true <-> key_compare x e = Eq.
Proof. apply same_key_spec. Qed.

Section FurtherInsertion.

Variable ext : collaborators.

(** X6.  An insertion keeps what was there.  When no record of a
    well-formed index has the path and the time of the entry,
    [write_entry_to_index] with a valid entry that carries the offset [-1]
    returns without a message; the number of entries is incremented by
    one, and the body is the old body with the new record put between two
    parts of it: every record in front of the new one is smaller, the
    record behind it, if there is one, is greater. *)
Theorem write_entry_to_index_keeps_records (x : entry) (es : list entry) :
  insertable ext x = true ->
  forallb (storable ext) es = true ->
  int_rangeb (Z.of_nat (length es) + 1) = true ->
  (forall e, In e es -> key_compare x e <> Eq) ->
  exists pre post,
    es = pre ++ post
    /\ write_entry_to_index ext (index_file ext 2 es) x
       = (Ok tt,
          header 2 (Z.of_nat (length es) + 1)
          ++ body ext pre ++ entry_bytes ext x ++ body ext post,
          [])
    /\ (forall e, In e pre -> key_lt e x)
    /\ match post with
       | [] => True
       | e :: _ => key_lt x e
       end.
Proof.
  intros Hx Hs R N.
  destruct (insert_entry_some x es N) as (es' & I).
  destruct (insert_entry_split x es es' I)
    as (pre & post & Ees & Ees' & Hpre & Hpost).
  exists pre, post. split; [exact Ees|].
  split; [|split; assumption].
  rewrite (write_entry_to_index_file ext x es Hx Hs R), I.
  f_equal. f_equal. unfold index_file.
  rewrite (insert_entry_length x es es' I), Ees', body_app, body_cons.
  replace (Z.of_nat (S (length es))) with (Z.of_nat (length es) + 1) by lia.
  reflexivity.
Qed.

Lemma find_has_key_of_place (x : entry) (pre post : list entry)
  (start : nat) :
  (forall e, In e pre -> key_lt e x) ->
  find (has_key_of x) (place ext start (pre ++ x :: post))
  = Some (set_offset x (Z.of_nat (start + length (body ext pre)))).
Proof.
  revert start. induction pre as [|e pre IH]; intros start Hpre.
  - cbn [app place find].
    assert (T : has_key_of x (set_offset x (Z.of_nat start)) = true).
    { apply has_key_of_spec. apply key_compare_eq. split; reflexivity. }
    rewrite T. cbn [body map concat length]. rewrite Nat.add_0_r.
    reflexivity.
  - cbn [app place find].
    assert (F : has_key_of x (set_offset e (Z.of_nat start)) = false).
    { destruct (has_key_of x (set_offset e (Z.of_nat start))) eqn:T;
        [|reflexivity].
      apply has_key_of_spec in T.
      assert (L : key_lt e x) by (apply Hpre; left; reflexivity).
      apply key_lt_gt in L.
      change (key_compare x (set_offset e (Z.of_nat start)))
        with (key_compare x e) in T.
      congruence. }
    rewrite F, IH by (intros y Hy; apply Hpre; right; exact Hy).
    rewrite body_cons, length_app. do 3 f_equal. lia.
Qed.

(** X7.  An insertion and a lookup.  After such an insertion the file is
    the header, the records [pre] that are smaller than the entry, the
    record of the entry and the other records [post]; the lookup of the
    first entry with the path and the time of the inserted entry returns
    the inserted entry with the offset at which its record lies, which is
    the length of the header and of [pre].  The lookup changes no byte of
    the file and logs nothing; it leaves the cursor behind the record that
    it found. *)
Theorem write_entry_then_lookup (x : entry) (es : list entry) (name : str)
  (p : nat) (lg : list log_event) :
  insertable ext x = true ->
  forallb (storable ext) es = true ->
  int_rangeb (Z.of_nat (length es) + 1) = true ->
  (forall e, In e es -> key_compare x e <> Eq) ->
  exists pre post file,
    es = pre ++ post
    /\ file = header 2 (Z.of_nat (length es) + 1)
              ++ body ext pre ++ entry_bytes ext x ++ body ext post
    /\ write_entry_to_index ext (index_file ext 2 es) x = (Ok tt, file, [])
    /\ lookup_entry_within_index ext (has_key_of x) name
         (mkHandle file p lg)
       = (Ok (set_offset x (Z.of_nat (12 + length (body ext pre)))),
          mkHandle file
                   (12 + length (body ext pre) + length (entry_bytes ext x))
                   lg).
Proof.
  intros Hx Hs R N.
  destruct (insert_entry_some x es N) as (es' & I).
  destruct (insert_entry_split x es es' I)
    as (pre & post & Ees & Ees' & Hpre & _).
  pose proof (insert_entry_length x es es' I) as L.
  assert (Ef : index_file ext 2 es'
               = header 2 (Z.of_nat (length es) + 1)
                 ++ body ext pre ++ entry_bytes ext x ++ body ext post).
  { unfold index_file. rewrite L, Ees', body_app, body_cons.
    replace (Z.of_nat (S (length es))) with (Z.of_nat (length es) + 1)
      by lia.
    reflexivity. }
  exists pre, post, (index_file ext 2 es').
  split; [exact Ees|]. split; [exact Ef|]. split.
  { rewrite (write_entry_to_index_file ext x es Hx Hs R), I. reflexivity. }
  assert (R' : int_rangeb (Z.of_nat (length es')) = true).
  { apply int_rangeb_true in R. apply int_rangeb_true. lia. }
  assert (Hs' : forallb (storable ext) es' = true).
  { apply (insert_entry_storable ext x es es'
             (insertable_storable ext x Hx) Hs I). }
  rewrite (lookup_entry_within_index_file ext (has_key_of x) name es'
             (mkHandle (index_file ext 2 es') p lg) R' Hs' eq_refl).
  rewrite Ees', (find_has_key_of_place x pre post 12 Hpre).
  unfold set_pos. cbn [content pos log offset set_offset].
  rewrite (entry_bytes_set_offset ext), Nat2Z.id. reflexivity.
Qed.

(** X8.  Registering twice is registering once.  On a well-formed index
    with ascending records, a second call of [write_entry_to_index] with
    the same entry (valid, with the offset [-1]) leaves the file that the
    first call left and logs that the entry is registered already. *)
Theorem write_entry_to_index_twice (x : entry) (es : list entry) :
  insertable ext x = true ->
  forallb (storable ext) es = true ->
  int_rangeb (Z.of_nat (length es) + 2) = true ->
  StronglySorted key_lt es ->
  exists file lg,
    write_entry_to_index ext (index_file ext 2 es) x = (Ok tt, file, lg)
    /\ write_entry_to_index ext file x
       = (Ok tt, file, [LogWarn_already_registered (path x) (time x)]).
Proof.
  intros Hx Hs R S. apply int_rangeb_true in R.
  assert (R1 : int_rangeb (Z.of_nat (length es) + 1) = true)
    by (apply int_rangeb_true; lia).
  rewrite (write_entry_to_index_file ext x es Hx Hs R1).
  destruct (insert_entry x es) as [es'|] eqn:I.
  - exists (index_file ext 2 es'), []. split; [reflexivity|].
    pose proof (insert_entry_length x es es' I) as L.
    apply (duplicate_insert_is_noop ext x x es'); auto.
    + apply (insert_entry_storable ext x es es'
               (insertable_storable ext x Hx) Hs I).
    + apply int_rangeb_true. lia.
    + apply (insert_entry_sorted x es es' S I).
    + apply (insert_entry_in x es es' I). left. reflexivity.
  - eexists (index_file ext 2 es), _. split; [reflexivity|].
    rewrite (write_entry_to_index_file ext x es Hx Hs R1), I. reflexivity.
Qed.

(** *** The order of the calls does not matter *)

Lemma insert_all_sorted (xs : list entry) :
  forall es, StronglySorted key_lt es ->
             StronglySorted key_lt (insert_all xs es).
Proof.
  induction xs as [|x xs IH]; intros es S; [exact S|].
  cbn [insert_all fold_left]. fold (insert_all xs).
  destruct (insert_entry x es) as [es'|] eqn:I.
  - apply IH. apply (insert_entry_sorted x es es' S I).
  - apply IH, S.
Qed.

Lemma insert_all_in (xs : list entry) :
  forall es y, In y (insert_all xs es) -> In y es \/ In y xs.
Proof.
  induction xs as [|x xs IH]; intros es y H; [left; exact H|].
  cbn [insert_all fold_left] in H. fold (insert_all xs) in H.
  destruct (insert_entry x es) as [es'|] eqn:I.
  - apply IH in H. destruct H as [H|H]; [|right; right; exact H].
    apply (insert_entry_in x es es' I) in H.
    destruct H as [->|H]; [right; left; reflexivity|left; exact H].
  - apply IH in H. destruct H as [H|H]; [left|right; right]; exact H.
Qed.

Lemma insert_all_keeps (xs : list entry) :
  forall es y, In y es -> In y (insert_all xs es).
Proof.
  induction xs as [|x xs IH]; intros es y H; [exact H|].
  cbn [insert_all fold_left]. fold (insert_all xs).
  destruct (insert_entry x es) as [es'|] eqn:I.
  - apply IH. apply (insert_entry_in x es es' I). right. exact H.
  - apply IH, H.
Qed.

Lemma insert_all_takes (xs : list entry) :
  forall es x,
    (forall a b, In a (es ++ xs) -> In b (es ++ xs) ->
                 key_compare a b = Eq -> a = b) ->
    In x xs -> In x (insert_all xs es).
Proof.
  induction xs as [|x0 xs IH]; intros es x Inj H; [contradiction|].
  cbn [insert_all fold_left]. fold (insert_all xs).
  destruct (insert_entry x0 es) as [es'|] eqn:I.
  - destruct H as [->|H].
    + apply insert_all_keeps. apply (insert_entry_in x es es' I).
      left. reflexivity.
    + apply IH; [|exact H].
      intros a b Ha Hb. apply Inj.
      * apply in_app_or in Ha. apply in_or_app.
        destruct Ha as [Ha|Ha]; [|right; right; exact Ha].
        apply (insert_entry_in x0 es es' I) in Ha.
        destruct Ha as [->|Ha]; [right; left; reflexivity|left; exact Ha].
      * apply in_app_or in Hb. apply in_or_app.
        destruct Hb as [Hb|Hb]; [|right; right; exact Hb].
        apply (insert_entry_in x0 es es' I) in Hb.
        destruct Hb as [->|Hb]; [right; left; reflexivity|left; exact Hb].
  - destruct H as [->|H].
    + destruct (insert_entry_none x es I) as (e & Hin & E).
      assert (x = e).
      { apply Inj; [apply in_or_app; right; left; reflexivity
                   |apply in_or_app; left; exact Hin|exact E]. }
      subst e. apply insert_all_keeps, Hin.
    + apply IH; [|exact H].
      intros a b Ha Hb. apply Inj.
      * apply in_app_or in Ha. apply in_or_app.
        destruct Ha as [Ha|Ha]; [left|right; right]; exact Ha.
      * apply in_app_or in Hb. apply in_or_app.
        destruct Hb as [Hb|Hb]; [left|right; right]; exact Hb.
Qed.

Lemma sorted_unique (l1 : list entry) :
  forall l2,
    StronglySorted key_lt l1 -> StronglySorted key_lt l2 ->
    (forall y, In y l1 <-> In y l2) -> l1 = l2.
Proof.
  induction l1 as [|a l1 IH]; intros [|b l2] S1 S2 E.
  - reflexivity.
  - exfalso. apply (proj2 (E b)). left. reflexivity.
  - exfalso. apply (proj1 (E a)). left. reflexivity.
  - apply StronglySorted_inv in S1, S2.
    destruct S1 as [S1 F1], S2 as [S2 F2].
    rewrite Forall_forall in F1, F2.
    assert (a = b).
    { destruct (proj1 (E a) (or_introl eq_refl)) as [Hab|Ha]; [auto|].
      destruct (proj2 (E b) (or_introl eq_refl)) as [Hba|Hb]; [auto|].
      exfalso. apply (key_lt_irrefl a).
      apply (key_lt_trans a b a); [apply F1, Hb|apply F2, Ha]. }
    subst b. f_equal. apply IH; auto.
    intros y. split; intros Hy.
    + destruct (proj1 (E y) (or_intror Hy)) as [<-|H]; [|exact H].
      exfalso. exact (key_lt_irrefl a (F1 a Hy)).
    + destruct (proj2 (E y) (or_intror Hy)) as [<-|H]; [|exact H].
      exfalso. exact (key_lt_irrefl a (F2 a Hy)).
Qed.

(** A sequence of insertions into a well-formed index with ascending
    records, as a function of the records. *)
Lemma write_entries_to_index_insert_all (xs : list entry) :
  forall es : list entry,
    forallb (insertable ext) xs = true ->
    forallb (storable ext) es = true ->
    int_rangeb (Z.of_nat (length es + length xs)) = true ->
    write_entries_to_index ext (index_file ext 2 es) xs
    = (Ok tt, index_file ext 2 (insert_all xs es))
    /\ forallb (storable ext) (insert_all xs es) = true
    /\ (length (insert_all xs es) <= length es + length xs)%nat.
Proof.
  induction xs as [|x xs IH]; intros es Hx Hs R.
  - simpl. rewrite Nat.add_0_r. auto.
  - cbn [forallb] in Hx. apply andb_true_iff in Hx. destruct Hx as [Hx Hxs].
    cbn [length] in R. apply int_rangeb_true in R.
    cbn [write_entries_to_index insert_all fold_left]. fold (insert_all xs).
    rewrite (write_entry_to_index_file ext x es Hx Hs)
      by (apply int_rangeb_true; lia).
    destruct (insert_entry x es) as [es1|] eqn:I.
    + pose proof (insert_entry_length x es es1 I) as L.
      destruct (IH es1 Hxs
                  (insert_entry_storable ext x es es1
                     (insertable_storable ext x Hx) Hs I)) as (E & A & B).
      { apply int_rangeb_true. lia. }
      rewrite E. repeat split; auto.
      unfold insert_all in B |- *. cbn [length]. lia.
    + destruct (IH es Hxs Hs) as (E & A & B).
      { apply int_rangeb_true. lia. }
      rewrite E. repeat split; auto.
      unfold insert_all in B |- *. cbn [length]. lia.
Qed.

(** X9.  The order of the registrations does not matter.  When different
    entries of a sequence differ in their path or time, the calls of
    [write_entry_to_index] on a new index with the entries (valid, with the
    offset [-1]) in any other order leave the same file, byte for byte. *)
Theorem write_entries_to_index_any_order (xs xs' : list entry) :
  Permutation xs xs' ->
  forallb (insertable ext) xs = true ->
  int_rangeb (Z.of_nat (length xs)) = true ->
  (forall a b, In a xs -> In b xs -> key_compare a b = Eq -> a = b) ->
  write_entries_to_index ext (touch_index None) xs
  = write_entries_to_index ext (touch_index None) xs'.
Proof.
  intros P Hx R Inj.
  assert (Hx' : forallb (insertable ext) xs' = true).
  { rewrite forallb_forall in Hx |- *. intros y Hy. apply Hx.
    apply (Permutation_in _ (Permutation_sym P) Hy). }
  assert (R' : int_rangeb (Z.of_nat (length xs')) = true)
    by (rewrite <- (Permutation_length P); exact R).
  rewrite (fresh_index_file ext).
  destruct (write_entries_to_index_insert_all xs [] Hx eq_refl R)
    as (E & _ & _).
  destruct (write_entries_to_index_insert_all xs' [] Hx' eq_refl R')
    as (E' & _ & _).
  rewrite E, E'. do 2 f_equal.
  apply sorted_unique; try (apply insert_all_sorted; constructor).
  intros y. split; intros Hy.
  - apply insert_all_in in Hy. destruct Hy as [[]|Hy].
    apply insert_all_takes.
    + cbn [app]. intros a b Ha Hb. apply Inj.
      * apply (Permutation_in _ (Permutation_sym P) Ha).
      * apply (Permutation_in _ (Permutation_sym P) Hb).
    + apply (Permutation_in _ P Hy).
  - apply insert_all_in in Hy. destruct Hy as [[]|Hy].
    apply insert_all_takes.
    + cbn [app]. exact Inj.
    + apply (Permutation_in _ (Permutation_sym P) Hy).
Qed.

(** X10.  The first registration.  When the index of the minor version
    does not exist, [register_in_minor_index] with a time, a checksum, a
    name and a profile that make a valid entry leaves the index of the
    current version with this one record: the header counts one entry and
    the walker yields the entry at the offset 12. *)
Theorem register_in_minor_index_first (stamp checksum name : str)
  (p : profile) :
  insertable ext (new_ExtendedIndexEntry stamp checksum name (-1) p) = true ->
  exists file,
    register_in_minor_index ext None stamp checksum name p
    = (Ok tt, file, [])
    /\ entry_count_of file = Ok 1
    /\ format_version_of file = Ok INDEX_VERSION
    /\ walk_index ext file
       = WalkYield (new_ExtendedIndexEntry stamp checksum name 12 p)
                   (WalkReturn false).
Proof.
  intros Hx.
  set (x := new_ExtendedIndexEntry stamp checksum name (-1) p) in *.
  exists (index_file ext 2 [x]).
  unfold register_in_minor_index, register_in_index. fold x.
  rewrite (fresh_index_file ext).
  rewrite (write_entry_to_index_file ext x [] Hx eq_refl eq_refl).
  split; [reflexivity|].
  split; [apply entry_count_of_header; reflexivity|].
  split; [apply format_version_of_header; reflexivity|].
  rewrite (walk_index_file ext [x] eq_refl).
  - reflexivity.
  - cbn [forallb]. rewrite (insertable_storable ext x Hx). reflexivity.
Qed.

End FurtherInsertion.
(* ================================================================== *)
(** * Further properties: removal *)

Section FurtherRemoval.

Variable ext : collaborators.

(** The loop over the removed files on a well-formed index, with what it
    counts and logs. *)
Lemma remove_lookup_loop_report (es : list entry) (keys : list str) :
  int_rangeb (Z.of_nat (length es)) = true ->
  forallb (storable ext) es = true ->
  forall (acc : list entry) (n : Z) (p : nat) (lg : list log_event),
  exists p',
    remove_lookup_loop ext keys acc n (mkHandle (index_file ext 2 es) p lg)
    = (Ok (acc ++ first_matches ext keys (place ext 12 es),
           n - Z.of_nat (length keys)
           + Z.of_nat (length (first_matches ext keys (place ext 12 es)))),
       mkHandle (index_file ext 2 es) p'
                (lg ++ removal_log ext keys (place ext 12 es))).
Proof.
  intros R Hs. induction keys as [|k keys IH]; intros acc n p lg.
  - exists p. cbn [remove_lookup_loop first_matches removal_log length].
    rewrite !app_nil_r. unfold ret. do 3 f_equal. lia.
  - cbn [remove_lookup_loop first_matches removal_log]. unfold bind at 1.
    unfold catch_not_found. unfold bind at 1.
    rewrite (lookup_entry_within_index_file ext _ _ es
               (mkHandle (index_file ext 2 es) p lg) R Hs eq_refl).
    destruct (find (lookup_function ext k) (place ext 12 es)) as [f|].
    + unfold bind at 1. unfold perun_log at 1.
      unfold set_pos. cbn [ret fst snd pos content log].
      match goal with
      | |- context [mkHandle _ ?q (lg ++ _)] =>
          destruct (IH (acc ++ [f]) n q
                      (lg ++ [LogMinorSuccess_deregistered (path f)]))
            as (p' & E)
      end.
      exists p'. rewrite E. rewrite <- !app_assoc. cbn [app length].
      do 3 f_equal. lia.
    + unfold bind at 1. unfold perun_log at 1.
      unfold set_pos. cbn [ret fst snd pos content log].
      match goal with
      | |- context [mkHandle _ ?q (lg ++ _)] =>
          destruct (IH acc (n - 1) q (lg ++ [LogMinorFail_not_found k]))
            as (p' & E)
      end.
      exists p'. rewrite E. rewrite <- !app_assoc. cbn [app length].
      do 3 f_equal. lia.
Qed.

(** [remove_from_index] on a well-formed index, with what it logs. *)
Lemma remove_from_index_report (es : list entry) (keys : list str) :
  keys <> [] ->
  forallb (storable ext) es = true ->
  int_rangeb (Z.of_nat (length es)) = true ->
  int_rangeb (Z.of_nat (length keys)) = true ->
  remove_from_index ext (index_file ext 2 es) keys
  = (Ok tt,
     header 2 (Z.of_nat (length es)
               - Z.of_nat (length (first_matches ext keys
                                     (place ext 12 es))))
     ++ body ext (filter (kept (first_matches ext keys (place ext 12 es)))
                         (place ext 12 es)),
     [LogMajorInfo (lit "Removing from index")]
     ++ removal_log ext keys (place ext 12 es)
     ++ [LogMajorInfo (lit "Summary");
         if Z.of_nat (length (first_matches ext keys (place ext 12 es)))
            =? 0
         then LogMinorInfo_nothing_to_remove
         else LogMinorStatus_removal_succeeded
                (Z.of_nat (length (first_matches ext keys
                                     (place ext 12 es))))]).
Proof.
  intros Hk Hs Re Rk.
  set (walked := place ext 12 es).
  set (removed := first_matches ext keys walked).
  unfold remove_from_index.
  destruct (Z.eqb_spec (Z.of_nat (length keys)) 0) as [E|_].
  { destruct keys; [congruence|discriminate]. }
  unfold with_open_rb_plus. unfold bind at 1. unfold perun_log at 1.
  cbn [content pos log app].
  unfold remove_from_index_handle. unfold bind at 1.
  rewrite (walk_index_list_file ext es
             (mkHandle (index_file ext 2 es) 0
                       [LogMajorInfo (lit "Removing from index")])
             Re Hs eq_refl).
  rewrite (sort_by_offset_place ext es 12 Hs). fold walked.
  unfold bind at 1. unfold set_pos. cbn [content pos log].
  destruct (remove_lookup_loop_report es keys Re Hs []
              (Z.of_nat (length keys)) (length (index_file ext 2 es))
              [LogMajorInfo (lit "Removing from index")]) as (p' & El).
  rewrite El. clear El.
  fold walked. fold removed. cbn [fst snd app].
  replace (Z.of_nat (length keys) - Z.of_nat (length keys)
           + Z.of_nat (length removed))
    with (Z.of_nat (length removed)) by lia.
  unfold bind at 1. change INDEX_NUMBER_OF_ENTRIES_OFFSET with (Z.of_nat 8).
  rewrite seek_nat. unfold bind at 1.
  assert (Rc : int_rangeb (Z.of_nat (length walked)
                           - Z.of_nat (length removed)) = true).
  { pose proof (first_matches_length ext keys walked) as Lr. fold removed in Lr.
    unfold walked. rewrite (place_length ext).
    apply int_rangeb_true in Re, Rk. apply int_rangeb_true. lia. }
  rewrite (writes_write_int _ Rc).
  rewrite write_inside
    by (cbn [set_pos pos content]; rewrite (index_file_length ext); lia).
  cbn [set_pos pos content log]. unfold bind at 1.
  rewrite (writes_kept ext walked removed (place_valid ext es 12 Hs)).
  set (bk := body ext (filter (kept removed) walked)).
  rewrite (index_file_shape ext).
  assert (E8 : firstn 8 (INDEX_MAGIC_PREFIX ++ int_bytes 2
                         ++ int_bytes (Z.of_nat (length es)) ++ body ext es)
               = INDEX_MAGIC_PREFIX ++ int_bytes 2).
  { rewrite app_assoc. apply firstn_exact. reflexivity. }
  assert (E12 : skipn (8 + length (int_bytes (Z.of_nat (length walked)
                                              - Z.of_nat (length removed))))
                  (INDEX_MAGIC_PREFIX ++ int_bytes 2
                   ++ int_bytes (Z.of_nat (length es)) ++ body ext es)
                = body ext es).
  { rewrite int_bytes_length.
    rewrite (app_assoc INDEX_MAGIC_PREFIX), (app_assoc (_ ++ _)).
    apply skipn_exact. reflexivity. }
  rewrite E8, E12. rewrite int_bytes_length.
  set (hd := (INDEX_MAGIC_PREFIX ++ int_bytes 2)
             ++ int_bytes (Z.of_nat (length walked)
                           - Z.of_nat (length removed))).
  assert (Lhd : length hd = 12%nat) by reflexivity.
  rewrite (app_assoc (INDEX_MAGIC_PREFIX ++ int_bytes 2)). fold hd.
  rewrite write_inside by (cbn [pos content]; rewrite length_app; lia).
  cbn [pos content log].
  rewrite (firstn_exact hd (body ext es) (8 + 4) Lhd).
  unfold bind at 1. unfold truncate at 1. cbn [set_content pos content log].
  unfold ret.
  assert (Et : firstn (8 + 4 + length bk)
                 (hd ++ bk ++ skipn (8 + 4 + length bk) (hd ++ body ext es))
               = hd ++ bk).
  { rewrite app_assoc. apply firstn_exact. rewrite length_app. lia. }
  rewrite Et.
  replace (8 + 4 + length bk
           - length (hd ++ bk ++ skipn (8 + 4 + length bk)
                                       (hd ++ body ext es)))%nat
    with 0%nat by (rewrite !length_app; lia).
  cbn [repeat]. rewrite app_nil_r.
  cbn [set_content content log app]. f_equal. f_equal.
  unfold hd, header, walked. rewrite (place_length ext), <- !app_assoc.
  reflexivity.
Qed.

Lemma body_place (es : list entry) :
  forall start, body ext (place ext start es) = body ext es.
Proof.
  induction es as [|e es IH]; intros start; [reflexivity|].
  cbn [place]. rewrite !(body_cons ext), IH. reflexivity.
Qed.

Lemma find_none_all {A} (f : A -> bool) (l : list A) :
  (forall x, In x l -> f x = false) -> find f l = None.
Proof.
  induction l as [|a l IH]; intros H; [reflexivity|].
  cbn [find]. rewrite (H a (or_introl eq_refl)).
  apply IH. intros x Hx. apply H. right. exact Hx.
Qed.

Lemma lookup_function_place (k : str) (es : list entry) (start : nat)
  (y : entry) :
  In y (place ext start es) ->
  exists e, In e es /\ lookup_function ext k y = lookup_function ext k e.
Proof.
  intros H. destruct (place_in ext es start y H) as (e & Hin & Hp & _ & Hc).
  exists e. split; [exact Hin|]. unfold lookup_function.
  rewrite Hp, Hc. reflexivity.
Qed.

Lemma filter_kept_nil (l : list entry) : filter (kept []) l = l.
Proof.
  induction l as [|e l IH]; [reflexivity|].
  cbn [filter kept entry_in existsb negb]. rewrite IH. reflexivity.
Qed.

(** X11.  Keys that match nothing.  When no key of a non-empty collection
    matches a record of a well-formed index, [remove_from_index] returns
    and leaves the file as it was, byte for byte; every key is reported as
    not found and the summary says that there was nothing to remove. *)
Theorem remove_from_index_no_match (es : list entry) (keys : list str) :
  keys <> [] ->
  forallb (storable ext) es = true ->
  int_rangeb (Z.of_nat (length es)) = true ->
  int_rangeb (Z.of_nat (length keys)) = true ->
  (forall k e, In k keys -> In e es -> lookup_function ext k e = false) ->
  remove_from_index ext (index_file ext 2 es) keys
  = (Ok tt, index_file ext 2 es,
     [LogMajorInfo (lit "Removing from index")]
     ++ map LogMinorFail_not_found keys
     ++ [LogMajorInfo (lit "Summary"); LogMinorInfo_nothing_to_remove]).
Proof.
  intros Hk Hs Re Rk N.
  rewrite (remove_from_index_report es keys Hk Hs Re Rk).
  assert (F : forall k, In k keys ->
                        find (lookup_function ext k) (place ext 12 es) = None).
  { intros k Hkin. apply find_none_all. intros y Hy.
    destruct (lookup_function_place k es 12 y Hy) as (e & Hin & ->).
    apply N; assumption. }
  assert (E : first_matches ext keys (place ext 12 es) = []
              /\ removal_log ext keys (place ext 12 es)
                 = map LogMinorFail_not_found keys).
  { clear Hk Rk N. induction keys as [|k keys IH]; [split; reflexivity|].
    cbn [first_matches removal_log map].
    rewrite (F k (or_introl eq_refl)).
    destruct IH as [E1 E2]; [intros k' Hk'; apply F; right; exact Hk'|].
    rewrite E1, E2. split; reflexivity. }
  destruct E as [E1 E2]. rewrite E1, E2.
  rewrite filter_kept_nil, body_place. cbn [length Z.of_nat Z.eqb].
  rewrite Z.sub_0_r. reflexivity.
Qed.

(** *** Keys with different matches *)








(** *** A registration and its removal *)

Lemma place_app (a b : list entry) :
  forall start,
    place ext start (a ++ b)
    = place ext start a ++ place ext (start + length (body ext a)) b.
Proof.
  induction a as [|e a IH]; intros start.
  - cbn [app place body map concat length]. rewrite Nat.add_0_r.
    reflexivity.
  - cbn [app place]. rewrite IH, (body_cons ext), length_app.
    rewrite Nat.add_assoc. reflexivity.
Qed.

Lemma find_place_split (f : entry -> bool) (x : entry)
  (pre post : list entry) :
  (forall e o, f (set_offset e o) = f e) ->
  (forall e, In e pre -> f e = false) ->
  f x = true ->
  forall start,
    find f (place ext start (pre ++ x :: post))
    = Some (set_offset x (Z.of_nat (start + length (body ext pre)))).
Proof.
  intros Ho Hpre Hx. induction pre as [|e pre IH]; intros start.
  - cbn [app place find body map concat length].
    rewrite Ho, Hx, Nat.add_0_r. reflexivity.
  - cbn [app place find]. rewrite Ho, (Hpre e (or_introl eq_refl)).
    rewrite IH by (intros y Hy; apply Hpre; right; exact Hy).
    rewrite (body_cons ext), length_app, Nat.add_assoc. reflexivity.
Qed.

Lemma filter_kept_other_paths (r : entry) (l : list entry) :
  (forall y, In y l -> path y <> path r) -> filter (kept [r]) l = l.
Proof.
  induction l as [|y l IH]; intros H; [reflexivity|].
  cbn [filter]. unfold kept at 1. cbn [entry_in existsb].
  assert (E : entry_eqb y r = false).
  { unfold entry_eqb.
    assert (P : bytes_eqb (path y) (path r) = false)
      by (apply bytes_eqb_false, H; left; reflexivity).
    rewrite P. rewrite !andb_false_r. reflexivity. }
  rewrite E. cbn [orb negb].
  rewrite IH by (intros z Hz; apply H; right; exact Hz). reflexivity.
Qed.

Lemma place_paths (l : list entry) (start : nat) (r : str) :
  (forall e, In e l -> path e <> r) ->
  forall y, In y (place ext start l) -> path y <> r.
Proof.
  intros H y Hy. destruct (place_in ext l start y Hy) as (e & Hin & -> & _).
  apply H, Hin.
Qed.

Lemma entry_eqb_refl (e : entry) : entry_eqb e e = true.
Proof.
  unfold entry_eqb. rewrite !bytes_eqb_refl, Z.eqb_refl.
  assert (T : str_list_eqb (postprocessors e) (postprocessors e) = true)
    by (apply str_list_eqb_true; reflexivity).
  rewrite T. reflexivity.
Qed.

(** X13.  A registration and its removal.  When no record of a
    well-formed index has the path of the entry and this path does not
    look like a checksum, [write_entry_to_index] with the entry (valid,
    with the offset [-1]) followed by [remove_from_index] with its path as
    the only key gives back the file from before the registration, byte
    for byte. *)
Theorem write_entry_then_remove (x : entry) (es : list entry) :
  insertable ext x = true ->
  forallb (storable ext) es = true ->
  int_rangeb (Z.of_nat (length es) + 1) = true ->
  (forall e, In e es -> path e <> path x) ->
  is_sha1 ext (path x) = false ->
  exists file lg,
    write_entry_to_index ext (index_file ext 2 es) x = (Ok tt, file, [])
    /\ remove_from_index ext file [path x]
       = (Ok tt, index_file ext 2 es, lg).
Proof.
  intros Hx Hs R Np Sha.
  assert (N : forall e, In e es -> key_compare x e <> Eq).
  { intros e Hin E. apply key_compare_eq in E. destruct E as [E _].
    apply (Np e Hin). symmetry. exact E. }
  destruct (insert_entry_some x es N) as (es' & I).
  destruct (insert_entry_split x es es' I) as (pre & post & Ees & Ees' & _).
  pose proof (insert_entry_length x es es' I) as L.
  assert (Hs' : forallb (storable ext) es' = true)
    by (apply (insert_entry_storable ext x es es'
                 (insertable_storable ext x Hx) Hs I)).
  assert (R' : int_rangeb (Z.of_nat (length es')) = true).
  { apply int_rangeb_true in R. apply int_rangeb_true. lia. }
  exists (index_file ext 2 es'). eexists. split.
  { rewrite (write_entry_to_index_file ext x es Hx Hs R), I. reflexivity. }
  rewrite (remove_from_index_report es' [path x]
             ltac:(discriminate) Hs' R' eq_refl).
  assert (Np' : forall e, In e pre \/ In e post -> path e <> path x).
  { intros e He. apply Np. rewrite Ees. apply in_or_app. exact He. }
  assert (F : find (lookup_function ext (path x)) (place ext 12 es')
              = Some (set_offset x (Z.of_nat (12 + length (body ext pre))))).
  { rewrite Ees'. apply find_place_split.
    - intros e o. reflexivity.
    - intros e He. unfold lookup_function. rewrite Sha.
      apply bytes_eqb_false, Np'. left. exact He.
    - unfold lookup_function. rewrite Sha. apply bytes_eqb_refl. }
  cbn [first_matches]. rewrite F. cbn [length Z.of_nat Pos.of_succ_nat].
  set (r := set_offset x (Z.of_nat (12 + length (body ext pre)))).
  assert (K : body ext (filter (kept [r]) (place ext 12 es'))
              = body ext es).
  { rewrite Ees', place_app. cbn [place]. fold r.
    rewrite !filter_app. cbn [filter]. unfold kept at 2.
    cbn [entry_in existsb]. rewrite entry_eqb_refl. cbn [orb negb].
    rewrite !filter_kept_other_paths.
    - rewrite (body_app ext), !body_place, Ees, (body_app ext). reflexivity.
    - apply place_paths. intros e He. apply Np'. right. exact He.
    - apply place_paths. intros e He. apply Np'. left. exact He. }
  rewrite K. unfold index_file. rewrite L.
  replace (Z.of_nat (S (length es)) - 1) with (Z.of_nat (length es)) by lia.
  reflexivity.
Qed.

End FurtherRemoval.
(* ================================================================== *)
(** * Further properties: indexes of the first generation *)

Section OlderIndexes.

Variable ext : collaborators.

(** The step of the walker on a record of the first generation, in the
    terms of [upgraded_at]. *)
Lemma read_older_record (e : entry) (h : handle) (rest : bytes) :
  valid_common ext e ->
  rest_of h = basic_bytes ext e ++ rest ->
  ExtendedIndexEntry_read_from ext SlowLorris h
  = (upgraded_at ext (Z.of_nat (pos h)) e,
     set_pos h (pos h + length (basic_bytes ext e))).
Proof.
  intros V Hr.
  unfold ExtendedIndexEntry_read_from.
  cbn [version_value Z.gtb Z.compare Pos.compare Pos.compare_cont].
  unfold ExtendedIndexEntry_read_from_older_index. unfold bind at 1.
  rewrite (read_basic ext e h rest V Hr).
  cbn [new_BasicIndexEntry time checksum path offset].
  unfold bind at 1, upgraded_at.
  destruct (load_profile_of_checksum ext (checksum e)); reflexivity.
Qed.

(** X14.  A record of the first generation read by the current reader.
    With the version 1, [ExtendedIndexEntry.read_from] reads the time, the
    checksum and the path of the basic record and takes the other fields
    from the profile that the object store has under the checksum (a
    profile without a workload gives the empty workload); the entry has
    the offset of the record.  When the profile cannot be loaded, the
    exception escapes. *)
Theorem read_from_older_index (e : entry) (h : handle) (rest : bytes) :
  valid_common ext e ->
  rest_of h = basic_bytes ext e ++ rest ->
  ExtendedIndexEntry_read_from ext SlowLorris h
  = match load_profile_of_checksum ext (checksum e) with
    | Ok p =>
        (Ok (new_ExtendedIndexEntry (time e) (checksum e) (path e)
                                    (Z.of_nat (pos h)) p),
         set_pos h (pos h + length (basic_bytes ext e)))
    | Raise x => (Raise x, set_pos h (pos h + length (basic_bytes ext e)))
    end.
Proof.
  intros V Hr.
  rewrite (read_older_record e h rest V Hr).
  unfold upgraded_at.
  destruct (load_profile_of_checksum ext (checksum e)); reflexivity.
Qed.

Lemma upgradable_spec (e : entry) :
  upgradable ext e = true ->
  valid_common ext e
  /\ exists p, load_profile_of_checksum ext (checksum e) = Ok p
               /\ forall o, storable ext
                              (new_ExtendedIndexEntry (time e) (checksum e)
                                 (path e) o p) = true.
Proof.
  unfold upgradable, upgraded_at, valid_common.
  rewrite !andb_true_iff. intros [[[Vt Vc] Vp] U].
  split; [auto|].
  destruct (load_profile_of_checksum ext (checksum e)) as [p|];
    [|discriminate].
  exists p. split; [reflexivity|]. intros o. exact U.
Qed.

Lemma upgraded_from_length (es : list entry) :
  forall start,
    forallb (upgradable ext) es = true ->
    length (upgraded_from ext start es) = length es.
Proof.
  induction es as [|e es IH]; intros start H; [reflexivity|].
  cbn [forallb] in H. apply andb_true_iff in H. destruct H as [He Hs].
  destruct (upgradable_spec e He) as (_ & p & Ep & _).
  cbn [upgraded_from]. unfold upgraded_at. rewrite Ep. cbn [length].
  rewrite IH by exact Hs. reflexivity.
Qed.

Lemma upgraded_from_storable (es : list entry) :
  forall start,
    forallb (upgradable ext) es = true ->
    forallb (storable ext) (upgraded_from ext start es) = true.
Proof.
  induction es as [|e es IH]; intros start H; [reflexivity|].
  cbn [forallb] in H. apply andb_true_iff in H. destruct H as [He Hs].
  destruct (upgradable_spec e He) as (_ & p & Ep & St).
  cbn [upgraded_from]. unfold upgraded_at. rewrite Ep. cbn [forallb].
  rewrite St, IH by exact Hs. reflexivity.
Qed.

Lemma walk_loop_old (es : list entry) :
  forall (todo : nat) (h : handle) (tail : bytes),
    forallb (upgradable ext) es = true ->
    rest_of h = concat (map (basic_bytes ext) es) ++ tail ->
    (length tail < 25)%nat ->
    walk_loop ext (Z.of_nat (length (content h))) 1 todo h
    = walk_of (upgraded_from ext (pos h) (firstn todo es))
              (WalkReturn (length es <? todo)%nat).
Proof.
  induction es as [|e es IH]; intros todo h tail Hs Hr Ht.
  - destruct todo as [|todo]; [reflexivity|].
    cbn [walk_loop firstn upgraded_from walk_of fold_right length].
    pose proof (rest_of_length h) as L. rewrite Hr in L. simpl in L.
    destruct (Z.ltb_spec (Z.of_nat (pos h) + 24)
                         (Z.of_nat (length (content h)))); [lia|].
    reflexivity.
  - destruct todo as [|todo]; [reflexivity|].
    cbn [forallb] in Hs. apply andb_true_iff in Hs. destruct Hs as [He Hs].
    destruct (upgradable_spec e He) as (V & p & Ep & _).
    cbn [map concat] in Hr. rewrite <- app_assoc in Hr.
    pose proof (basic_bytes_length ext e V) as Le.
    pose proof (rest_of_length h) as L. rewrite Hr, length_app in L.
    cbn [walk_loop].
    destruct (Z.ltb_spec (Z.of_nat (pos h) + 24)
                         (Z.of_nat (length (content h)))); [|lia].
    unfold bind at 1. cbn [IndexVersion_of Z.eqb Pos.eqb lift ret].
    cbn [read_from entry_constructor].
    rewrite (read_older_record e h _ V Hr).
    cbn [firstn upgraded_from]. unfold upgraded_at. rewrite Ep.
    cbn [walk_of fold_right length]. f_equal.
    change (length (content h))
      with (length (content (set_pos h (pos h + length (basic_bytes ext e))))).
    rewrite (IH todo _ tail Hs (rest_of_advance _ _ _ Hr) Ht).
    reflexivity.
Qed.

(** The walker on an index of version 1. *)
Lemma walk_index_old_file (es : list entry) :
  int_rangeb (Z.of_nat (length es)) = true ->
  forallb (upgradable ext) es = true ->
  walk_index ext (old_index_file ext es)
  = walk_of (upgraded_from ext 12 es) (WalkReturn false).
Proof.
  intros R Hs. unfold old_index_file.
  rewrite walk_index_header by (reflexivity || exact R).
  cbn [INDEX_VERSION Z.gtb Z.compare Pos.compare Pos.compare_cont].
  destruct (Z.ltb_spec (Z.of_nat (length es)) 0); [lia|].
  pose proof (walk_loop_old es (Z.to_nat (Z.of_nat (length es)))
                (mkHandle (header 1 (Z.of_nat (length es))
                           ++ concat (map (basic_bytes ext) es)) 12 [])
                [] Hs) as W.
  cbn [pos content] in W. rewrite W.
  - rewrite firstn_length_all, Nat2Z.id, Nat.ltb_irrefl. reflexivity.
  - unfold rest_of. cbn [pos content]. rewrite app_nil_r.
    apply skipn_exact. reflexivity.
  - simpl. lia.
Qed.

(** What [get_profile_list_for_minor] reads before it decides about the
    upgrade. *)
Lemma read_version_and_list (v : Z) (c : Z) (b : bytes) (l : list entry) :
  int_rangeb v = true ->
  walk_index ext (header v c ++ b) = walk_of l (WalkReturn false) ->
  with_open_rb_plus (header v c ++ b)
    (seek 4 ;;;
     index_version <- read_int_from_handle ;;
     result <- walk_index_list ext ;;
     ret (index_version, result))
  = (Ok (v, l), header v c ++ b, []).
Proof.
  intros R W. unfold with_open_rb_plus. unfold bind at 1.
  change 4 with (Z.of_nat 4). rewrite seek_nat. unfold bind at 1.
  rewrite (parses_read_int v R _ (int_bytes c ++ b)).
  - unfold bind at 1. unfold walk_index_list, on_walked_handle.
    cbn [set_pos pos content log].
    rewrite W, list_of_walk_walk_of. reflexivity.
  - unfold rest_of, header. cbn [set_pos pos content].
    rewrite <- !app_assoc. apply skipn_exact. reflexivity.
Qed.

(** X15.  Reading the list of a minor version.  From a well-formed index
    of the current version, [get_profile_list_for_minor] returns the
    records with their offsets and leaves the file as it is; without an
    index it returns the empty list and creates nothing. *)
Theorem get_profile_list_for_minor_current (es : list entry) :
  forallb (storable ext) es = true ->
  int_rangeb (Z.of_nat (length es)) = true ->
  get_profile_list_for_minor ext (Some (index_file ext 2 es))
  = (Ok (place ext 12 es), Some (index_file ext 2 es), [])
  /\ get_profile_list_for_minor ext None = (Ok [], None, []).
Proof.
  intros Hs R. split; [|reflexivity].
  unfold get_profile_list_for_minor, index_file.
  rewrite (read_version_and_list 2 _ _ (place ext 12 es) eq_refl
             (walk_index_file ext es R Hs)).
  reflexivity.
Qed.

(** X16.  Reading upgrades an old index.  From an index of version 1 whose
    basic records are valid and whose profiles the object store has,
    [get_profile_list_for_minor] returns the extended entries, built from
    the records and their profiles, and rewrites the file: afterwards it
    is the well-formed index of the current version with these entries, so
    that a walk yields them again, now without the object store, at the
    offsets of the new records. *)
Theorem get_profile_list_for_minor_upgrades (es : list entry) :
  forallb (upgradable ext) es = true ->
  int_rangeb (Z.of_nat (length es)) = true ->
  exists file,
    get_profile_list_for_minor ext (Some (old_index_file ext es))
    = (Ok (upgraded_from ext 12 es), Some file, [])
    /\ format_version_of (old_index_file ext es) = Ok 1
    /\ format_version_of file = Ok INDEX_VERSION
    /\ entry_count_of file = Ok (Z.of_nat (length es))
    /\ walk_index ext file
       = walk_of (place ext 12 (upgraded_from ext 12 es)) (WalkReturn false).
Proof.
  intros Hs R.
  set (l := upgraded_from ext 12 es).
  assert (Ll : length l = length es) by (apply upgraded_from_length, Hs).
  assert (Sl : forallb (storable ext) l = true)
    by (apply upgraded_from_storable, Hs).
  assert (Rl : int_rangeb (Z.of_nat (length l)) = true)
    by (rewrite Ll; exact R).
  exists (index_file ext 2 l).
  split.
  { unfold get_profile_list_for_minor, old_index_file.
    rewrite (read_version_and_list 1 _ _ l eq_refl
               (walk_index_old_file es R Hs)).
    cbn [INDEX_VERSION Z.ltb Z.compare Pos.compare Pos.compare_cont].
    rewrite (write_list_of_entries_file ext l Sl Rl). reflexivity. }
  split; [apply format_version_of_header; reflexivity|].
  split; [apply format_version_of_header; reflexivity|].
  split; [rewrite <- Ll; apply entry_count_of_header, Rl|].
  apply walk_index_file; assumption.
Qed.

End OlderIndexes.
(* ================================================================== *)
(** * Further properties: the header fields, the counts by type and the
    auxiliary index *)

(** X17.  The counter is patched in place.  On any file that is at least
    12 bytes long, [modify_number_of_entries_in_index] replaces the four
    bytes at the offset 8 by the modified number and changes no other
    byte; the cursor is left behind the counter. *)
Theorem modify_number_of_entries_frame (modify : Z -> Z)
  (front count_bytes back : bytes) (count : Z) (p : nat)
  (lg : list log_event) :
  length front = 8%nat -> length count_bytes = 4%nat ->
  unpack_i count_bytes = Ok count ->
  int_rangeb (modify count) = true ->
  modify_number_of_entries_in_index modify
    (mkHandle (front ++ count_bytes ++ back) p lg)
  = (Ok tt, mkHandle (front ++ int_bytes (modify count) ++ back) 12 lg)
  /\ entry_count_of (front ++ int_bytes (modify count) ++ back)
     = Ok (modify count).
Proof.
  intros Lf Lc U R. split; [apply modify_number_spec; assumption|].
  unfold entry_count_of. unfold bind at 1.
  change INDEX_NUMBER_OF_ENTRIES_OFFSET with (Z.of_nat 8). rewrite seek_nat.
  rewrite (parses_read_int _ R _ back); [reflexivity|].
  unfold rest_of. cbn [set_pos pos content]. apply skipn_exact, Lf.
Qed.

(** When the modified number does not fit the four bytes, nothing is
    written. *)
Lemma modify_number_overflow (modify : Z -> Z)
  (front count_bytes back : bytes) (count : Z) (p : nat)
  (lg : list log_event) :
  length front = 8%nat -> length count_bytes = 4%nat ->
  unpack_i count_bytes = Ok count ->
  int_rangeb (modify count) = false ->
  modify_number_of_entries_in_index modify
    (mkHandle (front ++ count_bytes ++ back) p lg)
  = (Raise StructError, mkHandle (front ++ count_bytes ++ back) 8 lg).
Proof.
  intros Lf Lc U R. unfold modify_number_of_entries_in_index.
  unfold bind at 1. change INDEX_NUMBER_OF_ENTRIES_OFFSET with (Z.of_nat 8).
  rewrite seek_nat. unfold bind at 1. unfold read_int_from_handle.
  unfold bind at 1.
  assert (Hr : rest_of (set_pos (mkHandle (front ++ count_bytes ++ back) p lg) 8)
               = count_bytes ++ back).
  { unfold rest_of. cbn [set_pos pos content]. apply skipn_exact, Lf. }
  rewrite (parses_read 4 count_bytes Lc _ _ Hr). rewrite U.
  cbn [lift ret]. unfold bind at 1. rewrite seek_nat.
  unfold write_int, bind. rewrite (pack_i_out_of_range _ R).
  reflexivity.
Qed.

(** X18.  The version is patched in place.  On any file that is at least
    8 bytes long, [update_index_version] replaces the four bytes at the
    offset 4 by the current version, whatever they were, changes no other
    byte and puts the cursor back where it was. *)
Theorem update_index_version_frame (magic version_bytes back : bytes)
  (p : nat) (lg : list log_event) :
  length magic = 4%nat -> length version_bytes = 4%nat ->
  update_index_version (mkHandle (magic ++ version_bytes ++ back) p lg)
  = (Ok tt, mkHandle (magic ++ int_bytes INDEX_VERSION ++ back) p lg)
  /\ format_version_of (magic ++ int_bytes INDEX_VERSION ++ back)
     = Ok INDEX_VERSION.
Proof.
  intros Lm Lv. split; [apply update_index_version_spec; assumption|].
  unfold format_version_of. unfold bind at 1.
  change 4 with (Z.of_nat 4). rewrite seek_nat.
  rewrite (parses_read_int INDEX_VERSION eq_refl _ back); [reflexivity|].
  unfold rest_of. cbn [set_pos pos content]. apply skipn_exact, Lm.
Qed.

Section CounterOverflow.

Variable ext : collaborators.

(** X19.  A counter that cannot grow.  When the header of a file counts
    2147483647 entries, the largest number that fits its four bytes,
    [write_entry_to_index] with an entry that carries an offset raises
    [struct.error] and leaves every byte of the file as it was: the record
    is not written. *)
Theorem write_entry_to_index_counter_full (x : entry)
  (front back : bytes) :
  length front = 8%nat ->
  offset x <> -1 ->
  write_entry_to_index ext (front ++ int_bytes 2147483647 ++ back) x
  = (Raise StructError, front ++ int_bytes 2147483647 ++ back, []).
Proof.
  intros Lf O.
  unfold write_entry_to_index, with_open_rb_plus, write_entry_to_index_handle.
  unfold bind at 1. unfold locate_offset_in_file.
  destruct (Z.eqb_spec (offset x) (-1)) as [E|_]; [contradiction|].
  cbn [ret]. unfold write_entry_at. unfold bind at 1.
  rewrite (modify_number_overflow (fun n => n + 1) front
             (int_bytes 2147483647) back 2147483647 0 [] Lf eq_refl
             (unpack_int_bytes 2147483647 eq_refl) eq_refl).
  reflexivity.
Qed.

End CounterOverflow.

(** *** The numbers of profiles by type *)

Lemma dict_get_set_same (d : dict) (k : str) (v : Z) :
  dict_get (dict_set d k v) k = Some v.
Proof.
  induction d as [|[k' v'] d IH]; cbn [dict_set dict_get].
  - rewrite bytes_eqb_refl. reflexivity.
  - destruct (bytes_eqb k' k) eqn:E; cbn [dict_get]; rewrite E;
      [reflexivity|exact IH].
Qed.

Lemma dict_get_set_other (d : dict) (k k' : str) (v : Z) :
  k' <> k -> dict_get (dict_set d k v) k' = dict_get d k'.
Proof.
  intros N. induction d as [|[k0 v0] d IH]; cbn [dict_set dict_get].
  - assert (E : bytes_eqb k k' = false)
      by (apply bytes_eqb_false; congruence).
    rewrite E. reflexivity.
  - destruct (bytes_eqb k0 k) eqn:E; cbn [dict_get].
    + apply bytes_eqb_true in E. subst k0.
      assert (E' : bytes_eqb k k' = false)
        by (apply bytes_eqb_false; congruence).
      rewrite E'. reflexivity.
    + destruct (bytes_eqb k0 k'); [reflexivity|exact IH].
Qed.

Lemma str_in_spec (k : str) (keys : list str) :
  str_in k keys = true <-> In k keys.
Proof.
  unfold str_in. rewrite existsb_exists. split.
  - intros (y & Hy & E). apply bytes_eqb_true in E. subst y. exact Hy.
  - intros H. exists k. split; [exact H|apply bytes_eqb_refl].
Qed.

Lemma dict_get_zeros_from (keys : list str) :
  forall (d : dict) (k : str),
    dict_get (fold_left (fun d k => dict_set d k 0) keys d) k
    = if str_in k keys then Some 0 else dict_get d k.
Proof.
  induction keys as [|k0 keys IH]; intros d k; [reflexivity|].
  cbn [fold_left]. rewrite IH. unfold str_in. cbn [existsb].
  fold (str_in k keys).
  destruct (str_in k keys); [rewrite orb_true_r; reflexivity|].
  rewrite orb_false_r. destruct (bytes_eqb k k0) eqn:E.
  - apply bytes_eqb_true in E. subst k0. apply dict_get_set_same.
  - apply dict_get_set_other. apply bytes_eqb_false, E.
Qed.

Lemma dict_get_zeros (keys : list str) (k : str) :
  dict_get (dict_zeros keys) k = if str_in k keys then Some 0 else None.
Proof. unfold dict_zeros. rewrite dict_get_zeros_from. reflexivity. Qed.

Section ProfileNumbers.

Variable ext : collaborators.
Variable SUPPORTED_PROFILE_TYPES : list str.

Lemma count_profile_types_walk_of (l : list entry) :
  forall (numbers : dict) (h : handle),
  exists numbers',
    count_profile_types SUPPORTED_PROFILE_TYPES
      (walk_of l (WalkReturn false)) numbers h
    = (Ok numbers', h)
    /\ forall k, dict_get numbers' k
                 = match dict_get numbers k with
                   | Some n => Some (n + counted SUPPORTED_PROFILE_TYPES k l)
                   | None => None
                   end.
Proof.
  induction l as [|e l IH]; intros numbers h.
  - exists numbers. split; [reflexivity|]. intros k.
    unfold counted, of_type. cbn [filter length Z.of_nat].
    destruct (dict_get numbers k) as [n|]; [|reflexivity].
    destruct (str_in k SUPPORTED_PROFILE_TYPES); rewrite Z.add_0_r;
      reflexivity.
  - cbn [walk_of fold_right count_profile_types].
    fold (walk_of l (WalkReturn false)).
    set (numbers1 :=
           if str_in (type e) SUPPORTED_PROFILE_TYPES
           then match dict_get numbers (type e) with
                | Some n => dict_set numbers (type e) (n + 1)
                | None => numbers
                end
           else numbers).
    destruct (IH numbers1 h) as (numbers' & E & G).
    exists numbers'. split; [exact E|]. intros k. rewrite G.
    unfold counted, of_type. cbn [filter].
    destruct (bytes_eqb (type e) k) eqn:T.
    + apply bytes_eqb_true in T. subst k. unfold numbers1.
      destruct (str_in (type e) SUPPORTED_PROFILE_TYPES).
      * destruct (dict_get numbers (type e)) as [n|] eqn:Dn.
        -- rewrite dict_get_set_same. cbn [length]. f_equal. lia.
        -- rewrite Dn. reflexivity.
      * destruct (dict_get numbers (type e)); reflexivity.
    + assert (N : k <> type e) by (apply bytes_eqb_false in T; congruence).
      assert (D : dict_get numbers1 k = dict_get numbers k).
      { unfold numbers1.
        destruct (str_in (type e) SUPPORTED_PROFILE_TYPES); [|reflexivity].
        destruct (dict_get numbers (type e)); [|reflexivity].
        apply dict_get_set_other, N. }
      rewrite D. reflexivity.
Qed.

Lemma of_type_place (t : str) (es : list entry) :
  forall start,
    length (of_type t (place ext start es)) = length (of_type t es).
Proof.
  unfold of_type. induction es as [|e es IH]; intros start; [reflexivity|].
  cbn [place filter type set_offset].
  destruct (bytes_eqb (type e) t); cbn [length]; rewrite IH; reflexivity.
Qed.

(** X20.  The numbers of profiles by type.  For a well-formed index,
    [get_profile_number_for_minor] returns a dictionary in which ["all"]
    is the number of entries of the header, which is the number of
    records, every supported type has the number of records of this type,
    and there is no other key (["all"] being no supported type).  Records
    of a type that is not supported are counted under ["all"] only. *)
Theorem get_profile_number_for_minor_counts (es : list entry) :
  forallb (storable ext) es = true ->
  int_rangeb (Z.of_nat (length es)) = true ->
  str_in (lit "all") SUPPORTED_PROFILE_TYPES = false ->
  exists numbers,
    get_profile_number_for_minor ext SUPPORTED_PROFILE_TYPES
                                 (Some (index_file ext 2 es))
    = (Ok numbers, [])
    /\ dict_get numbers (lit "all") = Some (Z.of_nat (length es))
    /\ (forall t, str_in t SUPPORTED_PROFILE_TYPES = true ->
                  dict_get numbers t
                  = Some (Z.of_nat (length (of_type t es))))
    /\ (forall k, k <> lit "all" ->
                  str_in k SUPPORTED_PROFILE_TYPES = false ->
                  dict_get numbers k = None).
Proof.
  intros Hs R A.
  unfold get_profile_number_for_minor, with_open_rb_plus.
  unfold bind at 1. change INDEX_NUMBER_OF_ENTRIES_OFFSET with (Z.of_nat 8).
  rewrite seek_nat. unfold bind at 1.
  rewrite (parses_read_int (Z.of_nat (length es)) R _ (body ext es)).
  2:{ unfold rest_of, index_file, header. cbn [set_pos pos content].
      rewrite <- !app_assoc. rewrite app_assoc.
      apply skipn_exact. reflexivity. }
  cbn [set_pos pos content log].
  rewrite (walk_index_file ext es R Hs).
  set (numbers0 := dict_set (dict_zeros SUPPORTED_PROFILE_TYPES) (lit "all")
                            (Z.of_nat (length es))).
  match goal with
  | |- context [count_profile_types _ _ _ ?h] =>
      destruct (count_profile_types_walk_of (place ext 12 es) numbers0 h)
        as (numbers & E & G)
  end.
  exists numbers. rewrite E. split; [reflexivity|].
  split; [|split].
  - rewrite G. unfold numbers0. rewrite dict_get_set_same.
    unfold counted. rewrite A. rewrite Z.add_0_r. reflexivity.
  - intros t St. rewrite G. unfold numbers0.
    assert (N : t <> lit "all") by (intros ->; congruence).
    rewrite (dict_get_set_other _ _ _ _ N), dict_get_zeros, St.
    unfold counted. rewrite St.
    fold (of_type t (place ext 12 es)). rewrite of_type_place. reflexivity.
  - intros k N Sk. rewrite G. unfold numbers0.
    rewrite (dict_get_set_other _ _ _ _ N), dict_get_zeros, Sk.
    reflexivity.
Qed.

End ProfileNumbers.

(** X21.  Saving and loading the auxiliary index.  When decompressing
    gives back what was compressed and parsing gives back the records that
    were dumped, [load_custom_index] returns the records that
    [save_custom_index] wrote and leaves the file as it is; when the file
    is absent, it creates the file with the empty mapping saved in it and
    returns the empty mapping. *)
Theorem save_then_load_custom_index (json : Type) (empty_dict : json)
  (json_loads : str -> outcome json) (json_dumps : json -> str)
  (read_and_deflate_chunk : bytes -> outcome str)
  (pack_content : bytes -> bytes) (records : json) :
  (forall text, read_and_deflate_chunk (pack_content text) = Ok text) ->
  (forall r, json_loads (json_dumps r) = Ok r) ->
  load_custom_index json empty_dict json_loads json_dumps
    read_and_deflate_chunk pack_content
    (Some (save_custom_index json json_dumps pack_content records))
  = (Ok records, save_custom_index json json_dumps pack_content records)
  /\ load_custom_index json empty_dict json_loads json_dumps
       read_and_deflate_chunk pack_content None
     = (Ok empty_dict,
        save_custom_index json json_dumps pack_content empty_dict).
Proof.
  intros Hz Hj. unfold load_custom_index, save_custom_index.
  rewrite !Hz, !Hj. split; reflexivity.
Qed.
(* ================================================================== *)
(** * Further properties: files that are no index, and the report of a
    removal *)

Section MalformedFiles.

Variable ext : collaborators.

(** X22.  A file that the walker refuses is not touched.  When
    [walk_index] raises [MalformedIndexFileException] for a file, because
    of its magic prefix or its version, [write_entry_to_index] with an
    entry that carries the offset [-1] and [remove_from_index] with a
    non-empty collection of keys raise that exception and leave every byte
    of the file as it was. *)
Theorem malformed_index_is_not_modified (file : bytes)
  (why : malformed_reason) (x : entry) (keys : list str) :
  walk_index ext file = WalkRaise (MalformedIndexFileException why) ->
  offset x = -1 ->
  keys <> [] ->
  write_entry_to_index ext file x
  = (Raise (MalformedIndexFileException why), file, [])
  /\ remove_from_index ext file keys
     = (Raise (MalformedIndexFileException why), file,
        [LogMajorInfo (lit "Removing from index")]).
Proof.
  intros W O Hk. split.
  - unfold write_entry_to_index, with_open_rb_plus,
      write_entry_to_index_handle.
    unfold bind at 1. unfold locate_offset_in_file. rewrite O.
    cbn [Z.eqb Pos.eqb]. unfold catch_not_found. unfold bind at 1.
    unfold lookup_entry_within_index, on_walked_handle. cbn [content].
    rewrite W. reflexivity.
  - unfold remove_from_index.
    destruct (Z.eqb_spec (Z.of_nat (length keys)) 0) as [E|_].
    { destruct keys; [congruence|discriminate]. }
    unfold with_open_rb_plus. unfold bind at 1. unfold perun_log at 1.
    cbn [content pos log app].
    unfold remove_from_index_handle. unfold bind at 1.
    unfold walk_index_list, on_walked_handle. cbn [content]. rewrite W.
    reflexivity.
Qed.

(** X23.  The report of a removal.  On a well-formed index,
    [remove_from_index] with a non-empty collection of keys logs, between
    the two headings, one message for every key in the order of the keys:
    that the record is deregistered, with the path of the first record
    that the key matches, or that the key is not found; the summary then
    gives the number of keys that matched, or says that there was nothing
    to remove when none did. *)
Theorem remove_from_index_reports_each_key (es : list entry)
  (keys : list str) :
  keys <> [] ->
  forallb (storable ext) es = true ->
  int_rangeb (Z.of_nat (length es)) = true ->
  int_rangeb (Z.of_nat (length keys)) = true ->
  exists file,
    remove_from_index ext (index_file ext 2 es) keys
    = (Ok tt, file,
       [LogMajorInfo (lit "Removing from index")]
       ++ removal_log ext keys (place ext 12 es)
       ++ [LogMajorInfo (lit "Summary");
           if Z.of_nat (length (matched_keys ext keys (place ext 12 es)))
              =? 0
           then LogMinorInfo_nothing_to_remove
           else LogMinorStatus_removal_succeeded
                  (Z.of_nat (length (matched_keys ext keys
                                       (place ext 12 es))))])
    /\ length (removal_log ext keys (place ext 12 es)) = length keys.
Proof.
  intros Hk Hs Re Rk. eexists. split.
  - rewrite (remove_from_index_report ext es keys Hk Hs Re Rk).
    rewrite (first_matches_matched ext keys (place ext 12 es)).
    reflexivity.
  - clear. induction keys as [|k keys IH]; [reflexivity|].
    cbn [removal_log length]. rewrite IH. reflexivity.
Qed.

End MalformedFiles.
(* ================================================================== *)
(** * The further properties on concrete indexes *)

Lemma walk_index_wrong_magic_witness :
  firstn 4 not_an_index <> INDEX_MAGIC_PREFIX
  /\ walk_index ext not_an_index
     = WalkRaise (MalformedIndexFileException NotAnIndexFile).
Proof.
  assert (H : firstn 4 not_an_index <> INDEX_MAGIC_PREFIX)
    by (vm_compute; discriminate).
  split; [exact H|]. apply (walk_index_wrong_magic ext not_an_index H).
Defined.

Lemma walk_index_yields_at_most_count_witness :
  entry_count_of index_counting_one_of_two = Ok 1
  /\ (length (yielded (walk_index ext index_counting_one_of_two))
      <= Z.to_nat 1)%nat.
Proof.
  split; [reflexivity|].
  apply (walk_index_yields_at_most_count ext index_counting_one_of_two 1).
  reflexivity.
Defined.

Lemma lookup_all_entries_within_index_file_witness :
  forallb (storable ext) [a_prof; b_prof] = true
  /\ lookup_all_entries_within_index ext (has_key_of b_prof)
       (mkHandle (index_file ext 2 [a_prof; b_prof]) 0 [])
     = (Ok (filter (has_key_of b_prof) (place ext 12 [a_prof; b_prof])),
        mkHandle (index_file ext 2 [a_prof; b_prof])
                 (length (index_file ext 2 [a_prof; b_prof])) [])
  /\ forall (h : handle) (x : exc),
       walk_end (walk_index ext (content h)) = Raise x ->
       fst (lookup_all_entries_within_index ext (has_key_of b_prof) h)
       = Raise x.
Proof.
  split; [reflexivity|].
  apply (lookup_all_entries_within_index_file ext (has_key_of b_prof)
           [a_prof; b_prof] 0 []); reflexivity.
Defined.

Lemma write_list_of_entries_then_walk_witness :
  forallb (storable ext) [a_prof; b_prof] = true
  /\ exists file,
       write_list_of_entries ext [a_prof; b_prof] = (Ok tt, file, [])
       /\ format_version_of file = Ok INDEX_VERSION
       /\ entry_count_of file = Ok (Z.of_nat (length [a_prof; b_prof]))
       /\ yielded (walk_index ext file) = place ext 12 [a_prof; b_prof]
       /\ walk_end (walk_index ext file) = Ok false.
Proof.
  split; [reflexivity|].
  apply (write_list_of_entries_then_walk ext [a_prof; b_prof]); reflexivity.
Defined.

Lemma b_prof_is_new :
  forall e, In e [a_prof] -> key_compare b_prof e <> Eq.
Proof. intros e [<-|[]]. vm_compute. discriminate. Defined.

Lemma write_entry_to_index_keeps_records_witness :
  insertable ext b_prof = true
  /\ exists pre post,
       [a_prof] = pre ++ post
       /\ write_entry_to_index ext (index_file ext 2 [a_prof]) b_prof
          = (Ok tt,
             header 2 (Z.of_nat (length [a_prof]) + 1)
             ++ body ext pre ++ entry_bytes ext b_prof ++ body ext post,
             [])
       /\ (forall e, In e pre -> key_lt e b_prof)
       /\ match post with
          | [] => True
          | e :: _ => key_lt b_prof e
          end.
Proof.
  split; [reflexivity|].
  apply (write_entry_to_index_keeps_records ext b_prof [a_prof]);
    [reflexivity|reflexivity|reflexivity|exact b_prof_is_new].
Defined.

Lemma write_entry_then_lookup_witness :
  insertable ext b_prof = true
  /\ exists pre post file,
       [a_prof] = pre ++ post
       /\ file = header 2 (Z.of_nat (length [a_prof]) + 1)
                 ++ body ext pre ++ entry_bytes ext b_prof ++ body ext post
       /\ write_entry_to_index ext (index_file ext 2 [a_prof]) b_prof
          = (Ok tt, file, [])
       /\ lookup_entry_within_index ext (has_key_of b_prof) (lit "b.prof")
            (mkHandle file 0 [])
          = (Ok (set_offset b_prof (Z.of_nat (12 + length (body ext pre)))),
             mkHandle file
                      (12 + length (body ext pre)
                       + length (entry_bytes ext b_prof))
                      []).
Proof.
  split; [reflexivity|].
  apply (write_entry_then_lookup ext b_prof [a_prof] (lit "b.prof") 0 []);
    [reflexivity|reflexivity|reflexivity|exact b_prof_is_new].
Defined.

Lemma write_entry_to_index_twice_witness :
  (insertable ext b_prof = true /\ StronglySorted key_lt [a_prof])
  /\ exists file lg,
       write_entry_to_index ext (index_file ext 2 [a_prof]) b_prof
       = (Ok tt, file, lg)
       /\ write_entry_to_index ext file b_prof
          = (Ok tt, file,
             [LogWarn_already_registered (path b_prof) (time b_prof)]).
Proof.
  assert (S : StronglySorted key_lt [a_prof]) by (repeat constructor).
  split; [split; [reflexivity|exact S]|].
  apply (write_entry_to_index_twice ext b_prof [a_prof]);
    [reflexivity|reflexivity|reflexivity|exact S].
Defined.

Lemma a_prof_b_prof_differ :
  forall a b, In a [a_prof; b_prof] -> In b [a_prof; b_prof] ->
              key_compare a b = Eq -> a = b.
Proof.
  intros a b [<-|[<-|[]]] [<-|[<-|[]]] E; try reflexivity;
    vm_compute in E; discriminate E.
Defined.

Lemma write_entries_to_index_any_order_witness :
  (Permutation [a_prof; b_prof] [b_prof; a_prof]
   /\ forallb (insertable ext) [a_prof; b_prof] = true)
  /\ write_entries_to_index ext (touch_index None) [a_prof; b_prof]
     = write_entries_to_index ext (touch_index None) [b_prof; a_prof].
Proof.
  assert (P : Permutation [a_prof; b_prof] [b_prof; a_prof])
    by apply perm_swap.
  split; [split; [exact P|reflexivity]|].
  apply (write_entries_to_index_any_order ext [a_prof; b_prof]
           [b_prof; a_prof] P);
    [reflexivity|reflexivity|exact a_prof_b_prof_differ].
Defined.

Lemma register_in_minor_index_first_witness :
  insertable ext
    (new_ExtendedIndexEntry noon sha_1 (lit "a.prof") (-1) a_profile) = true
  /\ exists file,
       register_in_minor_index ext None noon sha_1 (lit "a.prof") a_profile
       = (Ok tt, file, [])
       /\ entry_count_of file = Ok 1
       /\ format_version_of file = Ok INDEX_VERSION
       /\ walk_index ext file
          = WalkYield
              (new_ExtendedIndexEntry noon sha_1 (lit "a.prof") 12 a_profile)
              (WalkReturn false).
Proof.
  split; [reflexivity|].
  apply (register_in_minor_index_first ext noon sha_1 (lit "a.prof")
           a_profile).
  reflexivity.
Defined.

Lemma nothing_matches_zz :
  forall k e, In k [lit "zz.prof"] -> In e [a_prof; b_prof] ->
              lookup_function ext k e = false.
Proof. intros k e [<-|[]] [<-|[<-|[]]]; reflexivity. Defined.

Lemma remove_from_index_no_match_witness :
  ([lit "zz.prof"] <> []
   /\ forallb (storable ext) [a_prof; b_prof] = true)
  /\ remove_from_index ext (index_file ext 2 [a_prof; b_prof])
                       [lit "zz.prof"]
     = (Ok tt, index_file ext 2 [a_prof; b_prof],
        [LogMajorInfo (lit "Removing from index")]
        ++ map LogMinorFail_not_found [lit "zz.prof"]
        ++ [LogMajorInfo (lit "Summary"); LogMinorInfo_nothing_to_remove]).
Proof.
  assert (N : [lit "zz.prof"] <> []) by discriminate.
  split; [split; [exact N|reflexivity]|].
  apply (remove_from_index_no_match ext [a_prof; b_prof] [lit "zz.prof"] N);
    [reflexivity|reflexivity|reflexivity|exact nothing_matches_zz].
Defined.



Lemma no_other_b_prof :
  forall e, In e [a_prof] -> path e <> path b_prof.
Proof. intros e [<-|[]]. vm_compute. discriminate. Defined.

Lemma write_entry_then_remove_witness :
  (insertable ext b_prof = true /\ is_sha1 ext (path b_prof) = false)
  /\ exists file lg,
       write_entry_to_index ext (index_file ext 2 [a_prof]) b_prof
       = (Ok tt, file, [])
       /\ remove_from_index ext file [path b_prof]
          = (Ok tt, index_file ext 2 [a_prof], lg).
Proof.
  split; [split; reflexivity|].
  apply (write_entry_then_remove ext b_prof [a_prof]);
    [reflexivity|reflexivity|reflexivity|exact no_other_b_prof|reflexivity].
Defined.

Lemma a_prof_valid_common : valid_common ext a_prof.
Proof. repeat split. Defined.

Lemma read_from_older_index_witness :
  rest_of (mkHandle old_index_a_b 12 [])
  = basic_bytes ext a_prof ++ basic_bytes ext b_prof
  /\ ExtendedIndexEntry_read_from ext SlowLorris
       (mkHandle old_index_a_b 12 [])
     = match load_profile_of_checksum ext (checksum a_prof) with
       | Ok p =>
           (Ok (new_ExtendedIndexEntry (time a_prof) (checksum a_prof)
                  (path a_prof)
                  (Z.of_nat (pos (mkHandle old_index_a_b 12 []))) p),
            set_pos (mkHandle old_index_a_b 12 [])
                    (pos (mkHandle old_index_a_b 12 [])
                     + length (basic_bytes ext a_prof)))
       | Raise x =>
           (Raise x,
            set_pos (mkHandle old_index_a_b 12 [])
                    (pos (mkHandle old_index_a_b 12 [])
                     + length (basic_bytes ext a_prof)))
       end.
Proof.
  assert (H : rest_of (mkHandle old_index_a_b 12 [])
              = basic_bytes ext a_prof ++ basic_bytes ext b_prof)
    by (vm_compute; reflexivity).
  split; [exact H|].
  apply (read_from_older_index ext a_prof (mkHandle old_index_a_b 12 [])
           (basic_bytes ext b_prof) a_prof_valid_common H).
Defined.

Lemma get_profile_list_for_minor_current_witness :
  forallb (storable ext) [a_prof; b_prof] = true
  /\ get_profile_list_for_minor ext (Some (index_file ext 2 [a_prof; b_prof]))
     = (Ok (place ext 12 [a_prof; b_prof]),
        Some (index_file ext 2 [a_prof; b_prof]), [])
     /\ get_profile_list_for_minor ext None = (Ok [], None, []).
Proof.
  split; [reflexivity|].
  apply (get_profile_list_for_minor_current ext [a_prof; b_prof]);
    reflexivity.
Defined.

Lemma get_profile_list_for_minor_upgrades_witness :
  forallb (upgradable ext) [a_prof; b_prof] = true
  /\ exists file,
       get_profile_list_for_minor ext
         (Some (old_index_file ext [a_prof; b_prof]))
       = (Ok (upgraded_from ext 12 [a_prof; b_prof]), Some file, [])
       /\ format_version_of (old_index_file ext [a_prof; b_prof]) = Ok 1
       /\ format_version_of file = Ok INDEX_VERSION
       /\ entry_count_of file = Ok (Z.of_nat (length [a_prof; b_prof]))
       /\ walk_index ext file
          = walk_of (place ext 12 (upgraded_from ext 12 [a_prof; b_prof]))
                    (WalkReturn false).
Proof.
  split; [reflexivity|].
  apply (get_profile_list_for_minor_upgrades ext [a_prof; b_prof]);
    reflexivity.
Defined.

Lemma modify_number_of_entries_frame_witness :
  unpack_i (int_bytes 1) = Ok 1
  /\ modify_number_of_entries_in_index (fun n => n + 1)
       (mkHandle ((INDEX_MAGIC_PREFIX ++ int_bytes 2) ++ int_bytes 1
                  ++ entry_bytes ext a_prof) 0 [])
     = (Ok tt,
        mkHandle ((INDEX_MAGIC_PREFIX ++ int_bytes 2) ++ int_bytes (1 + 1)
                  ++ entry_bytes ext a_prof) 12 [])
     /\ entry_count_of ((INDEX_MAGIC_PREFIX ++ int_bytes 2)
                        ++ int_bytes (1 + 1) ++ entry_bytes ext a_prof)
        = Ok (1 + 1).
Proof.
  split; [reflexivity|].
  apply (modify_number_of_entries_frame (fun n => n + 1)
           (INDEX_MAGIC_PREFIX ++ int_bytes 2) (int_bytes 1)
           (entry_bytes ext a_prof) 1 0 []); reflexivity.
Defined.

Lemma update_index_version_frame_witness :
  length (int_bytes 1) = 4%nat
  /\ update_index_version
       (mkHandle (INDEX_MAGIC_PREFIX ++ int_bytes 1 ++ int_bytes 0) 12 [])
     = (Ok tt,
        mkHandle (INDEX_MAGIC_PREFIX ++ int_bytes INDEX_VERSION
                  ++ int_bytes 0) 12 [])
     /\ format_version_of (INDEX_MAGIC_PREFIX ++ int_bytes INDEX_VERSION
                           ++ int_bytes 0)
        = Ok INDEX_VERSION.
Proof.
  split; [reflexivity|].
  apply (update_index_version_frame INDEX_MAGIC_PREFIX (int_bytes 1)
           (int_bytes 0) 12 []); reflexivity.
Defined.

Lemma write_entry_to_index_counter_full_witness :
  offset (set_offset a_prof 12) <> -1
  /\ write_entry_to_index ext
       ((INDEX_MAGIC_PREFIX ++ int_bytes 2) ++ int_bytes 2147483647 ++ [])
       (set_offset a_prof 12)
     = (Raise StructError,
        (INDEX_MAGIC_PREFIX ++ int_bytes 2) ++ int_bytes 2147483647 ++ [],
        []).
Proof.
  assert (O : offset (set_offset a_prof 12) <> -1) by discriminate.
  split; [exact O|].
  apply (write_entry_to_index_counter_full ext (set_offset a_prof 12)
           (INDEX_MAGIC_PREFIX ++ int_bytes 2) [] eq_refl O).
Defined.

Lemma get_profile_number_for_minor_counts_witness :
  str_in (lit "all") [lit "memory"; lit "mixed"; lit "time"] = false
  /\ exists numbers,
       get_profile_number_for_minor ext
         [lit "memory"; lit "mixed"; lit "time"]
         (Some (index_file ext 2 [a_prof; b_prof]))
       = (Ok numbers, [])
       /\ dict_get numbers (lit "all")
          = Some (Z.of_nat (length [a_prof; b_prof]))
       /\ (forall t,
             str_in t [lit "memory"; lit "mixed"; lit "time"] = true ->
             dict_get numbers t
             = Some (Z.of_nat (length (of_type t [a_prof; b_prof]))))
       /\ (forall k, k <> lit "all" ->
                     str_in k [lit "memory"; lit "mixed"; lit "time"]
                     = false ->
                     dict_get numbers k = None).
Proof.
  split; [reflexivity|].
  apply (get_profile_number_for_minor_counts ext
           [lit "memory"; lit "mixed"; lit "time"] [a_prof; b_prof]);
    reflexivity.
Defined.

Lemma save_then_load_custom_index_witness :
  (forall text : str, (fun file : bytes => Ok file)
                        ((fun text : bytes => text) text) = Ok text)
  /\ load_custom_index str (lit "{}") (fun text => Ok text)
       (fun r => r) (fun file => Ok file) (fun text => text)
       (Some (save_custom_index str (fun r => r) (fun text => text)
                                (lit "[1]")))
     = (Ok (lit "[1]"),
        save_custom_index str (fun r => r) (fun text => text) (lit "[1]"))
     /\ load_custom_index str (lit "{}") (fun text => Ok text)
          (fun r => r) (fun file => Ok file) (fun text => text) None
        = (Ok (lit "{}"),
           save_custom_index str (fun r => r) (fun text => text)
                             (lit "{}")).
Proof.
  split; [reflexivity|].
  apply (save_then_load_custom_index str (lit "{}")
           (fun text => Ok text) (fun r => r) (fun file => Ok file)
           (fun text => text) (lit "[1]")); reflexivity.
Defined.

Lemma malformed_index_is_not_modified_witness :
  walk_index ext not_an_index
  = WalkRaise (MalformedIndexFileException NotAnIndexFile)
  /\ write_entry_to_index ext not_an_index a_prof
     = (Raise (MalformedIndexFileException NotAnIndexFile), not_an_index, [])
  /\ remove_from_index ext not_an_index [lit "a.prof"]
     = (Raise (MalformedIndexFileException NotAnIndexFile), not_an_index,
        [LogMajorInfo (lit "Removing from index")]).
Proof.
  assert (W : walk_index ext not_an_index
              = WalkRaise (MalformedIndexFileException NotAnIndexFile))
    by (vm_compute; reflexivity).
  split; [exact W|].
  apply (malformed_index_is_not_modified ext not_an_index NotAnIndexFile
           a_prof [lit "a.prof"] W eq_refl).
  discriminate.
Defined.

Lemma remove_from_index_reports_each_key_witness :
  ([lit "a.prof"; lit "zz.prof"] <> []
   /\ forallb (storable ext) [a_prof; b_prof] = true)
  /\ exists file,
       remove_from_index ext (index_file ext 2 [a_prof; b_prof])
                         [lit "a.prof"; lit "zz.prof"]
       = (Ok tt, file,
          [LogMajorInfo (lit "Removing from index")]
          ++ removal_log ext [lit "a.prof"; lit "zz.prof"]
                         (place ext 12 [a_prof; b_prof])
          ++ [LogMajorInfo (lit "Summary");
              if Z.of_nat (length (matched_keys ext
                                     [lit "a.prof"; lit "zz.prof"]
                                     (place ext 12 [a_prof; b_prof])))
                 =? 0
              then LogMinorInfo_nothing_to_remove
              else LogMinorStatus_removal_succeeded
                     (Z.of_nat (length (matched_keys ext
                                          [lit "a.prof"; lit "zz.prof"]
                                          (place ext 12 [a_prof; b_prof]))))])
       /\ length (removal_log ext [lit "a.prof"; lit "zz.prof"]
                              (place ext 12 [a_prof; b_prof]))
          = length [lit "a.prof"; lit "zz.prof"].
Proof.
  assert (N : [lit "a.prof"; lit "zz.prof"] <> []) by discriminate.
  split; [split; [exact N|reflexivity]|].
  apply (remove_from_index_reports_each_key ext [a_prof; b_prof]
           [lit "a.prof"; lit "zz.prof"] N); reflexivity.
Defined.
